(** * A shallow embedding of the Git data-structure core of react-git-visualizer

    Sources: [src/unnamed/part_000] (GitHash, GitBlob, GitTree, GitCommit,
    GitRepository) and [src/unnamed/part_001] (topologicalSort,
    calculateLayout, findShortestPath, detectCycle).

    Modelling conventions.
    - JavaScript strings are [string]s whose characters are UTF-16 code
      units below 256; [charCodeAt] is [nat_of_ascii].
    - A JavaScript [Map] or [Set] keeps insertion order; it is modelled as an
      association list (resp. a list) where [set] on an existing key updates
      the value in place and [set] on a new key appends.
    - JavaScript truthiness of a string: [undefined], [null] and the empty
      string are falsy.
    - [new Date().toISOString()] is an input of the operation ([now]).
    - Recursive functions and [while] loops carry a fuel argument; the fuel
      chosen by each entry point is large enough for the code to finish, and
      an exhausted fuel is reported as [None]. *)

From Stdlib Require Import String Ascii List ZArith QArith Lia Bool.
From Stdlib Require Import ListDec Permutation Qfield.

#[local] Set Warnings "-register-all".

Import ListNotations.

Local Open Scope nat_scope.
Local Open Scope string_scope.
Local Open Scope list_scope.

(** ** Strings and JavaScript truthiness *)

Definition empty_str : string := EmptyString.

Definition str_eqb (a b : string) : bool := String.eqb a b.

(** [s] as a JavaScript condition. *)
Definition str_truthy (s : string) : bool := negb (str_eqb s empty_str).
#[global] Arguments str_truthy : simpl never.

(** [o] as a JavaScript condition, [None] standing for [undefined]/[null]. *)
Definition opt_truthy (o : option string) : bool :=
  match o with Some s => str_truthy s | None => false end.

(** JavaScript [a || b] on possibly-undefined strings. *)
Definition js_or (a b : option string) : option string :=
  if opt_truthy a then a else b.

(** ** JavaScript [Map] with insertion order *)

Module JSMap.
Section Map.
Context {K V : Type} (keq : K -> K -> bool).

Definition t := list (K * V).

Definition empty : t := [].

Fixpoint get (k : K) (m : t) : option V :=
  match m with
  | [] => None
  | (k', v) :: m' => if keq k k' then Some v else get k m'
  end.

Definition has (k : K) (m : t) : bool :=
  match get k m with Some _ => true | None => false end.

Fixpoint set (k : K) (v : V) (m : t) : t :=
  match m with
  | [] => [(k, v)]
  | (k', v') :: m' => if keq k k' then (k', v) :: m' else (k', v') :: set k v m'
  end.

Definition keys (m : t) : list K := map fst m.
Definition values (m : t) : list V := map snd m.

End Map.
End JSMap.

(** A JavaScript [Set] of strings. *)
Module JSSet.
Definition t := list string.
Definition has (x : string) (s : t) : bool := existsb (str_eqb x) s.
Definition add (x : string) (s : t) : t := if has x s then s else s ++ [x].
Definition delete (x : string) (s : t) : t := filter (fun y => negb (str_eqb x y)) s.
End JSSet.

Definition sget {V} := @JSMap.get string V str_eqb.
Definition sset {V} := @JSMap.set string V str_eqb.
Definition shas {V} := @JSMap.has string V str_eqb.

(** A plain JavaScript object ([{}]) used as a string-keyed record, seen
    through its own enumerable properties in [Object.entries] order: array
    indices (canonical decimal numerals below 2^32 - 1) first, ascending,
    then the other keys in insertion order. *)

Fixpoint dec_value (s : string) (acc : Z) : option Z :=
  match s with
  | EmptyString => Some acc
  | String c s' =>
      let d := Z.of_nat (nat_of_ascii c) in
      if (48 <=? d)%Z && (d <=? 57)%Z then dec_value s' (acc * 10 + (d - 48))%Z else None
  end.

(** The value of [k] when [k] is an array index. *)
Definition array_index (k : string) : option Z :=
  match k with
  | EmptyString => None
  | String c s' =>
      if Nat.eqb (nat_of_ascii c) 48 then
        match s' with EmptyString => Some 0%Z | _ => None end
      else
        match dec_value k 0 with
        | Some n => if (n <? 4294967295)%Z then Some n else None
        | None => None
        end
  end.

(** A new array-index key [k] of value [n] goes after the smaller indices. *)
Fixpoint insert_index {V} (n : Z) (k : string) (v : V) (o : list (string * V)) : list (string * V) :=
  match o with
  | [] => [(k, v)]
  | (k', v') :: o' =>
      match array_index k' with
      | Some n' => if (n' <? n)%Z then (k', v') :: insert_index n k v o' else (k, v) :: o
      | None => (k, v) :: o
      end
  end.

(** [o[k] = v]: an existing key keeps its place; assigning a string or an
    object to [__proto__] sets (or ignores) the prototype and creates no own
    property. *)
Definition obj_set {V} (k : string) (v : V) (o : list (string * V)) : list (string * V) :=
  if str_eqb k "__proto__" then o
  else if shas k o then sset k v o
  else match array_index k with
       | Some n => insert_index n k v o
       | None => o ++ [(k, v)]
       end.

(** ** JSON.stringify *)

Inductive json : Type :=
| JStr (s : string)
| JArr (l : list json)
| JObj (l : list (string * json)).

Definition chr (n : nat) : ascii := ascii_of_nat n.
Definition quote_chr : ascii := chr 34.
Definition backslash : ascii := chr 92.

Definition hex_digit (n : nat) : ascii :=
  if Nat.ltb n 10 then chr (48 + n) else chr (87 + n).

(** Escaping of one code unit by [JSON.stringify]. *)
Definition json_escape_char (c : ascii) : string :=
  let n := nat_of_ascii c in
  if Nat.eqb n 34 then String backslash (String quote_chr EmptyString)
  else if Nat.eqb n 92 then String backslash (String backslash EmptyString)
  else if Nat.eqb n 8 then String backslash (String "b" EmptyString)
  else if Nat.eqb n 9 then String backslash (String "t" EmptyString)
  else if Nat.eqb n 10 then String backslash (String "n" EmptyString)
  else if Nat.eqb n 12 then String backslash (String "f" EmptyString)
  else if Nat.eqb n 13 then String backslash (String "r" EmptyString)
  else if Nat.ltb n 32 then
    String backslash (String "u" (String "0" (String "0"
      (String (hex_digit (n / 16)) (String (hex_digit (n mod 16)) EmptyString)))))
  else String c EmptyString.

Fixpoint json_escape (s : string) : string :=
  match s with
  | EmptyString => EmptyString
  | String c s' => (json_escape_char c ++ json_escape s')%string
  end.

Definition json_quote (s : string) : string :=
  String quote_chr (json_escape s ++ String quote_chr EmptyString)%string.

Fixpoint join (sep : string) (l : list string) : string :=
  match l with
  | [] => EmptyString
  | [x] => x
  | x :: l' => (x ++ sep ++ join sep l')%string
  end.

Fixpoint stringify (j : json) : string :=
  match j with
  | JStr s => json_quote s
  | JArr l => ("[" ++ join "," (map stringify l) ++ "]")%string
  | JObj kvs =>
      ("{" ++ join "," (map (fun kv => json_quote (fst kv) ++ ":" ++ stringify (snd kv)) kvs)
          ++ "}")%string
  end.

(** ** GitHash.generate *)

Definition to_int32 (z : Z) : Z :=
  let m := (z mod 2 ^ 32)%Z in if (m >=? 2 ^ 31)%Z then (m - 2 ^ 32)%Z else m.

(** [hash = ((hash << 5) - hash) + char; hash = hash & hash]. *)
Definition hash_step (h : Z) (c : ascii) : Z :=
  to_int32 (to_int32 (Z.shiftl h 5) - h + Z.of_nat (nat_of_ascii c))%Z.

Fixpoint hash32_from (h : Z) (s : string) : Z :=
  match s with
  | EmptyString => h
  | String c s' => hash32_from (hash_step h c) s'
  end.

Definition hash32 (s : string) : Z := hash32_from 0%Z s.

(** [Number.prototype.toString(16)] on a non-negative integer. *)
Fixpoint to_hex_aux (fuel : nat) (n : Z) (acc : string) : string :=
  match fuel with
  | O => acc
  | S f =>
      let acc' := String (hex_digit (Z.to_nat (n mod 16))) acc in
      if (n <? 16)%Z then acc' else to_hex_aux f (n / 16)%Z acc'
  end.

Definition to_hex (n : Z) : string := to_hex_aux 64 n EmptyString.

Fixpoint repeat_chr (c : ascii) (k : nat) : string :=
  match k with O => EmptyString | S k' => String c (repeat_chr c k') end.

Definition pad_start (s : string) (len : nat) (c : ascii) : string :=
  if Nat.leb len (String.length s) then s
  else (repeat_chr c (len - String.length s) ++ s)%string.

Definition slice (s : string) (a b : nat) : string := substring a (b - a) s.

Definition GitHash_generate (content : json) : string :=
  let str := stringify content in
  let hash := hash32 str in
  slice (pad_start (to_hex (Z.abs hash)) 40 "0") 0 40.

(** ** Objects *)

Record TreeEntry := mkEntry
  { entry_mode : string; entry_name : string; entry_hash : string; entry_type : string }.

Record GitBlob := mkBlob { blob_content : string; blob_hash : string }.

Record GitTree := mkTree { tree_entries : list TreeEntry; tree_hash : string }.

Record GitCommit := mkCommit
  { commit_tree : string; commit_parents : list string; commit_author : string;
    commit_message : string; commit_timestamp : string; commit_hash : string }.

Inductive GitObject :=
| OBlob (b : GitBlob)
| OTree (t : GitTree)
| OCommit (c : GitCommit).

Definition obj_type (o : GitObject) : string :=
  match o with OBlob _ => "blob" | OTree _ => "tree" | OCommit _ => "commit" end.

Definition obj_hash (o : GitObject) : string :=
  match o with OBlob b => blob_hash b | OTree t => tree_hash t | OCommit c => commit_hash c end.

Definition entry_json (e : TreeEntry) : json :=
  JObj [("mode", JStr (entry_mode e)); ("name", JStr (entry_name e));
        ("hash", JStr (entry_hash e)); ("type", JStr (entry_type e))].

Definition tree_json (entries : list TreeEntry) : json :=
  JObj [("type", JStr "tree"); ("entries", JArr (map entry_json entries))].

(** [new GitBlob(content)]. *)
Definition new_GitBlob (content : string) : GitBlob :=
  mkBlob content (GitHash_generate (JObj [("type", JStr "blob"); ("content", JStr content)])).

(** [Number.prototype.toString()] (base 10) on a non-negative integer; the
    fuel [n + 1] covers every digit, as [n / 10 < n] for [n >= 10]. *)
Fixpoint to_dec_aux (fuel : nat) (n : nat) (acc : string) : string :=
  match fuel with
  | O => acc
  | S f =>
      let acc' := String (ascii_of_nat (48 + Nat.modulo n 10)) acc in
      if Nat.ltb n 10 then acc' else to_dec_aux f (Nat.div n 10) acc'
  end.

Definition to_dec (n : nat) : string := to_dec_aux (S n) n EmptyString.

(** [GitBlob.toString()]: [`blob ${this.content.length}\0${this.content}`];
    strings here are ASCII, so [content.length] is [String.length]. *)
Definition GitBlob_toString (b : GitBlob) : string :=
  ("blob " ++ to_dec (String.length (blob_content b)) ++ String (ascii_of_nat 0) (blob_content b))%string.

(** [new GitTree(entries)]. *)
Definition new_GitTree (entries : list TreeEntry) : GitTree :=
  mkTree entries (GitHash_generate (tree_json entries)).

(** [GitTree.addEntry(mode, name, hash, type)]: push, then recompute the hash. *)
Definition addEntry (t : GitTree) (mode name hash type : string) : GitTree :=
  let entries := tree_entries t ++ [mkEntry mode name hash type] in
  mkTree entries (GitHash_generate (tree_json entries)).

Definition commit_json (tree : string) (parents : list string)
    (author message timestamp : string) : json :=
  JObj [("type", JStr "commit"); ("tree", JStr tree);
        ("parents", JArr (map JStr parents)); ("author", JStr author);
        ("message", JStr message); ("timestamp", JStr timestamp)].

(** [new GitCommit(tree, parents, author, message, timestamp)];
    [timestamp || new Date().toISOString()] with the clock reading [now]. *)
Definition new_GitCommit (tree : string) (parents : list string)
    (author message : string) (timestamp : option string) (now : string) : GitCommit :=
  let ts := match js_or timestamp (Some now) with Some s => s | None => now end in
  mkCommit tree parents author message ts
    (GitHash_generate (commit_json tree parents author message ts)).

(** ** GitRepository *)

Record GitRepository := mkRepo
  { objects : JSMap.t (K := string) (V := GitObject);
    refs : JSMap.t (K := string) (V := string);
    HEAD : string }.

Definition new_GitRepository : GitRepository := mkRepo [] [] "main".

Definition storeObject (r : GitRepository) (o : GitObject) : GitRepository * string :=
  (mkRepo (sset (obj_hash o) o (objects r)) (refs r) (HEAD r), obj_hash o).

Definition getObject (r : GitRepository) (hash : string) : option GitObject :=
  sget hash (objects r).

(** [commit(treeHash, message, author)] at clock reading [now]. *)
Definition commit (r : GitRepository) (treeHash message author now : string)
    : GitRepository * GitCommit :=
  let parentHash := sget (HEAD r) (refs r) in
  let parents := match parentHash with
                 | Some p => if str_truthy p then [p] else []
                 | None => []
                 end in
  let c := new_GitCommit treeHash parents author message None now in
  let r1 := fst (storeObject r (OCommit c)) in
  (mkRepo (objects r1) (sset (HEAD r1) (commit_hash c) (refs r1)) (HEAD r1), c).

(** [createBranch(branchName, commitHash = null)]. *)
Definition createBranch (r : GitRepository) (branchName : string)
    (commitHash : option string) : GitRepository :=
  match js_or commitHash (sget (HEAD r) (refs r)) with
  | Some hash =>
      if str_truthy hash then mkRepo (objects r) (sset branchName hash (refs r)) (HEAD r)
      else r
  | None => r
  end.

(** [checkout(branchName)]. *)
Definition checkout (r : GitRepository) (branchName : string) : bool * GitRepository :=
  if shas branchName (refs r) then (true, mkRepo (objects r) (refs r) branchName)
  else (false, r).

(** Fuel for the recursive traversals of the object store: one level per
    stored object, plus one. *)
Definition store_fuel (r : GitRepository) : nat := S (S (length (objects r))).

(** Folding a fuelled traversal over a parent list, [forEach] style. *)
Definition fold_parents {S : Type} (step : string -> S -> option S)
    (parents : list string) (st : S) : option S :=
  fold_left (fun acc p => match acc with Some st' => step p st' | None => None end)
    parents (Some st).

Section Traversals.
Variable objs : JSMap.t (K := string) (V := GitObject).

(** The inner [dfs] of [getCommitHistory]: state is (visited, history). *)
Fixpoint history_dfs (fuel : nat) (commitHash : string)
    (st : JSSet.t * list GitCommit) : option (JSSet.t * list GitCommit) :=
  match fuel with
  | O => None
  | S f =>
      let '(visited, history) := st in
      if negb (str_truthy commitHash) || JSSet.has commitHash visited then Some st
      else
        let visited' := JSSet.add commitHash visited in
        match sget commitHash objs with
        | Some (OCommit c) =>
            fold_parents (history_dfs f) (commit_parents c) (visited', history ++ [c])
        | _ => Some (visited', history)
        end
  end.

(** [traverse] of [findMergeBase]: the inclusive ancestor set. *)
Fixpoint traverse (fuel : nat) (hash : string) (ancestors1 : JSSet.t) : option JSSet.t :=
  match fuel with
  | O => None
  | S f =>
      if negb (str_truthy hash) || JSSet.has hash ancestors1 then Some ancestors1
      else
        let anc := JSSet.add hash ancestors1 in
        match sget hash objs with
        | Some (OCommit c) => fold_parents (traverse f) (commit_parents c) anc
        | _ => Some anc
        end
  end.

(** [findCommon] of [findMergeBase]; the outer [option] is [None] when the
    fuel runs out, the inner one is JavaScript's [null]. *)
Fixpoint findCommon (ancestors1 : JSSet.t) (fuel : nat) (hash : string)
    : option (option string) :=
  match fuel with
  | O => None
  | S f =>
      if negb (str_truthy hash) then Some None
      else if JSSet.has hash ancestors1 then Some (Some hash)
      else
        match sget hash objs with
        | Some (OCommit c) =>
            (fix loop (ps : list string) : option (option string) :=
               match ps with
               | [] => Some None
               | p :: ps' =>
                   match findCommon ancestors1 f p with
                   | None => None
                   | Some (Some common) =>
                       if str_truthy common then Some (Some common) else loop ps'
                   | Some None => loop ps'
                   end
               end) (commit_parents c)
        | _ => Some None
        end
  end.

End Traversals.

(** [getCommitHistory(startHash = null)]. *)
Definition getCommitHistory (r : GitRepository) (startHash : option string)
    : list GitCommit :=
  match js_or startHash (sget (HEAD r) (refs r)) with
  | Some hash =>
      if str_truthy hash then
        match history_dfs (objects r) (store_fuel r) hash ([], []) with
        | Some (_, history) => history
        | None => []
        end
      else []
  | None => []
  end.

(** [findMergeBase(branch1, branch2)]; the outer [option] is [None] when a
    traversal runs out of fuel. *)
Definition findMergeBase (r : GitRepository) (branch1 branch2 : string)
    : option (option string) :=
  let hash1 := sget branch1 (refs r) in
  let hash2 := sget branch2 (refs r) in
  match hash1, hash2 with
  | Some h1, Some h2 =>
      if str_truthy h1 && str_truthy h2 then
        match traverse (objects r) (store_fuel r) h1 [] with
        | Some ancestors1 => findCommon (objects r) ancestors1 (store_fuel r) h2
        | None => None
        end
      else Some None
  | _, _ => Some None
  end.

(** ** The commit-graph snapshot *)

(** Graph nodes are JavaScript objects read through their [id] field. *)
Class Identified (N : Type) := id : N -> string.

Record Edge := mkEdge { from : string; to : string }.

Record CommitNode := mkCommitNode
  { cn_id : string; cn_hash : string; cn_message : string; cn_author : string;
    cn_timestamp : string; cn_parents : list string }.

#[global] Instance CommitNode_id : Identified CommitNode := cn_id.

Record CommitGraph := mkCommitGraph
  { graph_nodes : list CommitNode; graph_edges : list Edge;
    graph_branches : JSMap.t (K := string) (V := string); graph_HEAD : string }.

(** [getCommitGraph()]; [None] is the [TypeError] thrown when a collected
    hash resolves to a blob or a tree ([commit.parents] is undefined).
    [branches] is a plain object, filled by [obj_set]. *)
Definition getCommitGraph (r : GitRepository) : option CommitGraph :=
  let allCommits :=
    fold_left (fun acc bh =>
                 fold_left (fun s c => JSSet.add (commit_hash c) s)
                           (getCommitHistory r (Some (snd bh))) acc)
              (refs r) [] in
  let branches := fold_left (fun b bh => obj_set (fst bh) (snd bh) b) (refs r) [] in
  let build := fold_left
    (fun acc hash =>
       match acc with
       | None => None
       | Some (nodes, edges) =>
           match getObject r hash with
           | Some (OCommit c) =>
               Some (nodes ++ [mkCommitNode (commit_hash c) (substring 0 7 (commit_hash c))
                                  (commit_message c) (commit_author c)
                                  (commit_timestamp c) (commit_parents c)],
                     edges ++ map (fun p => mkEdge (commit_hash c) p) (commit_parents c))
           | Some _ => None
           | None => Some (nodes, edges)
           end
       end) allCommits (Some ([], [])) in
  match build with
  | Some (nodes, edges) => Some (mkCommitGraph nodes edges branches (HEAD r))
  | None => None
  end.

(** ** detectCycle *)

Definition get_list (k : string) (g : JSMap.t (K := string) (V := list string)) : list string :=
  match sget k g with Some l => l | None => [] end.

Section DetectCycle.
Context {N : Type} `{Identified N}.

(** Adjacency list of [detectCycle]: an edge counts when its source is a node. *)
Definition cycle_graph (nodes : list N) (edges : list Edge)
    : JSMap.t (K := string) (V := list string) :=
  let g0 := fold_left (fun g n => sset (id n) [] g) nodes [] in
  fold_left (fun g e => if shas (from e) g then sset (from e) (get_list (from e) g ++ [to e]) g
                        else g) edges g0.

(** The recursive [dfs] of [detectCycle] over the shared sets [visiting] and
    [visited]. *)
Fixpoint cycle_dfs (graph : JSMap.t (K := string) (V := list string)) (fuel : nat)
    (nodeId : string) (visiting visited : JSSet.t) : option (bool * JSSet.t * JSSet.t) :=
  match fuel with
  | O => None
  | S f =>
      (fix loop (ns : list string) (vg vd : JSSet.t) : option (bool * JSSet.t * JSSet.t) :=
         match ns with
         | [] => Some (false, JSSet.delete nodeId vg, JSSet.add nodeId vd)
         | n :: ns' =>
             if JSSet.has n vg then Some (true, vg, vd)
             else if negb (JSSet.has n vd) then
               match cycle_dfs graph f n vg vd with
               | None => None
               | Some (true, vg', vd') => Some (true, vg', vd')
               | Some (false, vg', vd') => loop ns' vg' vd'
               end
             else loop ns' vg vd
         end) (get_list nodeId graph) (JSSet.add nodeId visiting) visited
  end.

Definition cycle_fuel (nodes : list N) (edges : list Edge) : nat :=
  S (length nodes + length edges).

(** [detectCycle(nodes, edges)]; [None] only if the fuel runs out. *)
Definition detectCycle (nodes : list N) (edges : list Edge) : option bool :=
  let graph := cycle_graph nodes edges in
  let fix outer (ns : list N) (vg vd : JSSet.t) : option bool :=
    match ns with
    | [] => Some false
    | n :: ns' =>
        if negb (JSSet.has (id n) vd) then
          match cycle_dfs graph (cycle_fuel nodes edges) (id n) vg vd with
          | None => None
          | Some (true, _, _) => Some true
          | Some (false, vg', vd') => outer ns' vg' vd'
          end
        else outer ns' vg vd
    end in
  outer nodes [] [].

End DetectCycle.

(** ** Reachable repositories *)

(** Repositories produced from [new GitRepository()] by [commit],
    [createBranch] and [checkout], the clock reading being arbitrary. *)
Inductive api_reachable : GitRepository -> Prop :=
| api_init : api_reachable new_GitRepository
| api_commit r treeHash message author now :
    api_reachable r -> api_reachable (fst (commit r treeHash message author now))
| api_branch r name hash :
    api_reachable r -> api_reachable (createBranch r name hash)
| api_checkout r name :
    api_reachable r -> api_reachable (snd (checkout r name)).

(** The fingerprint [h] occurs in [r]: as a stored key, as a parent of a
    stored commit, or as a ref-table value. *)
Definition hash_occurs (r : GitRepository) (h : string) : Prop :=
  (exists o, sget h (objects r) = Some o) \/
  (exists k c, sget k (objects r) = Some (OCommit c) /\ In h (commit_parents c)) \/
  (exists b, sget b (refs r) = Some h).

(** As [api_reachable], but every commit receives a fingerprint that does not
    yet occur in the repository (no fingerprint collision). *)
Inductive collision_free_reachable : GitRepository -> Prop :=
| cf_init : collision_free_reachable new_GitRepository
| cf_commit r treeHash message author now :
    collision_free_reachable r ->
    ~ hash_occurs r (commit_hash (snd (commit r treeHash message author now))) ->
    collision_free_reachable (fst (commit r treeHash message author now))
| cf_branch r name hash :
    collision_free_reachable r -> collision_free_reachable (createBranch r name hash)
| cf_checkout r name :
    collision_free_reachable r -> collision_free_reachable (snd (checkout r name)).

(** Reading back a lower-case hexadecimal string (used to show that
    [GitHash.generate] loses nothing of the 32-bit value it prints). *)
Definition hex_val (c : ascii) : Z :=
  let n := Z.of_nat (nat_of_ascii c) in if (n <? 58)%Z then (n - 48)%Z else (n - 87)%Z.

Fixpoint of_hex_from (a : Z) (s : string) : Z :=
  match s with
  | EmptyString => a
  | String c s' => of_hex_from (16 * a + hex_val c)%Z s'
  end.

(** A repository after two commits on "main", the second of which receives
    the fingerprint of the first. *)
Definition collision_repo : GitRepository :=
  let r1 := fst (commit new_GitRepository "t" "Initial commit" "Alice"
                        "2024-01-01T00:00:00.000Z") in
  fst (commit r1 "t" "acuoepn" "Bob" "2024-01-01T00:00:01.000Z").

(** [collision_repo] with a branch "f" created at the unknown fingerprint
    "zzz" ([createBranch('f', 'zzz')]). *)
Definition collision_branch_repo : GitRepository :=
  createBranch collision_repo "f" (Some "zzz").

(** A first commit on "main", then a branch "feature" checked out and given a
    commit of its own. *)
Definition merge_repo : GitRepository :=
  let r1 := fst (commit new_GitRepository "t" "Initial commit" "Alice"
                        "2024-01-01T00:00:00.000Z") in
  let r2 := snd (checkout (createBranch r1 "feature" None) "feature") in
  fst (commit r2 "t" "Add feature" "Bob" "2024-01-01T00:00:01.000Z").

(** [rank] numbers the fingerprints so that every stored object is a commit,
    stored under its own fingerprint, whose parents have smaller numbers. *)
Definition ranked_store (rank : string -> nat) (r : GitRepository) : Prop :=
  forall k o, sget k (objects r) = Some o ->
    exists c, o = OCommit c /\ commit_hash c = k /\
              forall p, In p (commit_parents c) -> rank p < rank k.

(** The commit [c] is reached from [h] through commits only: it is stored at
    [h], or at a parent of the commit stored at [h], and so on. *)
Inductive commit_path (objs : JSMap.t (K := string) (V := GitObject)) : string -> GitCommit -> Prop :=
| cp_here h c : sget h objs = Some (OCommit c) -> commit_path objs h c
| cp_parent h c0 p c :
    sget h objs = Some (OCommit c0) -> In p (commit_parents c0) ->
    commit_path objs p c -> commit_path objs h c.

(** The depth-first walk of an ancestry described by the specification of
    [findMergeBase]: the tip first, then the walks of its parents in their
    declared order; compared below with [findCommon]. *)
Fixpoint ancestry_preorder (objs : JSMap.t (K := string) (V := GitObject)) (fuel : nat)
    (hash : string) : list string :=
  match fuel with
  | O => []
  | S f =>
      if negb (str_truthy hash) then []
      else hash :: match sget hash objs with
                   | Some (OCommit c) => flat_map (ancestry_preorder objs f) (commit_parents c)
                   | _ => []
                   end
  end.

(** ** createSampleRepository *)

Definition q_str : string := String quote_chr EmptyString.
Definition nl_str : string := String (chr 10) EmptyString.

Definition readme_text : string :=
  "# My Project" ++ nl_str ++ "This is a sample project.".
Definition mainJs_text : string :=
  "console.log(" ++ q_str ++ "Hello, World!" ++ q_str ++ ");".
Definition packageJson_text : string :=
  "{" ++ q_str ++ "name" ++ q_str ++ ": " ++ q_str ++ "sample" ++ q_str ++ ", "
      ++ q_str ++ "version" ++ q_str ++ ": " ++ q_str ++ "1.0.0" ++ q_str ++ "}".
Definition updatedReadme_text : string :=
  readme_text ++ nl_str ++ nl_str ++ "## Features" ++ nl_str ++ "- Feature 1".
Definition featureJs_text : string :=
  "export function newFeature() { return " ++ q_str ++ "cool" ++ q_str ++ "; }".
Definition testJs_text : string :=
  "describe(" ++ q_str ++ "tests" ++ q_str ++ ", () => { it(" ++ q_str ++ "works" ++ q_str
      ++ ", () => {}); });".

Definition store (r : GitRepository) (o : GitObject) : GitRepository := fst (storeObject r o).

(** [createSampleRepository()], the four commits being made at clock
    readings [now1] to [now4]. *)
Definition createSampleRepository (now1 now2 now3 now4 : string) : GitRepository :=
  let repo := new_GitRepository in
  let readme := new_GitBlob readme_text in
  let mainJs := new_GitBlob mainJs_text in
  let packageJson := new_GitBlob packageJson_text in
  let repo := store (store (store repo (OBlob readme)) (OBlob mainJs)) (OBlob packageJson) in
  let tree1 := new_GitTree [] in
  let tree1 := addEntry tree1 "100644" "README.md" (blob_hash readme) "blob" in
  let tree1 := addEntry tree1 "100644" "index.js" (blob_hash mainJs) "blob" in
  let repo := store repo (OTree tree1) in
  let repo := fst (commit repo (tree_hash tree1) "Initial commit" "Alice <alice@example.com>" now1) in
  let updatedReadme := new_GitBlob updatedReadme_text in
  let repo := store repo (OBlob updatedReadme) in
  let tree2 := new_GitTree [] in
  let tree2 := addEntry tree2 "100644" "README.md" (blob_hash updatedReadme) "blob" in
  let tree2 := addEntry tree2 "100644" "index.js" (blob_hash mainJs) "blob" in
  let tree2 := addEntry tree2 "100644" "package.json" (blob_hash packageJson) "blob" in
  let repo := store repo (OTree tree2) in
  let repo := fst (commit repo (tree_hash tree2) "Add package.json and update README"
                          "Bob <bob@example.com>" now2) in
  let repo := createBranch repo "feature-branch" None in
  let repo := snd (checkout repo "feature-branch") in
  let featureJs := new_GitBlob featureJs_text in
  let repo := store repo (OBlob featureJs) in
  let tree3 := new_GitTree [] in
  let tree3 := addEntry tree3 "100644" "README.md" (blob_hash updatedReadme) "blob" in
  let tree3 := addEntry tree3 "100644" "index.js" (blob_hash mainJs) "blob" in
  let tree3 := addEntry tree3 "100644" "package.json" (blob_hash packageJson) "blob" in
  let tree3 := addEntry tree3 "100644" "feature.js" (blob_hash featureJs) "blob" in
  let repo := store repo (OTree tree3) in
  let repo := fst (commit repo (tree_hash tree3) "Add new feature" "Alice <alice@example.com>" now3) in
  let repo := snd (checkout repo "main") in
  let testJs := new_GitBlob testJs_text in
  let repo := store repo (OBlob testJs) in
  let tree4 := new_GitTree [] in
  let tree4 := addEntry tree4 "100644" "README.md" (blob_hash updatedReadme) "blob" in
  let tree4 := addEntry tree4 "100644" "index.js" (blob_hash mainJs) "blob" in
  let tree4 := addEntry tree4 "100644" "package.json" (blob_hash packageJson) "blob" in
  let tree4 := addEntry tree4 "100644" "test.js" (blob_hash testJs) "blob" in
  let repo := store repo (OTree tree4) in
  fst (commit repo (tree_hash tree4) "Add tests" "Bob <bob@example.com>" now4).

Definition sample_repo : GitRepository :=
  createSampleRepository "2024-01-15T10:00:00.000Z" "2024-01-15T10:05:00.000Z"
                         "2024-01-15T10:10:00.000Z" "2024-01-15T10:15:00.000Z".

(** [x] is [h] or an ancestor of [h] reached through commits, every hash on
    the way being non-empty (the traversals stop at an empty one). *)
Inductive hash_ancestor (objs : JSMap.t (K := string) (V := GitObject)) : string -> string -> Prop :=
| ha_refl h : str_truthy h = true -> hash_ancestor objs h h
| ha_parent h c p x :
    str_truthy h = true -> sget h objs = Some (OCommit c) -> In p (commit_parents c) ->
    hash_ancestor objs p x -> hash_ancestor objs h x.

(** The set [s] holds every non-empty parent of the commit stored at [x]. *)
Definition closed_at (objs : JSMap.t (K := string) (V := GitObject)) (s : JSSet.t) (x : string) : Prop :=
  forall c, sget x objs = Some (OCommit c) ->
  forall p, In p (commit_parents c) -> str_truthy p = true -> In p s.

(** ** topologicalSort *)

Section TopologicalSort.
Context {N : Type} `{Identified N}.

(** [graph] and [inDegree] after the initialisation loop over [nodes]. *)
Definition topo_init (nodes : list N)
    : JSMap.t (K := string) (V := list string) * JSMap.t (K := string) (V := Z) :=
  fold_left (fun '(g, d) n => (sset (id n) [] g, sset (id n) 0%Z d)) nodes ([], []).

(** One iteration of the edge loop: an edge counts when both ends are nodes;
    [(inDegree.get(edge.to) || 0) + 1]. *)
Definition topo_add_edge
    (gd : JSMap.t (K := string) (V := list string) * JSMap.t (K := string) (V := Z))
    (e : Edge) :=
  let '(g, d) := gd in
  if shas (from e) g && shas (to e) g then
    (sset (from e) (get_list (from e) g ++ [to e]) g,
     sset (to e) (match sget (to e) d with Some k => k | None => 0 end + 1)%Z d)
  else (g, d).

Definition topo_graph (nodes : list N) (edges : list Edge) :=
  fold_left topo_add_edge edges (topo_init nodes).

End TopologicalSort.

(** The initial queue: the keys of [inDegree] with degree 0, in map order. *)
Definition initial_queue (d : JSMap.t (K := string) (V := Z)) : list string :=
  map fst (filter (fun kv => Z.eqb (snd kv) 0) d).

(** One iteration of the [neighbors.forEach] loop, on ([inDegree], [queue]).
    The neighbour is always a key of [inDegree] (the two maps have the same
    keys); were it not, the degree would become NaN, which never equals 0,
    so the [None] case leaves the observable state alone. *)
Definition topo_visit (st : JSMap.t (K := string) (V := Z) * list string) (neighbor : string) :=
  let '(d, queue) := st in
  match sget neighbor d with
  | Some k => (sset neighbor (k - 1)%Z d, if Z.eqb (k - 1) 0 then queue ++ [neighbor] else queue)
  | None => (d, queue)
  end.

(** The [while (queue.length > 0)] loop; [None] when the fuel runs out. *)
Fixpoint kahn_loop (graph : JSMap.t (K := string) (V := list string)) (fuel : nat)
    (queue sorted : list string) (d : JSMap.t (K := string) (V := Z)) : option (list string) :=
  match fuel with
  | O => None
  | S f =>
      match queue with
      | [] => Some sorted
      | node :: queue' =>
          let '(d', queue'') := fold_left topo_visit (get_list node graph) (d, queue') in
          kahn_loop graph f queue'' (sorted ++ [node]) d'
      end
  end.

(** [topologicalSort(nodes, edges)]. Every key of [inDegree] is pushed at
    most once, so the loop runs at most [length nodes + 1] times. *)
Definition topologicalSort {N} `{Identified N} (nodes : list N) (edges : list Edge)
    : option (list string) :=
  let '(graph, inDegree) := topo_graph nodes edges in
  option_map (@rev string)
    (kahn_loop graph (S (length nodes)) (initial_queue inDegree) [] inDegree).

(** ** calculateLayout *)

(** The [options] object; [None] is an absent property. *)
Record LayoutOptions := mkLayoutOptions
  { opt_nodeWidth : option Q; opt_nodeHeight : option Q;
    opt_horizontalGap : option Q; opt_verticalGap : option Q }.

Definition no_options : LayoutOptions := mkLayoutOptions None None None None.

Definition with_default (o : option Q) (dflt : Q) : Q :=
  match o with Some v => v | None => dflt end.

(** Nodes whose [x] and [y] fields [calculateLayout] writes. *)
Class Positioned (N : Type) := set_xy : N -> Q -> Q -> N.

Definition nget {V} := @JSMap.get nat V Nat.eqb.
Definition nset {V} := @JSMap.set nat V Nat.eqb.
Definition nhas {V} := @JSMap.has nat V Nat.eqb.

Section CalculateLayout.
Context {N : Type} `{Identified N} `{Positioned N}.

(** Step 2: [layers.set(nodeId, sorted.length - index - 1)]. *)
Definition assign_layers (sorted : list string) : JSMap.t (K := string) (V := nat) :=
  fold_left (fun m '(index, nodeId) => sset nodeId (length sorted - index - 1) m)
    (combine (seq 0 (length sorted)) sorted) [].

(** Step 3: [layerCounts]. *)
Definition count_layers (layers : JSMap.t (K := string) (V := nat)) : JSMap.t (K := nat) (V := nat) :=
  fold_left (fun m '(_, layer) =>
               nset layer (match nget layer m with Some c => c | None => 0 end + 1) m)
    layers [].

(** Step 4, one entry of [layers]: state ([layerPositions], [nodeMap]).
    [layerCounts.get(layer)] is always defined. *)
Definition place (w h hg vg : Q) (layerCounts : JSMap.t (K := nat) (V := nat))
    (st : JSMap.t (K := nat) (V := nat) * JSMap.t (K := string) (V := N))
    (entry : string * nat) :=
  let '(layerPositions, nodeMap) := st in
  let '(nodeId, layer) := entry in
  let layerPositions := if nhas layer layerPositions then layerPositions
                        else nset layer 0 layerPositions in
  let position := match nget layer layerPositions with Some p => p | None => 0 end in
  let layerPositions := nset layer (position + 1) layerPositions in
  match sget nodeId nodeMap with
  | Some node =>
      let layerSize := inject_Z (Z.of_nat (match nget layer layerCounts with
                                           | Some c => c | None => 0 end)) in
      let totalWidth := (layerSize * w + (layerSize - 1) * hg)%Q in
      let startX := (- totalWidth / 2)%Q in
      let x := (startX + inject_Z (Z.of_nat position) * (w + hg) + w / 2)%Q in
      let y := (inject_Z (Z.of_nat layer) * vg + h / 2)%Q in
      (layerPositions, sset nodeId (set_xy node x y) nodeMap)
  | None => (layerPositions, nodeMap)
  end.

(** [calculateLayout(nodes, edges, options).nodes]: the placed nodes, read
    from [nodeMap] (the same objects as [nodes], now carrying [x] and [y]).
    Step 5, the edge paths, is not modelled. [None] when [topologicalSort]
    runs out of fuel. *)
Definition calculateLayout (nodes : list N) (edges : list Edge) (options : LayoutOptions)
    : option (list N) :=
  let w := with_default (opt_nodeWidth options) 120 in
  let h := with_default (opt_nodeHeight options) 60 in
  let hg := with_default (opt_horizontalGap options) 150 in
  let vg := with_default (opt_verticalGap options) 100 in
  match nodes with
  | [] => Some []
  | _ =>
      match topologicalSort nodes edges with
      | None => None
      | Some sorted =>
          let layers := assign_layers sorted in
          let nodeMap := fold_left (fun m n => sset (id n) n m) nodes [] in
          let layerCounts := count_layers layers in
          let '(_, nodeMap') := fold_left (place w h hg vg layerCounts) layers ([], nodeMap) in
          Some (JSMap.values nodeMap')
      end
  end.

End CalculateLayout.

(** A plain graph node [{ id, x, y }] as handed to the layout functions;
    [None] is an unset coordinate. *)
Record PlainNode := mkPlainNode { pn_id : string; pn_x : option Q; pn_y : option Q }.

#[global] Instance PlainNode_id : Identified PlainNode := pn_id.
#[global] Instance PlainNode_xy : Positioned PlainNode :=
  fun n x y => mkPlainNode (pn_id n) (Some x) (Some y).

Definition node (s : string) : PlainNode := mkPlainNode s None None.

(** ** Graph notions used by the specification of the layout functions *)

(** A nonempty path along [edges], each edge leading from [from] to [to]. *)
Inductive edge_path (edges : list Edge) : string -> string -> Prop :=
| ep_edge e : In e edges -> edge_path edges (from e) (to e)
| ep_trans a b c : edge_path edges a b -> edge_path edges b c -> edge_path edges a c.

Definition acyclic (edges : list Edge) : Prop := forall x, ~ edge_path edges x x.

(** [x] occurs strictly before [y] in [l]. *)
Definition before (x y : string) (l : list string) : Prop :=
  exists l1 l2, l = l1 ++ l2 /\ In x l1 /\ In y l2.

(** Number of occurrences of [v] in [l]. *)
Definition occ (v : string) (l : list string) : nat := length (filter (str_eqb v) l).

(** The edges into [v] whose source is not in [S]. *)
Definition pending_in (edges : list Edge) (S : list string) (v : string) : nat :=
  length (filter (fun e => str_eqb (to e) v && negb (JSSet.has (from e) S)) edges).

(** The invariant of the [while] loop of [topologicalSort] over the node
    ids [V]: [sorted ++ queue] lists distinct nodes; [inDegree] holds the
    number of edges still pending from unsorted nodes; a node is sorted or
    queued exactly when none is pending; and the source of an edge comes
    before its target once the target is queued. *)
Definition kahn_inv (V : list string) (edges : list Edge) (queue sorted : list string)
    (d : JSMap.t (K := string) (V := Z)) : Prop :=
  NoDup (sorted ++ queue) /\ incl (sorted ++ queue) V /\
  (forall v, In v V -> sget v d = Some (Z.of_nat (pending_in edges sorted v))) /\
  (forall v, In v V -> (In v (sorted ++ queue) <-> pending_in edges sorted v = 0)) /\
  (forall e, In e edges -> In (to e) (sorted ++ queue) -> before (from e) (to e) (sorted ++ queue)).

(** [l] walks the edges backwards: each element is reached by an edge
    path from the next one. *)
Fixpoint back_chain (edges : list Edge) (l : list string) : Prop :=
  match l with
  | x :: ((y :: _) as t) => edge_path edges y x /\ back_chain edges t
  | _ => True
  end.

(** ** findShortestPath *)

(** One edge of [edges.forEach]: each endpoint gets an empty adjacency array
    if it has none, then each endpoint's array receives the other endpoint
    (undirected). [graph.get(..)] is defined at both pushes. *)
Definition sp_add_edge (graph : JSMap.t (K := string) (V := list string)) (edge : Edge) :=
  let graph := if shas (from edge) graph then graph else sset (from edge) [] graph in
  let graph := if shas (to edge) graph then graph else sset (to edge) [] graph in
  let graph := sset (from edge) (get_list (from edge) graph ++ [to edge]) graph in
  sset (to edge) (get_list (to edge) graph ++ [from edge]) graph.

Definition sp_graph (edges : list Edge) : JSMap.t (K := string) (V := list string) :=
  fold_left sp_add_edge edges [].

(** One neighbour of the [for ... of] loop, on the state ([queue], [visited]). *)
Definition sp_visit (path : list string) (st : list (list string) * JSSet.t) (neighbor : string) :=
  let '(queue, visited) := st in
  if negb (JSSet.has neighbor visited)
  then (queue ++ [path ++ [neighbor]], JSSet.add neighbor visited)
  else (queue, visited).

(** The [while] loop; [queue.shift()] takes the head. [path[path.length - 1]]
    is [last path]: the paths in the queue are never empty. [None] when the
    fuel runs out. *)
Fixpoint sp_loop (graph : JSMap.t (K := string) (V := list string)) (endId : string)
    (fuel : nat) (queue : list (list string)) (visited : JSSet.t)
    : option (option (list string)) :=
  match fuel with
  | O => None
  | S fuel =>
      match queue with
      | [] => Some None
      | path :: queue =>
          let node := last path "" in
          if str_eqb node endId then Some (Some path)
          else
            let '(queue, visited) :=
              fold_left (sp_visit path) (get_list node graph) (queue, visited) in
            sp_loop graph endId fuel queue visited
      end
  end.

(** [findShortestPath(startId, endId, edges)]: [Some None] is [null]. Every
    node enters the queue at most once, so [2 * edges.length + 2] rounds
    suffice. *)
Definition findShortestPath (startId endId : string) (edges : list Edge)
    : option (option (list string)) :=
  if str_eqb startId endId then Some (Some [startId])
  else sp_loop (sp_graph edges) endId (2 * length edges + 2) [[startId]] [startId].

(** [a] and [b] are joined by an edge, in either direction. *)
Definition adjacent (edges : list Edge) (a b : string) : Prop :=
  exists e, In e edges /\ ((from e = a /\ to e = b) \/ (from e = b /\ to e = a)).

(** [p] lists the nodes of a path from [s] to [t] along [adjacent] steps; it
    has one node more than it has edges. *)
Inductive upath (edges : list Edge) (s : string) : string -> list string -> Prop :=
| up_start : upath edges s s [s]
| up_snoc m t p : upath edges s m p -> adjacent edges m t -> upath edges s t (p ++ [t]).

(** The invariant of the BFS loop from [s] towards [t], with [done] the nodes
    already taken from the queue: the queue holds paths of [k] nodes, then
    paths of [k + 1] nodes; each is a path to its last node and none is
    longer than another path to that node; [visited] is [done] plus the last
    nodes of the queue; the neighbours of a done node are visited; a node not
    visited is more than [k - 1] edges away; [t] is not done. *)
Definition sp_inv (edges : list Edge) (s t : string) (k : nat)
    (queue : list (list string)) (visited : JSSet.t) (done : list string) : Prop :=
  (exists q1 q2, queue = q1 ++ q2 /\ (forall p, In p q1 -> length p = k) /\
                 (forall p, In p q2 -> length p = S k)) /\
  (forall p, In p queue -> upath edges s (last p "") p) /\
  (forall p q, In p queue -> upath edges s (last p "") q -> length p <= length q) /\
  (forall x, In x visited <-> In x done \/ In x (map (fun p => last p "") queue)) /\
  (forall u w, In u done -> adjacent edges u w -> In w visited) /\
  (forall v q, ~ In v visited -> upath edges s v q -> k < length q) /\
  ~ In t done /\ In s visited.

(** The nodes [findShortestPath] can meet. *)
Definition sp_universe (s : string) (edges : list Edge) : list string :=
  s :: flat_map (fun e => [from e; to e]) edges.

(** ** Invariants of the object store *)

(** Every stored object sits under its own fingerprint. *)
Definition keyed_store (r : GitRepository) : Prop :=
  forall h o, getObject r h = Some o -> obj_hash o = h.

(** Repositories produced from [new GitRepository()] by the public methods
    that change it: [storeObject], [commit], [createBranch] and [checkout]. *)
Inductive repo_built : GitRepository -> Prop :=
| rb_init : repo_built new_GitRepository
| rb_store r o : repo_built r -> repo_built (fst (storeObject r o))
| rb_commit r treeHash message author now :
    repo_built r -> repo_built (fst (commit r treeHash message author now))
| rb_branch r name hash : repo_built r -> repo_built (createBranch r name hash)
| rb_checkout r name : repo_built r -> repo_built (snd (checkout r name)).

(** What the [dfs] of [getCommitHistory] pushes for a hash it marks visited:
    the stored commit, if the hash holds one. *)
Definition commit_at (objs : JSMap.t (K := string) (V := GitObject)) (x : string)
    : list GitCommit :=
  match sget x objs with Some (OCommit c) => [c] | _ => [] end.

(** The distinct fingerprints under which a commit is stored, and how many
    of them a visited set still misses (the measure bounding the depth of
    the recursive traversals). *)
Definition is_commit_at (objs : JSMap.t (K := string) (V := GitObject)) (k : string) : bool :=
  match sget k objs with Some (OCommit _) => true | _ => false end.

Definition commit_keys (objs : JSMap.t (K := string) (V := GitObject)) : list string :=
  nodup string_dec (filter (is_commit_at objs) (map fst objs)).

Definition unvisited (objs : JSMap.t (K := string) (V := GitObject)) (s : JSSet.t) : nat :=
  length (filter (fun k => negb (JSSet.has k s)) (commit_keys objs)).

(** ** detectCycle: the graph it searches *)

Section DetectCycleGraph.
Context {N : Type} `{Identified N}.

(** The edges that enter [detectCycle]'s adjacency lists: those whose
    source is the id of a node. *)
Definition kept_edges (nodes : list N) (edges : list Edge) : list Edge :=
  filter (fun e => JSSet.has (from e) (map id nodes)) edges.

End DetectCycleGraph.

(** One iteration of [detectCycle]'s edge loop. *)
Definition cycle_edge_step (g : JSMap.t (K := string) (V := list string)) (e : Edge) :=
  if shas (from e) g then sset (from e) (get_list (from e) g ++ [to e]) g else g.

(** Position of the first occurrence of [x] in [l] ([length l] if absent). *)
Fixpoint pos (x : string) (l : list string) : nat :=
  match l with
  | [] => 0
  | y :: l' => if str_eqb x y then 0 else S (pos x l')
  end.

(** Every node of the [visited] set of [detectCycle] was finished after all
    its neighbours. *)
Definition finished_ok (graph : JSMap.t (K := string) (V := list string)) (vd : JSSet.t) : Prop :=
  forall x, In x vd -> forall w, In w (get_list x graph) -> In w vd /\ pos w vd < pos x vd.

(** ** topologicalSort: the edges it counts *)

Section TopoEdges.
Context {N : Type} `{Identified N}.

(** The edges that enter [topologicalSort]'s graph and in-degrees: those
    whose two ends are ids of nodes. *)
Definition topo_edges (nodes : list N) (edges : list Edge) : list Edge :=
  filter (fun e => JSSet.has (from e) (map id nodes) && JSSet.has (to e) (map id nodes)) edges.

End TopoEdges.

(** The commit stored under the second fingerprint of the sample repository. *)
Definition sample_commit2 : GitCommit :=
  match getObject sample_repo "000000000000000000000000000000006f4d43a9" with
  | Some (OCommit c) => c
  | _ => new_GitCommit "" [] "" "" None ""
  end.

(** ** groupByBranch *)





(** ** calculateGraphMetrics *)

(** The result object; [avgInDegree] and [avgOutDegree] are exact ratios. *)
Record GraphMetrics := mkGraphMetrics
  { nodeCount : nat; edgeCount : nat; rootCount : nat; leafCount : nat;
    maxDepth : nat; avgInDegree : Q; avgOutDegree : Q }.

(** The recursive [dfs(nodeId, depth)], threading [maxDepth]; it keeps no
    visited set. [None] when the fuel runs out: the JavaScript recursion
    then never ends (the engine throws a stack overflow). *)
Fixpoint metrics_dfs (graph : JSMap.t (K := string) (V := list string)) (fuel : nat)
    (nodeId : string) (depth : nat) (maxD : nat) : option nat :=
  match fuel with
  | O => None
  | S f =>
      fold_parents (fun neighbor m => metrics_dfs graph f neighbor (S depth) m)
        (get_list nodeId graph) (Nat.max maxD depth)
  end.

Section GraphMetrics.
Context {N : Type} `{Identified N}.

(** [inDegree] and [outDegree]: 0 for every node, then
    [(map.get(x) || 0) + 1] for the target (resp. source) of every edge. *)
Definition degrees (nodes : list N) (edges : list Edge)
    : JSMap.t (K := string) (V := nat) * JSMap.t (K := string) (V := nat) :=
  let d0 := fold_left (fun '(i, o) n => (sset (id n) 0 i, sset (id n) 0 o)) nodes ([], []) in
  fold_left (fun '(i, o) e =>
      let o := sset (from e) (match sget (from e) o with Some k => k | None => 0 end + 1) o in
      let i := sset (to e) (match sget (to e) i with Some k => k | None => 0 end + 1) i in
      (i, o)) edges d0.

(** [map.get(node.id) === 0]. *)
Definition degree_zero (d : JSMap.t (K := string) (V := nat)) (n : N) : bool :=
  match sget (id n) d with Some k => Nat.eqb k 0 | None => false end.

(** The recursion of [dfs] goes one level deeper per edge; [length nodes + 2]
    levels reach every walk from a root that meets no cycle. *)
Definition metrics_fuel (nodes : list N) : nat := S (S (length nodes)).

(** [calculateGraphMetrics(nodes, edges)]; the graph is built as in
    [detectCycle]. [None] when [dfs] does not terminate. *)
Definition calculateGraphMetrics (nodes : list N) (edges : list Edge) : option GraphMetrics :=
  let graph := cycle_graph nodes edges in
  let '(inDegree, outDegree) := degrees nodes edges in
  let roots := filter (degree_zero inDegree) nodes in
  let leaves := filter (degree_zero outDegree) nodes in
  let avg := if Nat.ltb 0 (length nodes)
             then (inject_Z (Z.of_nat (length edges)) / inject_Z (Z.of_nat (length nodes)))%Q
             else 0%Q in
  match fold_parents (fun rid m => metrics_dfs graph (metrics_fuel nodes) rid 0 m) (map id roots) 0 with
  | Some maxD =>
      Some (mkGraphMetrics (length nodes) (length edges) (length roots) (length leaves)
              maxD avg avg)
  | None => None
  end.

End GraphMetrics.

(** Some cycle of [edges] is reached from [x] (or passes through it). *)
Definition reaches_cycle (edges : list Edge) (x : string) : Prop :=
  exists y, (y = x \/ edge_path edges x y) /\ edge_path edges y y.

(** A walk of [n] edges along [edges] starting at [x]. *)
Inductive walk (edges : list Edge) : string -> nat -> Prop :=
| walk_nil x : walk edges x 0
| walk_cons e n : In e edges -> walk edges (to e) n -> walk edges (from e) (S n).

(** ** AlgorithmVisualizer: runDFS *)

(** The [graphData.edges.forEach] of [runDFS]: pushes [edge.to] for every edge
    leaving [current] whose target is not in [visitedSet] (already holding
    [current]). *)
Definition run_dfs_push (edges : list Edge) (current : string) (visitedSet : JSSet.t)
    (stack : list string) : list string :=
  fold_left (fun st e => if str_eqb (from e) current && negb (JSSet.has (to e) visitedSet)
                         then st ++ [to e] else st) edges stack.

(** The [while (stack.length > 0)] loop of [runDFS]; [stack.pop()] takes the
    last element. It returns the final [visited] array; [None] when the fuel
    runs out. *)
Fixpoint run_dfs_loop (edges : list Edge) (fuel : nat)
    (stack : list string) (visitedSet : JSSet.t) (visited : list string) : option (list string) :=
  match fuel with
  | O => None
  | S f =>
      match stack with
      | [] => Some visited
      | _ :: _ =>
          let current := last stack "" in
          let stack := removelast stack in
          if JSSet.has current visitedSet then run_dfs_loop edges f stack visitedSet visited
          else
            let visitedSet := JSSet.add current visitedSet in
            let visited := visited ++ [current] in
            run_dfs_loop edges f (run_dfs_push edges current visitedSet stack) visitedSet visited
      end
  end.

(** Each edge is pushed at most once (when its source is visited), so the
    loop runs at most [edges.length + 1] times. *)
Definition run_dfs_fuel (edges : list Edge) : nat := S (S (length edges)).

(** The object [runBFS] or [runDFS] passes to [setResult]. *)
Inductive VisualizerResult :=
| VisError (error : string)
| VisBFS (algorithm description complexity : string) (path : list string) (pathLength : Z)
| VisDFS (algorithm description complexity : string) (visited : list string) (visitedCount : nat).

(** [runDFS()] of [AlgorithmVisualizer], with [graphData.edges] as [edges]:
    the result given to [setResult] ([visited] is also what
    [onPathHighlight] receives). *)
Definition runDFS (startNode : string) (edges : list Edge) : option VisualizerResult :=
  if negb (str_truthy startNode) then Some (VisError "Please select a start commit")
  else
    match run_dfs_loop edges (run_dfs_fuel edges) [startNode] [] [] with
    | Some visited =>
        Some (VisDFS "Depth-First Search (DFS)" "Traverses the commit graph in depth-first order"
                     "Time: O(V + E), Space: O(V)" visited (length visited))
    | None => None
    end.

(** [runBFS()] of [AlgorithmVisualizer], with [graphData.edges] as [edges]:
    the result given to [setResult] (on success [path] is also what
    [onPathHighlight] receives). [None] when [findShortestPath] runs out of
    fuel. *)
Definition runBFS (startNode endNode : string) (edges : list Edge) : option VisualizerResult :=
  if negb (str_truthy startNode) || negb (str_truthy endNode) then
    Some (VisError "Please select both start and end commits")
  else
    match findShortestPath startNode endNode edges with
    | Some (Some path) =>
        Some (VisBFS "Breadth-First Search (BFS)" "Finds the shortest path between two commits"
                     "Time: O(V + E), Space: O(V)" path (Z.of_nat (length path) - 1)%Z)
    | Some None => Some (VisError "No path found between the selected commits")
    | None => None
    end.

(** ** GitRepository.getStats *)

(** The object [getStats()] returns. *)
Record RepoStats := mkRepoStats
  { totalObjects : nat; totalCommits : nat; totalTrees : nat; totalBlobs : nat;
    branches : nat; currentBranch : string }.

(** [Array.from(this.objects.values()).filter(o => o.type === t).length]. *)
Definition count_type (t : string) (objs : JSMap.t (K := string) (V := GitObject)) : nat :=
  length (filter (fun o => str_eqb (obj_type o) t) (JSMap.values objs)).

(** [getStats()]; a [Map]'s [size] is the number of its entries. *)
Definition getStats (r : GitRepository) : RepoStats :=
  mkRepoStats (length (objects r)) (count_type "commit" (objects r))
    (count_type "tree" (objects r)) (count_type "blob" (objects r))
    (length (refs r)) (HEAD r).

(** 1 when [o] holds an object of type [t], else 0. *)
Definition has_type (t : string) (o : option GitObject) : nat :=
  match o with Some o' => if str_eqb (obj_type o') t then 1 else 0 | None => 0 end.

(** * Proofs *)

(** ** Maps, sets and strings *)

Lemma str_eqb_spec (a b : string) : reflect (a = b) (str_eqb a b).
Proof. apply String.eqb_spec. Qed.

Lemma str_eqb_refl (a : string) : str_eqb a a = true.
Proof. destruct (str_eqb_spec a a); congruence. Qed.

Lemma str_eqb_neq (a b : string) : a <> b -> str_eqb a b = false.
Proof. intros Hn; destruct (str_eqb_spec a b); congruence. Qed.

Lemma sget_sset {V} (k k' : string) (v : V) m :
  sget k (sset k' v m) = if str_eqb k k' then Some v else sget k m.
Proof.
  unfold sget, sset; induction m as [|[k0 v0] m IH]; simpl.
  - reflexivity.
  - destruct (str_eqb_spec k' k0) as [->|Hne]; simpl.
    + destruct (str_eqb k k0); reflexivity.
    + destruct (str_eqb_spec k k0) as [->|Hne2].
      * rewrite (str_eqb_neq k0 k'); [reflexivity| congruence].
      * exact IH.
Qed.

Lemma sget_sset_same {V} (k : string) (v : V) m : sget k (sset k v m) = Some v.
Proof. rewrite sget_sset, str_eqb_refl; reflexivity. Qed.

Lemma sget_sset_other {V} (k k' : string) (v : V) m :
  k <> k' -> sget k (sset k' v m) = sget k m.
Proof. intros Hn; rewrite sget_sset, str_eqb_neq; auto. Qed.

Lemma shas_sget {V} (k : string) (m : JSMap.t (K := string) (V := V)) :
  shas k m = true <-> sget k m <> None.
Proof. unfold shas, JSMap.has, sget; destruct (JSMap.get _ k m); split; congruence. Qed.

Lemma length_append (s1 s2 : string) :
  String.length (s1 ++ s2) = String.length s1 + String.length s2.
Proof. induction s1; simpl; congruence. Qed.

Lemma length_repeat_chr c k : String.length (repeat_chr c k) = k.
Proof. induction k; simpl; congruence. Qed.

Lemma length_substring0 (n : nat) (s : string) :
  n <= String.length s -> String.length (substring 0 n s) = n.
Proof.
  revert s; induction n as [|n IH]; intros s Hl; destruct s; simpl in *; try lia.
  rewrite IH; lia.
Qed.

Lemma length_pad_start s c : 40 <= String.length (pad_start s 40 c).
Proof.
  unfold pad_start; destruct (Nat.leb_spec 40 (String.length s)); [lia|].
  rewrite length_append, length_repeat_chr; lia.
Qed.

(** Every fingerprint has 40 characters, so it is never falsy. *)
Lemma GitHash_generate_length j : String.length (GitHash_generate j) = 40.
Proof.
  unfold GitHash_generate, slice; simpl (40 - 0).
  apply length_substring0, length_pad_start.
Qed.

Lemma GitHash_generate_truthy j : str_truthy (GitHash_generate j) = true.
Proof.
  unfold str_truthy; destruct (str_eqb_spec (GitHash_generate j) empty_str) as [He|]; [|reflexivity].
  pose proof (GitHash_generate_length j) as Hl; rewrite He in Hl; discriminate.
Qed.

Lemma str_truthy_true s : s <> empty_str -> str_truthy s = true.
Proof. intros Hn; unfold str_truthy; rewrite str_eqb_neq; auto. Qed.

(** ** Repository operations *)

Lemma commit_unfold r treeHash message author now :
  commit r treeHash message author now =
  (let parents := match sget (HEAD r) (refs r) with
                  | Some p => if str_truthy p then [p] else []
                  | None => []
                  end in
   let c := new_GitCommit treeHash parents author message None now in
   (mkRepo (sset (commit_hash c) (OCommit c) (objects r))
           (sset (HEAD r) (commit_hash c) (refs r)) (HEAD r), c)).
Proof. reflexivity. Qed.

(** C3: [commit] takes the current reference's commit as single parent
    (none when HEAD has no entry), stores the new commit under its
    fingerprint and moves the current reference to it; from an empty
    repository a first commit has no parent and a second commit on the same
    reference has the first commit's fingerprint as its only parent. *)
Theorem commit_parent_and_ref (r : GitRepository) (treeHash message author now : string)
    (Hfp : forall p, sget (HEAD r) (refs r) = Some p -> p <> empty_str) :
  (let '(r', c) := commit r treeHash message author now in
   commit_parents c = match sget (HEAD r) (refs r) with Some p => [p] | None => [] end /\
   getObject r' (commit_hash c) = Some (OCommit c) /\
   sget (HEAD r') (refs r') = Some (commit_hash c) /\
   HEAD r' = HEAD r) /\
  (forall t1 m1 a1 n1 t2 m2 a2 n2,
     let '(ra, c1) := commit new_GitRepository t1 m1 a1 n1 in
     let '(_, c2) := commit ra t2 m2 a2 n2 in
     commit_parents c1 = [] /\ commit_parents c2 = [commit_hash c1]).
Proof.
  split.
  - rewrite commit_unfold; cbv zeta; unfold getObject; simpl.
    destruct (sget (HEAD r) (refs r)) as [p|] eqn:Hp.
    + rewrite (str_truthy_true p (Hfp p eq_refl)).
      repeat split; apply sget_sset_same.
    + repeat split; apply sget_sset_same.
  - intros t1 m1 a1 n1 t2 m2 a2 n2.
    unfold commit; simpl.
    rewrite GitHash_generate_truthy.
    split; reflexivity.
Qed.

(** Witness of C3 on the empty repository. *)
Lemma commit_parent_and_ref_witness :
  (forall p, sget (HEAD new_GitRepository) (refs new_GitRepository) = Some p -> p <> empty_str) /\
  commit_parents (snd (commit new_GitRepository "t" "Initial commit" "Alice"
                            "2024-01-01T00:00:00.000Z")) = [].
Proof.
  assert (H : forall p, sget (HEAD new_GitRepository) (refs new_GitRepository) = Some p ->
                        p <> empty_str) by (intros p Hp; discriminate Hp).
  split; [exact H|].
  pose proof (proj1 (commit_parent_and_ref new_GitRepository "t" "Initial commit" "Alice"
                       "2024-01-01T00:00:00.000Z" H)) as Hc.
  simpl in Hc; destruct Hc as [Hc _]; exact Hc.
Defined.

(** C7: [checkout(name)] succeeds and moves HEAD to [name] exactly when
    [name] has an entry in the ref table; otherwise it fails and leaves the
    whole repository unchanged. *)
Theorem checkout_spec (r : GitRepository) (name : string) :
  let '(ok, r') := checkout r name in
  (ok = true <-> sget name (refs r) <> None) /\
  (ok = true -> r' = mkRepo (objects r) (refs r) name) /\
  (ok = false -> r' = r).
Proof.
  unfold checkout.
  destruct (shas name (refs r)) eqn:Hh.
  - apply shas_sget in Hh; repeat split; try congruence; auto.
  - repeat split; try congruence.
    intros Hn; apply shas_sget in Hn; congruence.
Qed.

(** C8: with HEAD on a commit, [createBranch("feature")],
    [checkout("feature")], [commit(...)] advance the entry of "feature" to
    the new commit and leave every other entry of the ref table as it was. *)
Theorem branch_isolation (r : GitRepository) (h treeHash message author now : string)
    (Hh : sget (HEAD r) (refs r) = Some h) (Hne : h <> empty_str) :
  let r1 := createBranch r "feature" None in
  let '(ok, r2) := checkout r1 "feature" in
  let '(r3, c) := commit r2 treeHash message author now in
  ok = true /\ HEAD r2 = "feature" /\
  sget "feature" (refs r3) = Some (commit_hash c) /\
  commit_parents c = [h] /\
  (forall b, b <> "feature" -> sget b (refs r3) = sget b (refs r)).
Proof.
  cbv zeta.
  unfold createBranch; simpl js_or; rewrite Hh.
  unfold js_or; simpl opt_truthy; cbv iota.
  pose proof (str_truthy_true h Hne) as Ht.
  destruct (str_truthy h); [|discriminate Ht].
  unfold checkout; simpl refs.
  assert (Hs : shas "feature" (sset "feature" h (refs r)) = true)
    by (apply shas_sget; rewrite sget_sset_same; discriminate).
  rewrite Hs.
  rewrite commit_unfold; cbv zeta; simpl.
  rewrite (sget_sset_same "feature" h (refs r)), (str_truthy_true h Hne).
  repeat split.
  - apply sget_sset_same.
  - intros b Hb; rewrite !sget_sset_other by exact Hb; reflexivity.
Qed.

(** Witness of C8 on a repository with one commit on "main". *)
Lemma branch_isolation_witness :
  let r := fst (commit new_GitRepository "t" "Initial commit" "Alice" "2024-01-01T00:00:00.000Z") in
  sget (HEAD r) (refs r) = Some "000000000000000000000000000000001721bf41" /\
  sget "main"
    (refs (fst (commit (snd (checkout (createBranch r "feature" None) "feature"))
                       "t" "Feature" "Bob" "2024-01-01T00:00:01.000Z"))) =
    Some "000000000000000000000000000000001721bf41".
Proof.
  cbv zeta.
  assert (H1 : sget (HEAD (fst (commit new_GitRepository "t" "Initial commit" "Alice"
                                      "2024-01-01T00:00:00.000Z")))
                    (refs (fst (commit new_GitRepository "t" "Initial commit" "Alice"
                                      "2024-01-01T00:00:00.000Z")))
               = Some "000000000000000000000000000000001721bf41") by (vm_compute; reflexivity).
  split; [exact H1|].
  pose proof (branch_isolation _ _ "t" "Feature" "Bob" "2024-01-01T00:00:01.000Z" H1
                ltac:(discriminate)) as Hb.
  cbv zeta in Hb.
  destruct (checkout _ "feature") as [ok r2] eqn:E2.
  cbn [snd fst] in *.
  destruct (commit r2 _ _ _ _) as [r3 c] eqn:E3.
  cbn [snd fst] in *.
  destruct Hb as (_ & _ & _ & _ & Hother).
  rewrite (Hother "main" ltac:(discriminate)).
  exact H1.
Defined.

(** ** Fingerprints of trees *)

(** C5 fails: appending an entry to the empty tree can keep its fingerprint. *)
Lemma addEntry_same_hash :
  ~ (forall (t : GitTree) (mode name hash type : string),
       tree_entries (addEntry t mode name hash type) <> tree_entries t ->
       tree_hash (addEntry t mode name hash type) <> tree_hash t).
Proof.
  intros H.
  apply (H (new_GitTree []) "100644" "^dkkbey"
           "0000000000000000000000000000000000000000" "blob").
  - vm_compute; discriminate.
  - vm_compute; reflexivity.
Qed.

Lemma to_int32_range z : (- 2 ^ 31 <= to_int32 z < 2 ^ 31)%Z.
Proof.
  unfold to_int32.
  pose proof (Z.mod_pos_bound z (2 ^ 32) ltac:(lia)).
  destruct (Z.geb_spec (z mod 2 ^ 32) (2 ^ 31)); lia.
Qed.

Lemma hash32_from_range s h :
  (- 2 ^ 31 <= h < 2 ^ 31)%Z -> (- 2 ^ 31 <= hash32_from h s < 2 ^ 31)%Z.
Proof.
  revert h; induction s as [|c s IH]; intros h Hh; simpl; [exact Hh|].
  apply IH; unfold hash_step; apply to_int32_range.
Qed.

Lemma hash32_abs_bound s : (0 <= Z.abs (hash32 s) < 16 ^ 8)%Z.
Proof.
  pose proof (hash32_from_range s 0 ltac:(lia)) as H.
  unfold hash32; lia.
Qed.

Lemma hex_val_digit (n : nat) : n < 16 -> hex_val (hex_digit n) = Z.of_nat n.
Proof.
  intros Hn.
  do 16 (destruct n as [|n]; [reflexivity|]).
  lia.
Qed.

Lemma of_hex_to_hex_aux f : forall n acc,
  (0 <= n < 16 ^ Z.of_nat f)%Z ->
  of_hex_from 0 (to_hex_aux f n acc) = of_hex_from n acc.
Proof.
  induction f as [|f IH]; intros n acc Hn.
  - simpl in Hn; replace n with 0%Z by lia; reflexivity.
  - simpl to_hex_aux.
    pose proof (Z.mod_pos_bound n 16 ltac:(lia)) as Hm.
    assert (Hd : hex_val (hex_digit (Z.to_nat (n mod 16))) = (n mod 16)%Z)
      by (rewrite hex_val_digit; lia).
    destruct (Z.ltb_spec n 16).
    + cbn [of_hex_from]; rewrite Hd; f_equal; rewrite Z.mod_small; lia.
    + rewrite IH.
      * cbn [of_hex_from]; rewrite Hd; f_equal.
        symmetry; apply Z.div_mod; lia.
      * rewrite Nat2Z.inj_succ, Z.pow_succ_r in Hn by lia.
        split; [apply Z.div_pos; lia|apply Z.div_lt_upper_bound; lia].
Qed.

Lemma length_to_hex_aux f : forall n acc k,
  (0 <= n < 16 ^ Z.of_nat (S k))%Z ->
  String.length (to_hex_aux f n acc) <= S k + String.length acc.
Proof.
  induction f as [|f IH]; intros n acc k Hn; simpl; [lia|].
  destruct (Z.ltb_spec n 16); simpl; [lia|].
  destruct k as [|k].
  - simpl in Hn; lia.
  - etransitivity.
    + apply (IH _ _ k).
      rewrite Nat2Z.inj_succ, Z.pow_succ_r in Hn by lia.
      split; [apply Z.div_pos; lia|apply Z.div_lt_upper_bound; lia].
    + simpl; lia.
Qed.

Lemma of_hex_repeat_zero k s : of_hex_from 0 (repeat_chr "0" k ++ s) = of_hex_from 0 s.
Proof. induction k; simpl; [reflexivity|exact IHk]. Qed.

Lemma substring_full s : substring 0 (String.length s) s = s.
Proof. induction s; simpl; congruence. Qed.

(** [GitHash.generate] prints the absolute value of the 32-bit hash
    without loss. *)
Lemma of_hex_GitHash_generate j :
  of_hex_from 0 (GitHash_generate j) = Z.abs (hash32 (stringify j)).
Proof.
  unfold GitHash_generate, slice, to_hex.
  change (40 - 0) with 40.
  generalize (hash32_abs_bound (stringify j)).
  generalize (Z.abs (hash32 (stringify j))) as n; intros n Hn.
  pose proof (length_to_hex_aux 64 n EmptyString 7 Hn) as Hl.
  cbn [String.length] in Hl.
  pose proof (of_hex_to_hex_aux 64 n EmptyString ltac:(cbn -[Z.pow]; lia)) as Hv.
  revert Hl Hv.
  generalize (to_hex_aux 64 n EmptyString) as h; intros h Hl Hv.
  unfold pad_start.
  destruct (Nat.leb_spec 40 (String.length h)); [lia|].
  assert (Hs : String.length (repeat_chr "0" (40 - String.length h) ++ h) = 40)
    by (rewrite length_append, length_repeat_chr; lia).
  rewrite <- Hs at 1; rewrite substring_full.
  rewrite of_hex_repeat_zero, Hv; reflexivity.
Qed.

Lemma GitHash_generate_eq_iff j1 j2 :
  GitHash_generate j1 = GitHash_generate j2 <->
  Z.abs (hash32 (stringify j1)) = Z.abs (hash32 (stringify j2)).
Proof.
  split.
  - intros He; rewrite <- !of_hex_GitHash_generate, He; reflexivity.
  - intros He; unfold GitHash_generate; cbv zeta; rewrite He; reflexivity.
Qed.

(** C5 as the code does it: [addEntry] appends the entry and recomputes
    the fingerprint from the new entries; for a tree whose fingerprint
    matches its entries, the fingerprint changes exactly when the absolute
    values of the 32-bit hashes of the two serialisations differ. *)
Theorem addEntry_rehash (t : GitTree) (mode name hash type : string)
    (Hc : tree_hash t = GitHash_generate (tree_json (tree_entries t))) :
  let t' := addEntry t mode name hash type in
  tree_entries t' = tree_entries t ++ [mkEntry mode name hash type] /\
  tree_hash t' = GitHash_generate (tree_json (tree_entries t')) /\
  (tree_hash t' <> tree_hash t <->
   Z.abs (hash32 (stringify (tree_json (tree_entries t')))) <>
   Z.abs (hash32 (stringify (tree_json (tree_entries t))))).
Proof.
  cbv zeta; unfold addEntry; cbn [tree_entries tree_hash].
  split; [reflexivity|split; [reflexivity|]].
  rewrite Hc, GitHash_generate_eq_iff; tauto.
Qed.

Lemma addEntry_rehash_witness :
  tree_hash (new_GitTree []) = GitHash_generate (tree_json (tree_entries (new_GitTree []))) /\
  tree_entries (addEntry (new_GitTree []) "100644" "README.md" "abc" "blob") =
    [mkEntry "100644" "README.md" "abc" "blob"].
Proof.
  assert (Hc : tree_hash (new_GitTree []) =
               GitHash_generate (tree_json (tree_entries (new_GitTree [])))) by reflexivity.
  split; [exact Hc|].
  exact (proj1 (addEntry_rehash (new_GitTree []) "100644" "README.md" "abc" "blob" Hc)).
Defined.

(** ** The commit graph is acyclic up to fingerprint collisions *)

Lemma JSSet_has_In x s : JSSet.has x s = true <-> In x s.
Proof.
  unfold JSSet.has; rewrite existsb_exists; split.
  - intros [y [Hy He]]; destruct (str_eqb_spec x y); [subst; exact Hy|discriminate].
  - intros Hx; exists x; split; [exact Hx|apply str_eqb_refl].
Qed.

Lemma JSSet_add_new x s : ~ In x s -> JSSet.add x s = s ++ [x].
Proof.
  intros Hn; unfold JSSet.add.
  destruct (JSSet.has x s) eqn:E; [apply JSSet_has_In in E; contradiction|reflexivity].
Qed.

Lemma JSSet_delete_app x s : ~ In x s -> JSSet.delete x (s ++ [x]) = s.
Proof.
  intros Hn; unfold JSSet.delete; rewrite filter_app; simpl.
  rewrite str_eqb_refl, app_nil_r; simpl.
  induction s as [|y s IH]; simpl; [reflexivity|].
  rewrite str_eqb_neq by (intros ->; apply Hn; left; reflexivity); simpl.
  rewrite IH; [reflexivity|intros Hi; apply Hn; right; exact Hi].
Qed.

Lemma get_list_sset k k' l g :
  get_list k (sset k' l g) = if str_eqb k k' then l else get_list k g.
Proof. unfold get_list; rewrite sget_sset; destruct (str_eqb k k'); reflexivity. Qed.

Lemma cycle_graph_init_nil {N} `{Identified N} (nodes : list N) :
  forall g, (forall u, get_list u g = []) ->
  forall u, get_list u (fold_left (fun g n => sset (id n) [] g) nodes g) = [].
Proof.
  induction nodes as [|n nodes IH]; simpl; intros g Hg u; [apply Hg|].
  apply IH; intros u'; rewrite get_list_sset; destruct (str_eqb u' (id n)); auto.
Qed.

(** Every adjacency of [detectCycle]'s graph comes from an edge. *)
Lemma cycle_graph_adj {N} `{Identified N} (nodes : list N) edges u w :
  In w (get_list u (cycle_graph nodes edges)) ->
  exists e, In e edges /\ from e = u /\ to e = w.
Proof.
  unfold cycle_graph.
  assert (Hgen : forall es g,
    (forall u w, In w (get_list u g) -> exists e, In e edges /\ from e = u /\ to e = w) ->
    incl es edges ->
    forall u w,
      In w (get_list u (fold_left (fun g e => if shas (from e) g
                                               then sset (from e) (get_list (from e) g ++ [to e]) g
                                               else g) es g)) ->
      exists e, In e edges /\ from e = u /\ to e = w).
  { induction es as [|e es IH]; simpl; intros g Hg Hincl; [exact Hg|].
    apply IH; [|intros x Hx; apply Hincl; right; exact Hx].
    destruct (shas (from e) g); [|exact Hg].
    intros u0 w0; rewrite get_list_sset.
    destruct (str_eqb_spec u0 (from e)) as [->|_]; [|apply Hg].
    intros Hin; apply in_app_or in Hin; destruct Hin as [Hin|[<-|[]]].
    - apply Hg; exact Hin.
    - exists e; split; [apply Hincl; left; reflexivity|split; reflexivity]. }
  apply Hgen; [|apply incl_refl].
  intros u0 w0; rewrite cycle_graph_init_nil by (intros; reflexivity); intros [].
Qed.

Lemma NoDup_snoc (x : string) s : NoDup s -> ~ In x s -> NoDup (s ++ [x]).
Proof.
  intros Hs Hx; apply (Permutation_NoDup (Permutation_cons_append s x)).
  constructor; assumption.
Qed.

(** With neighbours of smaller rank, a [dfs] call returns [false] and leaves
    [visiting] as it found it. *)
Lemma cycle_dfs_ranked (graph : JSMap.t (K := string) (V := list string))
    (rank : string -> nat) (U : list string)
    (Hadj : forall u w, In w (get_list u graph) -> rank w < rank u /\ In w U) :
  forall f n vg vd,
    NoDup vg -> (forall x, In x vg -> rank n < rank x /\ In x U) -> In n U ->
    length U <= f + length vg ->
    exists vd', cycle_dfs graph f n vg vd = Some (false, vg, vd').
Proof.
  induction f as [|f IHf]; intros n vg vd Hnd Hvg Hn Hf.
  all: assert (Hnin : ~ In n vg) by (intros Hi; specialize (Hvg n Hi); lia).
  all: assert (Hlen : length (n :: vg) <= length U)
         by (apply NoDup_incl_length; [constructor; assumption|];
             intros x [<-|Hx]; [exact Hn|apply Hvg; exact Hx]).
  - simpl in Hlen; lia.
  - cbn [cycle_dfs].
    rewrite (JSSet_add_new n vg Hnin).
    assert (Hns : forall w, In w (get_list n graph) -> rank w < rank n /\ In w U)
      by (intros w Hw; apply Hadj; exact Hw).
    revert vd Hns; generalize (get_list n graph) as ns.
    induction ns as [|w ns IHns]; intros vd Hns; cbv beta iota.
    + exists (JSSet.add n vd); rewrite JSSet_delete_app by exact Hnin; reflexivity.
    + assert (Hw : JSSet.has w (vg ++ [n]) = false).
      { destruct (JSSet.has w (vg ++ [n])) eqn:E; [|reflexivity].
        apply JSSet_has_In, in_app_or in E.
        specialize (Hns w (or_introl eq_refl)).
        destruct E as [E|[E|[]]]; [specialize (Hvg w E); lia|subst; lia]. }
      rewrite Hw.
      assert (Hrest : forall w', In w' ns -> rank w' < rank n /\ In w' U)
        by (intros w' Hw'; apply Hns; right; exact Hw').
      destruct (negb (JSSet.has w vd)).
      * destruct (IHf w (vg ++ [n]) vd) as [vd1 E1].
        -- apply NoDup_snoc; assumption.
        -- specialize (Hns w (or_introl eq_refl)).
           intros x Hx; apply in_app_or in Hx; destruct Hx as [Hx|[<-|[]]].
           ++ specialize (Hvg x Hx); split; [lia|tauto].
           ++ split; [lia|exact Hn].
        -- apply Hns; left; reflexivity.
        -- rewrite length_app; simpl in *; lia.
        -- rewrite E1; apply IHns; exact Hrest.
      * apply IHns; exact Hrest.
Qed.

(** [detectCycle] reports no cycle when a rank decreases along every edge. *)
Lemma detectCycle_ranked {N} `{Identified N} (nodes : list N) edges (rank : string -> nat) :
  (forall e, In e edges -> rank (to e) < rank (from e)) ->
  detectCycle nodes edges = Some false.
Proof.
  intros Hr; unfold detectCycle.
  set (U := map id nodes ++ map to edges).
  assert (Hadj : forall u w, In w (get_list u (cycle_graph nodes edges)) ->
                             rank w < rank u /\ In w U).
  { intros u w Hin; destruct (cycle_graph_adj _ _ _ _ Hin) as [e [He [<- <-]]].
    split; [apply Hr; exact He|apply in_or_app; right; apply in_map; exact He]. }
  assert (Hf : length U <= cycle_fuel nodes edges + length (@nil string))
    by (unfold U, cycle_fuel; rewrite length_app, !length_map; simpl; lia).
  match goal with
  | |- ?F nodes [] [] = _ =>
      assert (Hgen : forall ns vd, incl ns nodes -> F ns [] vd = Some false)
  end.
  { induction ns as [|n ns IH]; intros vd Hincl; cbv beta iota; [reflexivity|].
    assert (Hrest : incl ns nodes) by (intros x Hx; apply Hincl; right; exact Hx).
    destruct (negb (JSSet.has (id n) vd)); [|apply IH; exact Hrest].
    destruct (cycle_dfs_ranked _ rank U Hadj (cycle_fuel nodes edges) (id n) [] vd)
      as [vd1 E1].
    - constructor.
    - intros x [].
    - apply in_or_app; left; apply in_map, Hincl; left; reflexivity.
    - exact Hf.
    - rewrite E1; apply IH; exact Hrest. }
  apply Hgen, incl_refl.
Qed.

Lemma createBranch_objects r name hash : objects (createBranch r name hash) = objects r.
Proof.
  unfold createBranch.
  destruct (js_or hash _) as [h|]; [destruct (str_truthy h)|]; reflexivity.
Qed.

Lemma checkout_objects r name : objects (snd (checkout r name)) = objects r.
Proof. unfold checkout; destruct (shas name (refs r)); reflexivity. Qed.

Lemma commit_parents_from_ref r treeHash message author now p :
  In p (commit_parents (snd (commit r treeHash message author now))) ->
  sget (HEAD r) (refs r) = Some p.
Proof.
  rewrite commit_unfold; cbn [snd new_GitCommit commit_parents].
  destruct (sget (HEAD r) (refs r)) as [q|]; [|intros []].
  destruct (str_truthy q); [intros [<-|[]]; reflexivity|intros []].
Qed.

(** Without fingerprint collisions the store stays ranked. *)
Lemma collision_free_ranked r :
  collision_free_reachable r -> exists rank, ranked_store rank r.
Proof.
  induction 1 as [|r t m a now Hr [rank IH] Hfresh|r name hash Hr [rank IH]|r name Hr [rank IH]].
  - exists (fun _ => 0); intros k o Hk; discriminate Hk.
  - set (c := snd (commit r t m a now)) in *.
    set (h := commit_hash c) in *.
    assert (Hobj : objects (fst (commit r t m a now)) = sset h (OCommit c) (objects r))
      by (rewrite commit_unfold; reflexivity).
    exists (fun s => if str_eqb s h then S (list_max (map rank (commit_parents c))) else rank s).
    intros k o Hk; rewrite Hobj, sget_sset in Hk.
    destruct (str_eqb_spec k h) as [->|Hkh].
    + injection Hk as <-; exists c; split; [reflexivity|split; [reflexivity|]].
      intros p Hp; cbv beta.
      assert (Hph : p <> h).
      { intros ->; apply Hfresh; right; right; exists (HEAD r).
        apply (commit_parents_from_ref r t m a now); exact Hp. }
      rewrite str_eqb_neq by exact Hph.
      pose proof (proj1 (list_max_le (map rank (commit_parents c)) _) (le_n _)) as Hall.
      rewrite Forall_forall in Hall.
      apply Nat.lt_succ_r, Hall, in_map, Hp.
    + destruct (IH k o Hk) as (c0 & -> & Hc0 & Hp0).
      exists c0; split; [reflexivity|split; [exact Hc0|]].
      intros p Hp; cbv beta.
      assert (Hph : p <> h).
      { intros ->; apply Hfresh; right; left; exists k, c0; split; assumption. }
      rewrite str_eqb_neq by exact Hph; apply Hp0; exact Hp.
  - exists rank; intros k o; rewrite createBranch_objects; apply IH.
  - exists rank; intros k o; rewrite checkout_objects; apply IH.
Qed.

(** The snapshot of a ranked store exists and its edges decrease the rank. *)
Lemma getCommitGraph_ranked rank r :
  ranked_store rank r ->
  exists g, getCommitGraph r = Some g /\
            forall e, In e (graph_edges g) -> rank (to e) < rank (from e).
Proof.
  intros Hs; unfold getCommitGraph; cbv zeta.
  match goal with
  | |- exists g, match fold_left ?F ?L (Some ([], [])) with _ => _ end = _ /\ _ =>
      assert (Hb : forall hs n0 e0,
                 (forall e, In e e0 -> rank (to e) < rank (from e)) ->
                 exists n1 e1, fold_left F hs (Some (n0, e0)) = Some (n1, e1) /\
                               forall e, In e e1 -> rank (to e) < rank (from e));
      [|destruct (Hb L [] [] ltac:(intros e [])) as (n1 & e1 & -> & He1)]
  end.
  - induction hs as [|hsh hs IH]; intros n0 e0 He0; simpl; [exists n0, e0; auto|].
    unfold getObject; destruct (sget hsh (objects r)) as [o|] eqn:Eo; [|apply IH; exact He0].
    destruct (Hs hsh o Eo) as (c & -> & Hc & Hp).
    apply IH; intros e He; apply in_app_or in He; destruct He as [He|He]; [apply He0; exact He|].
    apply in_map_iff in He; destruct He as (p & <- & Hin); simpl.
    rewrite Hc; apply Hp; exact Hin.
  - eexists; split; [reflexivity|exact He1].
Qed.

(** C4 fails: two commits whose fingerprints collide make a self-loop. *)
Lemma commit_graph_cycle_collision :
  ~ (forall r, api_reachable r ->
       option_map (fun g => detectCycle (graph_nodes g) (graph_edges g)) (getCommitGraph r)
       = Some (Some false)).
Proof.
  intros H.
  assert (Hr : api_reachable collision_repo)
    by (unfold collision_repo; apply api_commit, api_commit, api_init).
  specialize (H collision_repo Hr).
  vm_compute in H; discriminate H.
Qed.

(** C4 as the code does it: when no commit receives a fingerprint already
    occurring in the repository, the snapshot of any repository built by
    [commit], [createBranch] and [checkout] has no cycle. *)
Theorem commit_graph_acyclic (r : GitRepository) (Hr : collision_free_reachable r) :
  option_map (fun g => detectCycle (graph_nodes g) (graph_edges g)) (getCommitGraph r)
  = Some (Some false).
Proof.
  destruct (collision_free_ranked r Hr) as [rank Hs].
  destruct (getCommitGraph_ranked rank r Hs) as (g & -> & Hg).
  simpl; rewrite (detectCycle_ranked _ _ rank Hg); reflexivity.
Qed.

Lemma commit_graph_acyclic_witness :
  collision_free_reachable
    (fst (commit new_GitRepository "t" "Initial commit" "Alice" "2024-01-01T00:00:00.000Z")) /\
  option_map (fun g => detectCycle (graph_nodes g) (graph_edges g))
    (getCommitGraph
       (fst (commit new_GitRepository "t" "Initial commit" "Alice" "2024-01-01T00:00:00.000Z")))
  = Some (Some false).
Proof.
  assert (Hr : collision_free_reachable
                 (fst (commit new_GitRepository "t" "Initial commit" "Alice"
                              "2024-01-01T00:00:00.000Z"))).
  { apply cf_commit; [apply cf_init|].
    intros [[o Ho]|[(k & c & Hk & _)|[b Hb]]]; discriminate. }
  split; [exact Hr|exact (commit_graph_acyclic _ Hr)].
Defined.

(** ** getCommitHistory and findMergeBase *)

Lemma fold_parents_nil {S} (step : string -> S -> option S) st :
  fold_parents step [] st = Some st.
Proof. reflexivity. Qed.

Lemma fold_left_none {S} (step : string -> S -> option S) ps :
  fold_left (fun acc p => match acc with Some st' => step p st' | None => None end) ps None = None.
Proof. induction ps; simpl; auto. Qed.

Lemma fold_parents_cons {S} (step : string -> S -> option S) p ps st :
  fold_parents step (p :: ps) st =
  match step p st with Some st1 => fold_parents step ps st1 | None => None end.
Proof.
  unfold fold_parents; simpl. destruct (step p st); [reflexivity|apply fold_left_none].
Qed.

Lemma fold_parents_ind {S} (step : string -> S -> option S) (R : S -> S -> Prop)
    (Hrefl : forall s, R s s) (Htrans : forall a b c, R a b -> R b c -> R a c) ps :
  (forall p s s', In p ps -> step p s = Some s' -> R s s') ->
  forall st st', fold_parents step ps st = Some st' -> R st st'.
Proof.
  induction ps as [|p ps IH]; intros Hstep st st' Hf.
  - rewrite fold_parents_nil in Hf; injection Hf as <-; apply Hrefl.
  - rewrite fold_parents_cons in Hf.
    destruct (step p st) as [st1|] eqn:E; [|discriminate].
    apply (Htrans _ st1); [exact (Hstep p st st1 (or_introl eq_refl) E)|].
    apply IH; [|exact Hf].
    intros q s s' Hq Hs; exact (Hstep q s s' (or_intror Hq) Hs).
Qed.

Lemma history_dfs_path objs f : forall h st st',
  history_dfs objs f h st = Some st' ->
  forall c, In c (snd st') -> In c (snd st) \/ commit_path objs h c.
Proof.
  induction f as [|f IH]; intros h [visited history] st' Hd c Hc; [discriminate|].
  simpl in Hd.
  destruct (negb (str_truthy h) || JSSet.has h visited);
    [injection Hd as <-; left; exact Hc|].
  destruct (sget h objs) as [[b|t|c0]|] eqn:Ho; try (injection Hd as <-; left; exact Hc).
  pose proof (fold_parents_ind (history_dfs objs f)
     (fun a b => forall c, In c (snd b) ->
        In c (snd a) \/ exists p, In p (commit_parents c0) /\ commit_path objs p c)) as Hind.
  destruct (Hind (fun s c H => or_introl H)) with (3 := Hd) (c := c) as [Hin|(p & Hp & Hpath)];
    [| |exact Hc| |].
  - intros a b d Hab Hbd x Hx.
    destruct (Hbd x Hx) as [Hb|Hq]; [exact (Hab x Hb)|right; exact Hq].
  - intros p s s' Hp Hs x Hx.
    destruct (IH p s s' Hs x Hx) as [Hin|Hpath]; [left; exact Hin|right; exists p; auto].
  - simpl in Hin. apply in_app_or in Hin as [Hin|[<-|[]]]; [left; exact Hin|].
    right; apply cp_here; exact Ho.
  - right; exact (cp_parent objs h c0 p c Ho Hp Hpath).
Qed.

Lemma history_dfs_not_commit objs f h :
  str_truthy h = true -> (forall c, sget h objs <> Some (OCommit c)) ->
  history_dfs objs (S f) h ([], []) = Some ([h], []).
Proof.
  intros Ht Hn. simpl. rewrite Ht. simpl.
  destruct (sget h objs) as [[b|t|c]|]; try reflexivity.
  exfalso; exact (Hn c eq_refl).
Qed.

Lemma getCommitHistory_not_commit r start h :
  js_or start (sget (HEAD r) (refs r)) = Some h ->
  (forall c, getObject r h <> Some (OCommit c)) -> getCommitHistory r start = [].
Proof.
  intros E Hn. unfold getCommitHistory; rewrite E.
  destruct (str_truthy h) eqn:Ht; [|reflexivity].
  unfold store_fuel. rewrite history_dfs_not_commit; [reflexivity|exact Ht|exact Hn].
Qed.

(** C10: [getCommitHistory] returns the empty sequence when the start
    fingerprint (or, when it is omitted or empty, the current reference's
    target) is not stored or not a commit; every element of the history is
    a stored commit reached from the start through commits only, so the
    traversal never passes a blob or a tree. *)
Theorem getCommitHistory_commits (r : GitRepository) (start : option string) :
  (forall s, start = Some s -> s <> empty_str ->
     (forall c, getObject r s <> Some (OCommit c)) -> getCommitHistory r start = []) /\
  ((start = None \/ start = Some empty_str) ->
     (forall h, sget (HEAD r) (refs r) = Some h -> forall c, getObject r h <> Some (OCommit c)) ->
     getCommitHistory r start = []) /\
  (forall c, In c (getCommitHistory r start) ->
     exists h, js_or start (sget (HEAD r) (refs r)) = Some h /\ commit_path (objects r) h c).
Proof.
  split; [|split].
  - intros s -> Hs Hn. apply (getCommitHistory_not_commit r (Some s) s); [|exact Hn].
    unfold js_or, opt_truthy. rewrite (str_truthy_true s Hs). reflexivity.
  - intros Hst Hn. destruct (sget (HEAD r) (refs r)) as [h|] eqn:E.
    + apply (getCommitHistory_not_commit r start h); [|exact (Hn h eq_refl)].
      rewrite E. destruct Hst as [-> | ->]; reflexivity.
    + unfold getCommitHistory. rewrite E. destruct Hst as [-> | ->]; reflexivity.
  - intros c Hc. unfold getCommitHistory in Hc.
    destruct (js_or start (sget (HEAD r) (refs r))) as [h|] eqn:E; [|contradiction].
    destruct (str_truthy h); [|contradiction].
    destruct (history_dfs (objects r) (store_fuel r) h ([], [])) as [[v hist]|] eqn:Hd;
      [|contradiction].
    exists h; split; [reflexivity|].
    destruct (history_dfs_path _ _ _ _ _ Hd c Hc) as [[]|Hp]; exact Hp.
Qed.

Lemma getCommitHistory_commits_witness :
  getCommitHistory sample_repo (Some (blob_hash (new_GitBlob readme_text))) = [].
Proof.
  apply (proj1 (getCommitHistory_commits sample_repo (Some (blob_hash (new_GitBlob readme_text))))
           (blob_hash (new_GitBlob readme_text)) eq_refl).
  - intros H; vm_compute in H; discriminate H.
  - intros c H; vm_compute in H; discriminate H.
Defined.

Lemma hash_ancestor_truthy objs h x : hash_ancestor objs h x -> str_truthy h = true.
Proof. destruct 1; assumption. Qed.

Lemma traverse_sound objs f : forall h s s',
  traverse objs f h s = Some s' -> forall x, In x s' -> In x s \/ hash_ancestor objs h x.
Proof.
  induction f as [|f IH]; intros h s s' Hd x Hx; [discriminate|].
  simpl in Hd.
  destruct (negb (str_truthy h) || JSSet.has h s) eqn:Eb; [injection Hd as <-; left; exact Hx|].
  apply orb_false_iff in Eb as [Et Ehas]. apply negb_false_iff in Et.
  unfold JSSet.add in Hd; rewrite Ehas in Hd.
  destruct (sget h objs) as [[b|t|c0]|] eqn:Ho;
    try (injection Hd as <-; apply in_app_or in Hx as [Hx|[<-|[]]];
         [left; exact Hx|right; apply ha_refl; exact Et]).
  pose proof (fold_parents_ind (traverse objs f)
     (fun a b => forall x, In x b ->
        In x a \/ exists p, In p (commit_parents c0) /\ hash_ancestor objs p x)) as Hind.
  destruct (Hind (fun s x H => or_introl H)) with (3 := Hd) (x := x) as [Hin|(p & Hp & Ha)];
    [| |exact Hx| |].
  - intros a b d Hab Hbd y Hy.
    destruct (Hbd y Hy) as [Hb|Hq]; [exact (Hab y Hb)|right; exact Hq].
  - intros p a b Hp Hs y Hy.
    destruct (IH p a b Hs y Hy) as [Hin|Ha]; [left; exact Hin|right; exists p; auto].
  - apply in_app_or in Hin as [Hin|[<-|[]]]; [left; exact Hin|right; apply ha_refl; exact Et].
  - right; exact (ha_parent objs h c0 p x Et Ho Hp Ha).
Qed.

Lemma traverse_complete objs f : forall h s s',
  traverse objs f h s = Some s' ->
  incl s s' /\ (str_truthy h = true -> In h s') /\
  (forall x, In x s' -> ~ In x s -> closed_at objs s' x).
Proof.
  induction f as [|f IHf]; intros h s s' Hd; [discriminate|].
  simpl in Hd.
  destruct (negb (str_truthy h) || JSSet.has h s) eqn:Eb.
  { injection Hd as <-. split; [apply incl_refl|split; [|intros x Hx Hn; exact (False_ind _ (Hn Hx))]].
    intros Ht; rewrite Ht in Eb; simpl in Eb. apply JSSet_has_In; exact Eb. }
  apply orb_false_iff in Eb as [Et Ehas]. apply negb_false_iff in Et.
  unfold JSSet.add in Hd; rewrite Ehas in Hd.
  assert (Hfold : forall ps a b, fold_parents (traverse objs f) ps a = Some b ->
            incl a b /\ (forall p, In p ps -> str_truthy p = true -> In p b) /\
            (forall x, In x b -> ~ In x a -> closed_at objs b x)).
  { induction ps as [|p ps IHps]; intros a b Hf.
    - rewrite fold_parents_nil in Hf; injection Hf as <-.
      split; [apply incl_refl|split; [intros p []|intros x Hx Hn; exact (False_ind _ (Hn Hx))]].
    - rewrite fold_parents_cons in Hf.
      destruct (traverse objs f p a) as [a1|] eqn:E1; [|discriminate].
      destruct (IHf p a a1 E1) as (Hi1 & Hp1 & Hc1).
      destruct (IHps a1 b Hf) as (Hi2 & Hp2 & Hc2).
      split; [exact (incl_tran Hi1 Hi2)|split].
      + intros q [<-|Hq] Hqt; [apply Hi2, Hp1, Hqt|apply Hp2; assumption].
      + intros x Hx Hn. destruct (in_dec string_dec x a1) as [Ha1|Ha1].
        * intros c Hc q Hq Hqt. apply Hi2. exact (Hc1 x Ha1 Hn c Hc q Hq Hqt).
        * apply Hc2; assumption. }
  destruct (sget h objs) as [[b|t|c0]|] eqn:Ho.
  1-2,4: injection Hd as <-; split; [intros y Hy; apply in_or_app; left; exact Hy|split;
      [intros _; apply in_or_app; right; left; reflexivity|]];
    intros x Hx Hn; apply in_app_or in Hx as [Hx|[<-|[]]]; [contradiction|];
    intros c Hc; rewrite Ho in Hc; discriminate Hc.
  destruct (Hfold _ _ _ Hd) as (Hi & Hp & Hc).
  split; [intros y Hy; apply Hi, in_or_app; left; exact Hy|split].
  - intros _; apply Hi, in_or_app; right; left; reflexivity.
  - intros x Hx Hn. destruct (in_dec string_dec x (s ++ [h])) as [Hin|Hin].
    + apply in_app_or in Hin as [Hin|[<-|[]]]; [contradiction|].
      intros c Hc' q Hq Hqt. rewrite Ho in Hc'. injection Hc' as <-. apply Hp; assumption.
    + apply Hc; assumption.
Qed.

Lemma traverse_ancestors objs f h anc :
  traverse objs f h [] = Some anc -> forall x, In x anc <-> hash_ancestor objs h x.
Proof.
  intros Ht x; split.
  - intros Hx. destruct (traverse_sound _ _ _ _ _ Ht x Hx) as [[]|Ha]; exact Ha.
  - intros Ha. destruct (traverse_complete _ _ _ _ _ Ht) as (_ & Hh & Hc).
    assert (Hcl : forall y, In y anc -> closed_at objs anc y)
      by (intros y Hy; apply Hc; [exact Hy|intros []]).
    assert (Hin : In h anc) by (apply Hh; exact (hash_ancestor_truthy _ _ _ Ha)).
    clear Hh Hc Ht. revert Hin.
    induction Ha as [h Ht|h c p y Ht Ho Hp Ha IHa]; intros Hin; [exact Hin|].
    apply IHa. exact (Hcl h Hin c Ho p Hp (hash_ancestor_truthy _ _ _ Ha)).
Qed.

Lemma ancestry_preorder_truthy objs f : forall h x,
  In x (ancestry_preorder objs f h) -> str_truthy x = true.
Proof.
  induction f as [|f IH]; intros h x Hx; [contradiction|]. simpl in Hx.
  destruct (str_truthy h) eqn:Eh; simpl in Hx; [|contradiction].
  destruct Hx as [<-|Hx]; [exact Eh|].
  destruct (sget h objs) as [[b|t|c]|]; try contradiction.
  apply in_flat_map in Hx as (p & _ & Hx). exact (IH p x Hx).
Qed.

Lemma find_app {A} (P : A -> bool) l1 l2 :
  find P (l1 ++ l2) = match find P l1 with Some x => Some x | None => find P l2 end.
Proof.
  induction l1 as [|a l1 IH]; simpl; [reflexivity|]. destruct (P a); [reflexivity|exact IH].
Qed.

Lemma findCommon_preorder objs anc f : forall h res,
  findCommon objs anc f h = Some res ->
  res = find (fun x => JSSet.has x anc) (ancestry_preorder objs f h).
Proof.
  induction f as [|f IH]; intros h res Hf; [discriminate|].
  cbn [findCommon ancestry_preorder] in Hf |- *.
  destruct (str_truthy h) eqn:Eh; cbn [negb] in Hf |- *; [|injection Hf as <-; reflexivity].
  cbn [find].
  destruct (JSSet.has h anc) eqn:Ea; [injection Hf as <-; reflexivity|].
  destruct (sget h objs) as [[b|t|c]|]; try (injection Hf as <-; reflexivity).
  revert res Hf. induction (commit_parents c) as [|p ps IHps]; intros res Hf;
    cbn [flat_map] in Hf |- *; [injection Hf as <-; reflexivity|].
  rewrite find_app.
  destruct (findCommon objs anc f p) as [[common|]|] eqn:Ep; [| |discriminate].
  - pose proof (IH p _ Ep) as Hp. rewrite <- Hp.
    destruct (str_truthy common) eqn:Ec; [injection Hf as <-; reflexivity|].
    symmetry in Hp. apply find_some in Hp as [Hin _].
    rewrite (ancestry_preorder_truthy _ _ _ _ Hin) in Ec; discriminate.
  - rewrite <- (IH p _ Ep). apply IHps; exact Hf.
Qed.

Lemma findCommon_mono objs anc f : forall f' h res, f <= f' ->
  findCommon objs anc f h = Some res -> findCommon objs anc f' h = Some res.
Proof.
  induction f as [|f IH]; intros f' h res Hle Hf; [discriminate|].
  destruct f' as [|f']; [lia|].
  cbn [findCommon] in Hf |- *.
  destruct (negb (str_truthy h)); [exact Hf|].
  destruct (JSSet.has h anc); [exact Hf|].
  destruct (sget h objs) as [[b|t|c]|]; try exact Hf.
  revert res Hf. induction (commit_parents c) as [|p ps IHps]; intros res Hf; [exact Hf|].
  destruct (findCommon objs anc f p) as [v|] eqn:Ep; [|discriminate].
  rewrite (IH f' p v ltac:(lia) Ep).
  destruct v as [common|]; [destruct (str_truthy common)|]; auto.
Qed.

(** ** topologicalSort *)

Lemma sget_In {V} (k : string) (v : V) m : sget k m = Some v -> In (k, v) m.
Proof.
  unfold sget; induction m as [|[k0 v0] m IH]; simpl; [discriminate|].
  destruct (str_eqb_spec k k0) as [->|_]; [intros [= ->]; left; reflexivity|].
  intros Hk; right; exact (IH Hk).
Qed.

Lemma In_sget {V} (k : string) (v : V) m : NoDup (map fst m) -> In (k, v) m -> sget k m = Some v.
Proof.
  unfold sget; induction m as [|[k0 v0] m IH]; simpl; [contradiction|].
  intros Hnd Hin; inversion Hnd as [|? ? Hn Hnd']; subst.
  destruct Hin as [[= -> ->]|Hin].
  - rewrite str_eqb_refl; reflexivity.
  - destruct (str_eqb_spec k k0) as [->|_]; [|exact (IH Hnd' Hin)].
    exfalso; apply Hn; apply (in_map fst) in Hin; exact Hin.
Qed.

Lemma sget_keys {V} (k : string) (m : JSMap.t (K := string) (V := V)) :
  sget k m <> None <-> In k (map fst m).
Proof.
  unfold sget; induction m as [|[k0 v0] m IH]; simpl; [split; [congruence|contradiction]|].
  destruct (str_eqb_spec k k0) as [->|Hne]; [split; [auto|congruence]|].
  rewrite IH; split; [auto|intros [->|H]; [congruence|exact H]].
Qed.

Lemma keys_sset {V} (k x : string) (v : V) m :
  In x (map fst (sset k v m)) <-> x = k \/ In x (map fst m).
Proof.
  unfold sset; induction m as [|[k0 v0] m IH]; simpl.
  { split; intros Hx; repeat destruct Hx as [Hx|Hx]; subst; auto; contradiction. }
  destruct (str_eqb_spec k k0) as [->|Hne]; simpl;
    [|rewrite IH]; split; intros Hx; repeat destruct Hx as [Hx|Hx]; subst; auto.
Qed.

Lemma NoDup_keys_sset {V} (k : string) (v : V) m :
  NoDup (map fst m) -> NoDup (map fst (sset k v m)).
Proof.
  unfold sset; induction m as [|[k0 v0] m IH]; simpl; intros Hnd.
  - constructor; [intros []|constructor].
  - inversion Hnd as [|? ? Hn Hnd']; subst.
    destruct (str_eqb_spec k k0) as [->|Hne]; simpl; constructor; auto.
    intros Hin. apply (keys_sset k k0 v m) in Hin as [->|Hin]; [congruence|contradiction].
Qed.

Lemma NoDup_map_filter {A B} (f : A -> B) (p : A -> bool) l :
  NoDup (map f l) -> NoDup (map f (filter p l)).
Proof.
  induction l as [|a l IH]; simpl; [auto|]. intros Hnd; inversion Hnd as [|? ? Hn Hnd']; subst.
  destruct (p a); simpl; [constructor; [|auto]|auto].
  intros Hin; apply Hn. apply in_map_iff in Hin as (b & Hb & Hin).
  apply filter_In in Hin as [Hin _]. rewrite <- Hb; apply in_map; exact Hin.
Qed.

Lemma JSSet_has_cons x y s : JSSet.has x (y :: s) = str_eqb x y || JSSet.has x s.
Proof. reflexivity. Qed.

Lemma JSSet_has_app x s1 s2 : JSSet.has x (s1 ++ s2) = JSSet.has x s1 || JSSet.has x s2.
Proof. unfold JSSet.has; apply existsb_app. Qed.

Section TopoGraph.
Context {N : Type} `{Identified N}.

Lemma topo_init_fold (ns : list N) :
  forall (g : JSMap.t (K := string) (V := list string)) (d : JSMap.t (K := string) (V := Z)),
  let gd := fold_left (fun '(g, d) n => (sset (id n) [] g, sset (id n) 0%Z d)) ns (g, d) in
  (forall u, sget u (fst gd) = if JSSet.has u (map id ns) then Some [] else sget u g) /\
  (forall u, sget u (snd gd) = if JSSet.has u (map id ns) then Some 0%Z else sget u d) /\
  (forall x, In x (map fst (snd gd)) <-> In x (map id ns) \/ In x (map fst d)) /\
  (NoDup (map fst d) -> NoDup (map fst (snd gd))).
Proof.
  induction ns as [|n ns IH]; intros g d.
  - simpl; split; [reflexivity|split; [reflexivity|split; [tauto|auto]]].
  - cbn [fold_left map]. destruct (IH (sset (id n) [] g) (sset (id n) 0%Z d)) as (Hg & Hd & Hk & Hn).
    split; [|split; [|split]].
    + intros u; rewrite Hg, JSSet_has_cons, sget_sset.
      destruct (JSSet.has u (map id ns)), (str_eqb u (id n)); reflexivity.
    + intros u; rewrite Hd, JSSet_has_cons, sget_sset.
      destruct (JSSet.has u (map id ns)), (str_eqb u (id n)); reflexivity.
    + intros x; rewrite Hk, keys_sset; cbn [In]. split; intros Hx; repeat destruct Hx as [Hx|Hx]; subst; auto.
    + intros Hnd; apply Hn, NoDup_keys_sset, Hnd.
Qed.

End TopoGraph.

Lemma topo_edges_fold (es : list Edge) :
  forall (g : JSMap.t (K := string) (V := list string)) (d : JSMap.t (K := string) (V := Z)),
  (forall e, In e es -> In (from e) (map fst g) /\ In (to e) (map fst g)) ->
  (forall x, In x (map fst g) -> sget x d <> None) ->
  let gd := fold_left topo_add_edge es (g, d) in
  (forall u, sget u (fst gd) =
     option_map (fun l => l ++ map to (filter (fun e => str_eqb (from e) u) es)) (sget u g)) /\
  (forall v, sget v (snd gd) =
     option_map (fun k => k + Z.of_nat (length (filter (fun e => str_eqb (to e) v) es)))%Z
       (sget v d)) /\
  (forall x, In x (map fst (snd gd)) <-> In x (map fst d)) /\
  (NoDup (map fst d) -> NoDup (map fst (snd gd))).
Proof.
  induction es as [|e es IH]; intros g d Hes Hd.
  - simpl. split; [|split; [|split; [tauto|auto]]].
    + intros u; destruct (sget u g); simpl; rewrite ?app_nil_r; reflexivity.
    + intros v; destruct (sget v d); simpl; rewrite ?Z.add_0_r; reflexivity.
  - destruct (Hes e (or_introl eq_refl)) as [Hf Ht].
    assert (Hfs : shas (from e) g = true) by (apply shas_sget, sget_keys, Hf).
    assert (Hts : shas (to e) g = true) by (apply shas_sget, sget_keys, Ht).
    destruct (sget (to e) d) as [k|] eqn:Ek; [|exfalso; exact (Hd _ Ht Ek)].
    destruct (sget (from e) g) as [l|] eqn:El; [|exfalso; apply sget_keys in Hf; exact (Hf El)].
    cbn [fold_left topo_add_edge]. rewrite Hfs, Hts. cbn [andb]. rewrite Ek.
    unfold get_list; rewrite El.
    destruct (IH (sset (from e) (l ++ [to e]) g) (sset (to e) (k + 1)%Z d)) as (Hg & Hd' & Hk & Hn).
    + intros e' He'. destruct (Hes e' (or_intror He')) as [A B].
      split; apply keys_sset; right; assumption.
    + intros x Hx. apply keys_sset in Hx as [->|Hx].
      * rewrite sget_sset. destruct (str_eqb (from e) (to e)); [discriminate|].
        exact (Hd _ Hf).
      * rewrite sget_sset. destruct (str_eqb x (to e)); [discriminate|exact (Hd x Hx)].
    + split; [|split; [|split]].
      * intros u. rewrite Hg, sget_sset. cbn [filter].
        destruct (str_eqb_spec u (from e)) as [->|Hne].
        -- rewrite str_eqb_refl, El. simpl. rewrite <- app_assoc. reflexivity.
        -- rewrite (str_eqb_neq (from e) u) by congruence. reflexivity.
      * intros v. rewrite Hd', sget_sset. cbn [filter].
        destruct (str_eqb_spec v (to e)) as [->|Hne].
        -- rewrite str_eqb_refl, Ek. simpl. f_equal. lia.
        -- rewrite (str_eqb_neq (to e) v) by congruence. reflexivity.
      * intros x. rewrite Hk, keys_sset. split; [intros [->|Hx]; [apply sget_keys; rewrite Ek; discriminate|exact Hx]|].
        intros Hx; right; exact Hx.
      * intros Hnd; apply Hn, NoDup_keys_sset, Hnd.
Qed.

Lemma pending_in_nil edges v :
  pending_in edges [] v = length (filter (fun e => str_eqb (to e) v) edges).
Proof.
  unfold pending_in; f_equal; apply filter_ext; intros e; simpl; apply andb_true_r.
Qed.

Lemma topo_graph_spec {N} `{Identified N} (nodes : list N) (edges : list Edge) :
  (forall e, In e edges -> In (from e) (map id nodes) /\ In (to e) (map id nodes)) ->
  (forall u, In u (map id nodes) ->
     get_list u (fst (topo_graph nodes edges)) = map to (filter (fun e => str_eqb (from e) u) edges)) /\
  (forall v, In v (map id nodes) ->
     sget v (snd (topo_graph nodes edges)) = Some (Z.of_nat (pending_in edges [] v))) /\
  NoDup (map fst (snd (topo_graph nodes edges))) /\
  (forall x, In x (map fst (snd (topo_graph nodes edges))) <-> In x (map id nodes)).
Proof.
  intros Hover. unfold topo_graph.
  pose proof (topo_init_fold nodes [] []) as Hi.
  change (fold_left _ nodes _) with (topo_init nodes) in Hi.
  destruct (topo_init nodes) as [g0 d0]. cbn [fst snd] in Hi.
  destruct Hi as (Ig & Id & Ik & Ind).
  assert (Hin : forall u, In u (map id nodes) -> JSSet.has u (map id nodes) = true)
    by (intros u Hu; apply JSSet_has_In; exact Hu).
  assert (Hkg : forall x, In x (map id nodes) -> In x (map fst g0)).
  { intros x Hx. apply sget_keys. rewrite Ig, (Hin x Hx). discriminate. }
  destruct (topo_edges_fold edges g0 d0) as (Hg & Hd & Hk & Hn).
  - intros e He. destruct (Hover e He); split; apply Hkg; assumption.
  - intros x Hx. apply sget_keys in Hx. rewrite Ig in Hx.
    destruct (JSSet.has x (map id nodes)) eqn:Ex; [|contradiction].
    rewrite Id, Ex. discriminate.
  - split; [|split; [|split]].
    + intros u Hu. unfold get_list. rewrite Hg, Ig, (Hin u Hu). reflexivity.
    + intros v Hv. rewrite Hd, Id, (Hin v Hv), pending_in_nil. reflexivity.
    + apply Hn, Ind. constructor.
    + intros x. rewrite Hk, Ik. simpl. tauto.
Qed.

Lemma occ_nil v : occ v [] = 0.
Proof. reflexivity. Qed.

Lemma occ_cons v t ts : occ v (t :: ts) = (if str_eqb v t then 1 else 0) + occ v ts.
Proof. unfold occ; simpl; destruct (str_eqb v t); reflexivity. Qed.

Lemma topo_visit_fold (V ts : list string) : forall d q (k : string -> nat),
  incl ts V ->
  (forall v, In v V -> sget v d = Some (Z.of_nat (k v))) ->
  (forall v, In v V -> occ v ts <= k v) ->
  exists pushed d', fold_left topo_visit ts (d, q) = (d', q ++ pushed) /\ NoDup pushed /\
    (forall v, In v V -> sget v d' = Some (Z.of_nat (k v - occ v ts))) /\
    (forall v, In v pushed <-> In v V /\ 0 < occ v ts /\ k v = occ v ts).
Proof.
  induction ts as [|t ts IH]; intros d q k Hincl Hd Hk.
  - exists [], d. split; [simpl; rewrite app_nil_r; reflexivity|split; [constructor|split]].
    + intros v Hv; rewrite occ_nil, Nat.sub_0_r; exact (Hd v Hv).
    + intros v; rewrite occ_nil; split; [intros []|lia].
  - assert (HtV : In t V) by (apply Hincl; left; reflexivity).
    assert (Hkt : S (occ t ts) <= k t)
      by (pose proof (Hk t HtV) as Ht; rewrite occ_cons, str_eqb_refl in Ht; exact Ht).
    set (k1 := fun v => if str_eqb v t then k t - 1 else k v).
    destruct (IH (sset t (Z.of_nat (k t) - 1)%Z d)
                 (if Z.eqb (Z.of_nat (k t) - 1) 0 then q ++ [t] else q) k1)
      as (pushed & d' & Hf & Hnd & Hd' & Hp).
    + intros x Hx; apply Hincl; right; exact Hx.
    + intros v Hv. rewrite sget_sset. unfold k1.
      destruct (str_eqb_spec v t) as [->|Hne]; [f_equal; lia|exact (Hd v Hv)].
    + intros v Hv. unfold k1. pose proof (Hk v Hv) as Hkv. rewrite occ_cons in Hkv.
      destruct (str_eqb_spec v t) as [->|Hne]; lia.
    + cbn [fold_left]. unfold topo_visit at 2. rewrite (Hd t HtV).
      destruct (Z.eqb_spec (Z.of_nat (k t) - 1) 0) as [Hz|Hz].
      * exists (t :: pushed), d'. split; [rewrite Hf, <- app_assoc; reflexivity|split; [|split]].
        -- constructor; [|exact Hnd].
           intros Ht. apply Hp in Ht as (_ & Hpos & Heq). unfold k1 in Heq.
           rewrite str_eqb_refl in Heq. lia.
        -- intros v Hv. rewrite (Hd' v Hv). unfold k1. rewrite occ_cons.
           destruct (str_eqb_spec v t) as [->|Hne]; f_equal; f_equal; lia.
        -- intros v. simpl In. rewrite Hp, occ_cons. unfold k1.
           destruct (str_eqb_spec v t) as [->|Hne].
           ++ split; [intros _; repeat split; [exact HtV|lia|lia]|intros _; left; reflexivity].
           ++ split; [intros [E|H]; [congruence|exact H]|intros H; right; exact H].
      * exists pushed, d'. split; [exact Hf|split; [exact Hnd|split]].
        -- intros v Hv. rewrite (Hd' v Hv). unfold k1. rewrite occ_cons.
           destruct (str_eqb_spec v t) as [->|Hne]; f_equal; f_equal; lia.
        -- intros v. rewrite Hp, occ_cons. unfold k1.
           destruct (str_eqb_spec v t) as [->|Hne]; [|reflexivity].
           split; intros (A & B & C); repeat split; auto; lia.
Qed.

Lemma str_eqb_sym a b : str_eqb a b = str_eqb b a.
Proof. destruct (str_eqb_spec a b), (str_eqb_spec b a); congruence. Qed.

Lemma pending_in_step edges S u v : ~ In u S ->
  pending_in edges S v =
  pending_in edges (S ++ [u]) v + occ v (map to (filter (fun e => str_eqb (from e) u) edges)).
Proof.
  intros Hu. unfold pending_in, occ. induction edges as [|e es IH]; [reflexivity|].
  cbn [filter map]. rewrite JSSet_has_app.
  change (JSSet.has (from e) [u]) with (str_eqb (from e) u || false). rewrite orb_false_r.
  destruct (str_eqb_spec (from e) u) as [Heq|Hne].
  - assert (Hs : JSSet.has (from e) S = false).
    { destruct (JSSet.has (from e) S) eqn:E; [|reflexivity].
      apply JSSet_has_In in E; rewrite Heq in E; contradiction. }
    rewrite Hs. cbn [orb negb]. rewrite andb_false_r. cbn [filter map].
    rewrite (str_eqb_sym v (to e)).
    destruct (str_eqb (to e) v); cbn [andb negb length]; rewrite IH; lia.
  - rewrite orb_false_r. destruct (str_eqb (to e) v && negb (JSSet.has (from e) S));
      cbn [length]; rewrite IH; lia.
Qed.

Lemma NoDup_app_disj (l1 l2 : list string) :
  NoDup l1 -> NoDup l2 -> (forall x, In x l1 -> ~ In x l2) -> NoDup (l1 ++ l2).
Proof.
  induction l1 as [|a l1 IH]; simpl; intros H1 H2 Hd; [exact H2|].
  inversion H1 as [|? ? Ha H1']; subst. constructor.
  - intros Hin. apply in_app_or in Hin as [Hin|Hin]; [contradiction|].
    exact (Hd a (or_introl eq_refl) Hin).
  - apply IH; auto.
Qed.

Lemma pending_zero edges S v e :
  pending_in edges S v = 0 -> In e edges -> to e = v -> In (from e) S.
Proof.
  unfold pending_in; intros H0 He Hv. apply length_zero_iff_nil in H0.
  destruct (JSSet.has (from e) S) eqn:E; [apply JSSet_has_In; exact E|].
  assert (Hin : In e (filter (fun e => str_eqb (to e) v && negb (JSSet.has (from e) S)) edges)).
  { apply filter_In; split; [exact He|]. rewrite Hv, str_eqb_refl, E; reflexivity. }
  rewrite H0 in Hin; contradiction.
Qed.

Lemma pending_pos edges S v :
  pending_in edges S v <> 0 -> exists e, In e edges /\ to e = v /\ ~ In (from e) S.
Proof.
  unfold pending_in; intros Hn.
  destruct (filter (fun e => str_eqb (to e) v && negb (JSSet.has (from e) S)) edges) as [|e l] eqn:E;
    [contradiction (Hn eq_refl)|].
  assert (He : In e (e :: l)) by (left; reflexivity). rewrite <- E in He.
  apply filter_In in He as [He Hp]. apply andb_true_iff in Hp as [Ht Hs].
  exists e; split; [exact He|split].
  - destruct (str_eqb_spec (to e) v); [assumption|discriminate].
  - intros Hin. apply JSSet_has_In in Hin. rewrite Hin in Hs. discriminate.
Qed.

Lemma kahn_step (V : list string) edges u q sorted d :
  (forall e, In e edges -> In (from e) V /\ In (to e) V) ->
  kahn_inv V edges (u :: q) sorted d ->
  exists pushed d',
    fold_left topo_visit (map to (filter (fun e => str_eqb (from e) u) edges)) (d, q) = (d', q ++ pushed) /\
    kahn_inv V edges (q ++ pushed) (sorted ++ [u]) d'.
Proof.
  intros Hover (Hnd & Hincl & Hdeg & Hzero & Hbef).
  assert (Hu : ~ In u sorted).
  { intros Hin. apply NoDup_remove_2 in Hnd. apply Hnd, in_or_app; left; exact Hin. }
  set (ts := map to (filter (fun e => str_eqb (from e) u) edges)).
  pose proof (fun v => pending_in_step edges sorted u v Hu) as Hstep. fold ts in Hstep.
  destruct (topo_visit_fold V ts d q (pending_in edges sorted)) as (pushed & d' & Hf & Hpnd & Hd' & Hp).
  - intros x Hx. unfold ts in Hx. apply in_map_iff in Hx as (e & <- & He).
    apply filter_In in He as [He _]. exact (proj2 (Hover e He)).
  - exact Hdeg.
  - intros v _. rewrite (Hstep v). lia.
  - exists pushed, d'. split; [exact Hf|].
    assert (HO : (sorted ++ [u]) ++ q ++ pushed = (sorted ++ u :: q) ++ pushed)
      by (rewrite <- !app_assoc; reflexivity).
    unfold kahn_inv; rewrite HO. split; [|split; [|split; [|split]]].
    + apply NoDup_app_disj; [exact Hnd|exact Hpnd|].
      intros x Hx Hx'. apply Hp in Hx' as (HxV & Hpos & Heq).
      apply (Hzero x HxV) in Hx. lia.
    + apply incl_app; [exact Hincl|]. intros x Hx; exact (proj1 (proj1 (Hp x) Hx)).
    + intros v Hv. rewrite (Hd' v Hv), (Hstep v). f_equal; f_equal; lia.
    + intros v Hv. pose proof (Hstep v) as Hs. split.
      * intros Hin. apply in_app_or in Hin as [Hin|Hin].
        -- apply (Hzero v Hv) in Hin. lia.
        -- apply Hp in Hin as (_ & _ & Heq). lia.
      * intros H0. destruct (Nat.eq_dec (pending_in edges sorted v) 0) as [Hz|Hz].
        -- apply in_or_app; left; apply (Hzero v Hv); exact Hz.
        -- apply in_or_app; right; apply Hp. split; [exact Hv|lia].
    + intros e He Hin. apply in_app_or in Hin as [Hin|Hin].
      * destruct (Hbef e He Hin) as (l1 & l2 & E & H1 & H2).
        exists l1, (l2 ++ pushed). split; [rewrite E, app_assoc; reflexivity|split; [exact H1|]].
        apply in_or_app; left; exact H2.
      * exists (sorted ++ u :: q), pushed. split; [reflexivity|split; [|exact Hin]].
        apply Hp in Hin as (HtV & _ & Heq).
        assert (Hz : pending_in edges (sorted ++ [u]) (to e) = 0) by (rewrite (Hstep (to e)) in Heq; lia).
        pose proof (pending_zero _ _ _ e Hz He eq_refl) as Hf'.
        apply in_app_or in Hf' as [Hz'|[Hz'|[]]].
        -- apply in_or_app; left; exact Hz'.
        -- rewrite <- Hz'. apply in_or_app; right; left; reflexivity.
Qed.

Lemma kahn_loop_spec (V : list string) edges (graph : JSMap.t (K := string) (V := list string)) :
  (forall e, In e edges -> In (from e) V /\ In (to e) V) ->
  (forall u, In u V -> get_list u graph = map to (filter (fun e => str_eqb (from e) u) edges)) ->
  forall fuel q sorted d, kahn_inv V edges q sorted d -> length V < length sorted + fuel ->
  exists res d', kahn_loop graph fuel q sorted d = Some res /\ kahn_inv V edges [] res d'.
Proof.
  intros Hover Hadj. induction fuel as [|f IH]; intros q sorted d Hinv Hlen.
  - exfalso. destruct Hinv as (Hnd & Hincl & _).
    assert (Hs : NoDup sorted) by exact (NoDup_app_remove_r _ _ Hnd).
    pose proof (NoDup_incl_length Hs (fun x Hx => Hincl x (in_or_app _ _ _ (or_introl Hx)))).
    lia.
  - destruct q as [|u q].
    + exists sorted, d. split; [reflexivity|exact Hinv].
    + assert (HuV : In u V) by (apply (proj1 (proj2 Hinv)), in_or_app; right; left; reflexivity).
      destruct (kahn_step V edges u q sorted d Hover Hinv) as (pushed & d' & Hf & Hinv').
      cbn [kahn_loop]. rewrite (Hadj u HuV), Hf.
      apply IH; [exact Hinv'|rewrite length_app; simpl; lia].
Qed.

Lemma back_chain_tl edges x l : back_chain edges (x :: l) -> back_chain edges l.
Proof. destruct l as [|y l]; simpl; [auto|intros [_ H]; exact H]. Qed.

Lemma back_chain_app_r edges l1 l2 : back_chain edges (l1 ++ l2) -> back_chain edges l2.
Proof. induction l1 as [|a l1 IH]; simpl; [auto|intros H; apply IH, (back_chain_tl _ a), H]. Qed.

Lemma back_chain_path edges y t : forall m x,
  back_chain edges (x :: m ++ y :: t) -> edge_path edges y x.
Proof.
  induction m as [|z m IH]; simpl; intros x [Hp Hc]; [exact Hp|].
  exact (ep_trans _ _ _ _ (IH z Hc) Hp).
Qed.

Lemma back_chain_build edges (V : list string) (P : string -> Prop) :
  (forall v, In v V -> P v -> exists w, In w V /\ P w /\ edge_path edges w v) ->
  forall n v, In v V -> P v ->
  exists t, length t = n /\ incl (v :: t) V /\ back_chain edges (v :: t).
Proof.
  intros Hstep. induction n as [|n IH]; intros v Hv HP.
  - exists []. split; [reflexivity|split; [intros x [<-|[]]; exact Hv|exact I]].
  - destruct (Hstep v Hv HP) as (w & Hw & HPw & Hp).
    destruct (IH w Hw HPw) as (t & Ht & Hi & Hc).
    exists (w :: t). split; [simpl; congruence|split; [|split; [exact Hp|exact Hc]]].
    intros x [<-|Hx]; [exact Hv|exact (Hi x Hx)].
Qed.

Lemma cycle_of_predecessors edges (V : list string) (P : string -> Prop) v :
  (forall v, In v V -> P v -> exists w, In w V /\ P w /\ edge_path edges w v) ->
  In v V -> P v -> exists x, edge_path edges x x.
Proof.
  intros Hstep Hv HP.
  destruct (back_chain_build edges V P Hstep (length V) v Hv HP) as (t & Ht & Hi & Hc).
  assert (Hn : ~ NoDup (v :: t)).
  { intros Hnd. pose proof (NoDup_incl_length Hnd Hi) as Hl. simpl in Hl. lia. }
  destruct (not_NoDup (fun x y : string => match string_dec x y with
                                           | left h => or_introl h | right h => or_intror h end) Hn)
    as (a & l1 & l2 & l3 & E).
  rewrite E in Hc. apply back_chain_app_r in Hc.
  exists a. exact (back_chain_path edges a l3 l2 a Hc).
Qed.

Lemma before_rev x y l : before x y l -> before y x (rev l).
Proof.
  intros (l1 & l2 & -> & H1 & H2). exists (rev l2), (rev l1).
  split; [apply rev_app_distr|split; apply in_rev; rewrite rev_involutive; assumption].
Qed.

Lemma before_nth x y l : before x y l ->
  exists i j, i < j /\ nth_error l i = Some x /\ nth_error l j = Some y.
Proof.
  intros (l1 & l2 & -> & H1 & H2).
  destruct (In_nth_error l1 x H1) as [i Hi]. destruct (In_nth_error l2 y H2) as [j Hj].
  assert (Hil : i < length l1) by (apply nth_error_Some; rewrite Hi; discriminate).
  exists i, (length l1 + j). split; [lia|split].
  - rewrite nth_error_app1 by exact Hil. exact Hi.
  - rewrite nth_error_app2 by lia. replace (length l1 + j - length l1) with j by lia. exact Hj.
Qed.

Lemma edge_path_rank edges (rank : string -> nat) :
  (forall e, In e edges -> rank (to e) < rank (from e)) ->
  forall a b, edge_path edges a b -> rank b < rank a.
Proof. intros Hr a b Hp; induction Hp as [e He|a b c _ IH1 _ IH2]; [exact (Hr e He)|lia]. Qed.

Lemma acyclic_ranked edges (rank : string -> nat) :
  (forall e, In e edges -> rank (to e) < rank (from e)) -> acyclic edges.
Proof. intros Hr x Hx. pose proof (edge_path_rank edges rank Hr x x Hx). lia. Qed.

(** What [topologicalSort] returns on distinct ids and an acyclic edge
    list over them: every id once, the target of each edge before its
    source. *)
Lemma topologicalSort_spec {N} `{Identified N} (nodes : list N) (edges : list Edge) :
  NoDup (map id nodes) ->
  (forall e, In e edges -> In (from e) (map id nodes) /\ In (to e) (map id nodes)) ->
  acyclic edges ->
  exists out, topologicalSort nodes edges = Some out /\ NoDup out /\
    (forall x, In x out <-> In x (map id nodes)) /\
    (forall e, In e edges -> before (to e) (from e) out).
Proof.
  intros Hnd Hover Hacy.
  destruct (topo_graph_spec nodes edges Hover) as (Hadj & Hdeg & Hkeys & Hk).
  unfold topologicalSort. destruct (topo_graph nodes edges) as [g d]. cbn [fst snd] in *.
  set (V := map id nodes) in *.
  assert (Hinit : kahn_inv V edges (initial_queue d) [] d).
  { unfold initial_queue. split; [|split; [|split; [|split]]]; cbn [app].
    - apply NoDup_map_filter, Hkeys.
    - intros x Hx. apply in_map_iff in Hx as ([k z] & <- & Hx).
      apply filter_In in Hx as [Hx _]. apply (in_map fst) in Hx. apply Hk; exact Hx.
    - exact Hdeg.
    - intros v Hv. split.
      + intros Hx. apply in_map_iff in Hx as ([k z] & Hkv & Hx). cbn [fst] in Hkv; subst k.
        apply filter_In in Hx as [Hx Hz]. cbn [snd] in Hz. apply Z.eqb_eq in Hz; subst z.
        pose proof (In_sget v 0%Z d Hkeys Hx) as E. rewrite (Hdeg v Hv) in E.
        injection E; lia.
      + intros H0. apply (in_map fst (filter _ d) (v, 0%Z)), filter_In. split; [|reflexivity].
        apply sget_In. rewrite (Hdeg v Hv), H0. reflexivity.
    - intros e He Hin. exfalso.
      assert (Hz : pending_in edges [] (to e) = 0).
      { apply in_map_iff in Hin as ([k z] & Hkv & Hx). cbn [fst] in Hkv; subst k.
        apply filter_In in Hx as [Hx Hz]. cbn [snd] in Hz. apply Z.eqb_eq in Hz; subst z.
        pose proof (In_sget (to e) 0%Z d Hkeys Hx) as E.
        rewrite (Hdeg (to e) (proj2 (Hover e He))) in E. injection E; lia. }
      exact (pending_zero edges [] (to e) e Hz He eq_refl). }
  destruct (kahn_loop_spec V edges g Hover Hadj (S (length nodes)) _ [] d Hinit)
    as (res & d' & Hl & Hinv); [unfold V; rewrite length_map; simpl; lia|].
  rewrite Hl. cbn [option_map]. exists (rev res).
  destruct Hinv as (Hnd' & Hincl & _ & Hzero & Hbef). rewrite app_nil_r in Hnd', Hincl.
  assert (Hall : forall x, In x V -> In x res).
  { intros x Hx. destruct (in_dec string_dec x res) as [Hin|Hin]; [exact Hin|exfalso].
    destruct (cycle_of_predecessors edges V (fun v => ~ In v res) x) as [y Hy];
      [|exact Hx|exact Hin|exact (Hacy y Hy)].
    intros v Hv Hnv.
    assert (Hp : pending_in edges res v <> 0)
      by (intros H0; apply Hnv; rewrite <- (app_nil_r res); apply (Hzero v Hv); exact H0).
    destruct (pending_pos edges res v Hp) as (e & He & Hte & Hfe).
    exists (from e). split; [exact (proj1 (Hover e He))|split; [exact Hfe|]].
    rewrite <- Hte. apply ep_edge; exact He. }
  split; [reflexivity|split; [apply NoDup_rev; exact Hnd'|split]].
  - intros x. rewrite <- in_rev. split; [apply Hincl|apply Hall].
  - intros e He. apply before_rev. rewrite <- (app_nil_r res). apply (Hbef e He).
    rewrite app_nil_r. apply Hall, (Hover e He).
Qed.

Lemma two_nodes_acyclic : acyclic [mkEdge "B" "A"].
Proof.
  apply (acyclic_ranked _ (fun s => if str_eqb s "B" then 1 else 0)).
  intros e [<-|[]]. simpl. lia.
Qed.

(** C1 fails as stated: with nodes A, B and the single edge (B, A) (B's
    parent is A), [topologicalSort] returns [A; B], so the child B comes
    after its parent A. *)
Lemma topologicalSort_parent_before_child :
  ~ (forall (nodes : list PlainNode) (edges : list Edge) (out : list string),
       NoDup (map id nodes) ->
       (forall e, In e edges -> In (from e) (map id nodes) /\ In (to e) (map id nodes)) ->
       acyclic edges ->
       topologicalSort nodes edges = Some out ->
       forall e, In e edges -> exists i j,
         nth_error out i = Some (from e) /\ nth_error out j = Some (to e) /\ i <= j).
Proof.
  intros Hc.
  assert (H1 : NoDup (map id [node "A"; node "B"])).
  { vm_compute. constructor; [intros [H|[]]; discriminate H|constructor; [intros []|constructor]]. }
  assert (H2 : forall e, In e [mkEdge "B" "A"] ->
                 In (from e) (map id [node "A"; node "B"]) /\ In (to e) (map id [node "A"; node "B"])).
  { intros e [<-|[]]. vm_compute. split; [right; left|left]; reflexivity. }
  assert (H3 : topologicalSort [node "A"; node "B"] [mkEdge "B" "A"] = Some ["A"; "B"])
    by (vm_compute; reflexivity).
  destruct (Hc _ _ _ H1 H2 two_nodes_acyclic H3 (mkEdge "B" "A") (or_introl eq_refl))
    as (i & j & Hi & Hj & Hle).
  destruct i as [|[|i]], j as [|[|j]]; cbn in Hi, Hj;
    try discriminate Hi; try discriminate Hj; try lia.
  all: destruct j; discriminate Hj.
Qed.

(** C1 as the code does it: on distinct ids and an acyclic edge list over
    them, [topologicalSort] lists every id exactly once and puts the parent
    [to] of every edge at a strictly lower index than the child [from]:
    ancestors first, newest commits last. *)
Theorem topologicalSort_parents_first {N} `{Identified N} (nodes : list N) (edges : list Edge) :
  NoDup (map id nodes) ->
  (forall e, In e edges -> In (from e) (map id nodes) /\ In (to e) (map id nodes)) ->
  acyclic edges ->
  exists out, topologicalSort nodes edges = Some out /\ Permutation out (map id nodes) /\
    forall e, In e edges -> exists i j, i < j /\
      nth_error out i = Some (to e) /\ nth_error out j = Some (from e).
Proof.
  intros Hnd Hover Hacy.
  destruct (topologicalSort_spec nodes edges Hnd Hover Hacy) as (out & Ht & Hnd' & Hin & Hbef).
  exists out. split; [exact Ht|split].
  - apply NoDup_Permutation; [exact Hnd'|exact Hnd|exact Hin].
  - intros e He. exact (before_nth _ _ _ (Hbef e He)).
Qed.

Lemma topologicalSort_parents_first_witness :
  exists out, topologicalSort [node "A"; node "B"; node "C"] [mkEdge "B" "A"; mkEdge "C" "B"] = Some out /\
    Permutation out (map id [node "A"; node "B"; node "C"]) /\
    forall e, In e [mkEdge "B" "A"; mkEdge "C" "B"] -> exists i j, i < j /\
      nth_error out i = Some (to e) /\ nth_error out j = Some (from e).
Proof.
  apply (topologicalSort_parents_first [node "A"; node "B"; node "C"] [mkEdge "B" "A"; mkEdge "C" "B"]).
  - vm_compute.
    repeat (constructor; [simpl; intuition discriminate|]).
    constructor.
  - intros e He. repeat destruct He as [<-|He]; [vm_compute; tauto|vm_compute; tauto|destruct He].
  - apply (acyclic_ranked _ (fun s => if str_eqb s "C" then 2 else if str_eqb s "B" then 1 else 0)).
    intros e He. repeat destruct He as [<-|He]; [simpl; lia|simpl; lia|destruct He].
Defined.

(** ** calculateLayout *)

Lemma sget_app {V} (k : string) (m1 m2 : JSMap.t (K := string) (V := V)) :
  sget k (m1 ++ m2) = match sget k m1 with Some v => Some v | None => sget k m2 end.
Proof.
  unfold sget; induction m1 as [|[k0 v0] m1 IH]; simpl; [reflexivity|].
  destruct (str_eqb k k0); [reflexivity|exact IH].
Qed.

Lemma sset_new {V} (k : string) (v : V) m : sget k m = None -> sset k v m = m ++ [(k, v)].
Proof.
  unfold sget, sset; induction m as [|[k0 v0] m IH]; simpl; [reflexivity|].
  destruct (str_eqb k k0); [discriminate|intros Hk; rewrite (IH Hk); reflexivity].
Qed.

Lemma nget_app {V} (l : nat) (m1 m2 : JSMap.t (K := nat) (V := V)) :
  nget l (m1 ++ m2) = match nget l m1 with Some v => Some v | None => nget l m2 end.
Proof.
  unfold nget; induction m1 as [|[k0 v0] m1 IH]; simpl; [reflexivity|].
  destruct (Nat.eqb l k0); [reflexivity|exact IH].
Qed.

Lemma nset_new {V} (l : nat) (v : V) m : nget l m = None -> nset l v m = m ++ [(l, v)].
Proof.
  unfold nget, nset; induction m as [|[k0 v0] m IH]; simpl; [reflexivity|].
  destruct (Nat.eqb l k0); [discriminate|intros Hk; rewrite (IH Hk); reflexivity].
Qed.

Lemma nget_nset {V} (l l' : nat) (v : V) m :
  nget l (nset l' v m) = if Nat.eqb l l' then Some v else nget l m.
Proof.
  unfold nget, nset; induction m as [|[k0 v0] m IH]; simpl.
  - destruct (Nat.eqb l l'); reflexivity.
  - destruct (Nat.eqb_spec l' k0) as [->|Hne]; simpl.
    + destruct (Nat.eqb l k0); reflexivity.
    + rewrite IH. destruct (Nat.eqb_spec l l'), (Nat.eqb_spec l k0); subst; try reflexivity.
      congruence.
Qed.

Lemma NoDup_map_inj {A B} (f : A -> B) (l : list A) a b :
  NoDup (map f l) -> In a l -> In b l -> f a = f b -> a = b.
Proof.
  induction l as [|x l IH]; simpl; [contradiction|].
  intros Hnd Ha Hb E; inversion Hnd as [|? ? Hn Hnd']; subst.
  destruct Ha as [<-|Ha], Hb as [<-|Hb]; auto.
  - exfalso; apply Hn; rewrite E; apply in_map; exact Hb.
  - exfalso; apply Hn; rewrite <- E; apply in_map; exact Ha.
Qed.

Lemma nodemap_init {N} `{Identified N} (ns : list N) (m : JSMap.t (K := string) (V := N)) :
  NoDup (map id ns) -> (forall n, In n ns -> sget (id n) m = None) ->
  fold_left (fun m n => sset (id n) n m) ns m = m ++ map (fun n => (id n, n)) ns.
Proof.
  revert m; induction ns as [|n ns IH]; intros m Hnd Hm; simpl; [rewrite app_nil_r; reflexivity|].
  inversion Hnd as [|? ? Hn Hnd']; subst.
  rewrite (sset_new _ _ _ (Hm n (or_introl eq_refl))).
  rewrite IH; [rewrite <- app_assoc; reflexivity|exact Hnd'|].
  intros n' Hn'. rewrite sget_app, (Hm n' (or_intror Hn')).
  unfold sget; simpl. rewrite str_eqb_neq; [reflexivity|].
  intros E; apply Hn; rewrite <- E; apply in_map; exact Hn'.
Qed.

Lemma assign_fold (n : nat) (P : list (nat * string)) (m : JSMap.t (K := string) (V := nat)) :
  NoDup (map snd P) -> (forall p, In p P -> sget (snd p) m = None) ->
  fold_left (fun m '(index, nodeId) => sset nodeId (n - index - 1) m) P m
  = m ++ map (fun p => (snd p, n - fst p - 1)) P.
Proof.
  revert m; induction P as [|[i k] P IH]; intros m Hnd Hm; simpl; [rewrite app_nil_r; reflexivity|].
  inversion Hnd as [|? ? Hn Hnd']; subst.
  rewrite (sset_new _ _ _ (Hm (i, k) (or_introl eq_refl))).
  rewrite IH; [rewrite <- app_assoc; reflexivity|exact Hnd'|].
  intros p Hp. rewrite sget_app, (Hm p (or_intror Hp)).
  unfold sget; simpl. rewrite str_eqb_neq; [reflexivity|].
  intros E; apply Hn; rewrite <- E; apply in_map; exact Hp.
Qed.

Lemma combine_seq_snd {A} (l : list A) s : map snd (combine (seq s (length l)) l) = l.
Proof. revert s; induction l as [|a l IH]; intros s; simpl; [reflexivity|rewrite IH; reflexivity]. Qed.

Lemma combine_seq_fst {A} (l : list A) s : map fst (combine (seq s (length l)) l) = seq s (length l).
Proof. revert s; induction l as [|a l IH]; intros s; simpl; [reflexivity|rewrite IH; reflexivity]. Qed.

Lemma In_combine_seq {A} (l : list A) s i k :
  In (i, k) (combine (seq s (length l)) l) ->
  s <= i < s + length l /\ nth_error l (i - s) = Some k.
Proof.
  revert s; induction l as [|a l IH]; intros s; simpl; [contradiction|].
  intros [[= -> ->]|Hin].
  - rewrite Nat.sub_diag; split; [lia|reflexivity].
  - destruct (IH (S s) Hin) as [Hr Hn]. split; [lia|].
    replace (i - s) with (S (i - S s)) by lia. exact Hn.
Qed.

Lemma assign_layers_eq (sorted : list string) :
  NoDup sorted ->
  assign_layers sorted = map (fun p => (snd p, length sorted - fst p - 1))
                           (combine (seq 0 (length sorted)) sorted).
Proof.
  intros Hnd. unfold assign_layers. rewrite assign_fold; [reflexivity| |intros; reflexivity].
  rewrite combine_seq_snd; exact Hnd.
Qed.

Lemma count_fold (L : list (string * nat)) (m : JSMap.t (K := nat) (V := nat)) :
  NoDup (map snd L) -> (forall p, In p L -> nget (snd p) m = None) ->
  fold_left (fun m '(_, layer) =>
               nset layer (match nget layer m with Some c => c | None => 0 end + 1) m) L m
  = m ++ map (fun p => (snd p, 1)) L.
Proof.
  revert m; induction L as [|[k l] L IH]; intros m Hnd Hm; simpl; [rewrite app_nil_r; reflexivity|].
  inversion Hnd as [|? ? Hn Hnd']; subst.
  pose proof (Hm (k, l) (or_introl eq_refl)) as Hl; cbn [snd] in Hl.
  rewrite Hl, (nset_new _ _ _ Hl).
  rewrite IH; [rewrite <- app_assoc; reflexivity|exact Hnd'|].
  intros p Hp. rewrite nget_app, (Hm p (or_intror Hp)).
  unfold nget; simpl. destruct (Nat.eqb_spec (snd p) l) as [E|]; [|reflexivity].
  exfalso; apply Hn; rewrite <- E; apply in_map; exact Hp.
Qed.

Lemma nget_ones (L : list (string * nat)) l :
  In l (map snd L) -> nget l (map (fun p => (snd p, 1)) L) = Some 1.
Proof.
  unfold nget; induction L as [|p L IH]; simpl; [contradiction|].
  intros Hl. destruct (Nat.eqb_spec l (snd p)); [reflexivity|].
  destruct Hl as [E|Hl]; [congruence|exact (IH Hl)].
Qed.

Lemma sset_map_nodes {N} `{Identified N} (nodes : list N) (f : N -> N) (nk v : N) :
  NoDup (map id nodes) -> In nk nodes ->
  sset (id nk) v (map (fun n => (id n, f n)) nodes) =
  map (fun n => (id n, if str_eqb (id n) (id nk) then v else f n)) nodes.
Proof.
  unfold sset; induction nodes as [|n0 ns IH]; simpl; [contradiction|].
  intros Hnd Hin; inversion Hnd as [|? ? Hn Hnd']; subst.
  destruct (str_eqb_spec (id nk) (id n0)) as [E|Hne].
  - rewrite E, str_eqb_refl. f_equal. apply map_ext_in. intros n Hn'.
    rewrite str_eqb_neq; [reflexivity|]. intros E'; apply Hn; rewrite <- E'; apply in_map; exact Hn'.
  - rewrite (str_eqb_neq (id n0) (id nk)) by congruence. f_equal.
    destruct Hin as [<-|Hin]; [congruence|exact (IH Hnd' Hin)].
Qed.

Lemma nhas_nget {V} (l : nat) (m : JSMap.t (K := nat) (V := V)) :
  nhas l m = match nget l m with Some _ => true | None => false end.
Proof. reflexivity. Qed.

Section PlaceFold.
Context {N : Type} `{Identified N} `{Positioned N}.
Variables (w h hg vg : Q) (counts : JSMap.t (K := nat) (V := nat)) (nodes : list N).
Hypothesis Hnd : NoDup (map id nodes).

Lemma place_fold (L : list (string * nat)) :
  NoDup (map fst L) -> NoDup (map snd L) -> incl (map fst L) (map id nodes) ->
  (forall l, In l (map snd L) -> nget l counts = Some 1) ->
  forall (lp : JSMap.t (K := nat) (V := nat)) (f : N -> N),
  (forall l, In l (map snd L) -> nget l lp = None) ->
  (forall n, In n nodes -> In (id n) (map fst L) -> f n = n) ->
  exists lp', fold_left (place w h hg vg counts) L (lp, map (fun n => (id n, f n)) nodes) =
    (lp', map (fun n => (id n, match sget (id n) L with
        | Some l => set_xy n
            (- (inject_Z (Z.of_nat 1) * w + (inject_Z (Z.of_nat 1) - 1) * hg) / 2
             + inject_Z (Z.of_nat 0) * (w + hg) + w / 2)%Q
            (inject_Z (Z.of_nat l) * vg + h / 2)%Q
        | None => f n end)) nodes).
Proof.
  induction L as [|[k l] L IH]; intros Hfst Hsnd Hincl Hc lp f Hlp Hf.
  { exists lp. reflexivity. }
  cbn [map fst snd] in Hfst, Hsnd, Hincl, Hc, Hlp, Hf.
  inversion Hfst as [|? ? Hk Hfst']; subst. inversion Hsnd as [|? ? Hl Hsnd']; subst.
  destruct (proj1 (in_map_iff id nodes k) (Hincl k (or_introl eq_refl))) as (nk & <- & Hnk).
  assert (Hsk : sget (id nk) (map (fun n => (id n, f n)) nodes) = Some nk).
  { rewrite <- (Hf nk Hnk (or_introl eq_refl)) at 2. apply In_sget.
    - rewrite map_map; exact Hnd.
    - exact (in_map (fun n => (id n, f n)) nodes nk Hnk). }
  assert (Hstep : place w h hg vg counts (lp, map (fun n => (id n, f n)) nodes) (id nk, l) =
    (nset l (0 + 1) (nset l 0 lp),
     sset (id nk) (set_xy nk
        (- (inject_Z (Z.of_nat 1) * w + (inject_Z (Z.of_nat 1) - 1) * hg) / 2
         + inject_Z (Z.of_nat 0) * (w + hg) + w / 2)%Q
        (inject_Z (Z.of_nat l) * vg + h / 2)%Q) (map (fun n => (id n, f n)) nodes))).
  { unfold place. cbv beta iota zeta.
    rewrite nhas_nget, (Hlp l (or_introl eq_refl)). cbv beta iota.
    rewrite nget_nset, Nat.eqb_refl. cbv beta iota.
    rewrite Hsk, (Hc l (or_introl eq_refl)). reflexivity. }
  cbn [fold_left]. rewrite Hstep, (sset_map_nodes nodes f nk _ Hnd Hnk).
  assert (Hlp2 : forall l', In l' (map snd L) -> nget l' (nset l (0 + 1) (nset l 0 lp)) = None).
  { intros l' Hl'. rewrite !nget_nset.
    destruct (Nat.eqb_spec l' l) as [->|]; [contradiction|exact (Hlp l' (or_intror Hl'))]. }
  match goal with
  | |- exists _, fold_left _ _ (_, map (fun n => (id n, @?g n)) _) = _ =>
      assert (Hg : forall n, In n nodes -> In (id n) (map fst L) -> g n = n);
      [|destruct (IH Hfst' Hsnd' (fun x Hx => Hincl x (or_intror Hx))
                     (fun l' Hl' => Hc l' (or_intror Hl')) _ g Hlp2 Hg) as [lp' E]]
  end.
  { intros n Hn Hin. cbv beta. rewrite str_eqb_neq; [exact (Hf n Hn (or_intror Hin))|].
    intros E; apply Hk; rewrite <- E; exact Hin. }
  exists lp'. refine (eq_trans E _). f_equal. apply map_ext_in. intros n Hn. cbv beta.
    change (sget (id n) ((id nk, l) :: L)) with (if str_eqb (id n) (id nk) then Some l else sget (id n) L).
    destruct (str_eqb_spec (id n) (id nk)) as [E'|]; [|reflexivity].
    rewrite (NoDup_map_inj id nodes n nk Hnd Hn Hnk E') in *.
    destruct (sget (id nk) L) eqn:Eg; [|reflexivity].
    exfalso; apply Hk, sget_keys; congruence.
Qed.
End PlaceFold.

Lemma layer_x_zero (w hg : Q) :
  (- (inject_Z (Z.of_nat 1) * w + (inject_Z (Z.of_nat 1) - 1) * hg) / 2
   + inject_Z (Z.of_nat 0) * (w + hg) + w / 2 == 0)%Q.
Proof. simpl. field. Qed.

(** C9: for a nonempty node list with distinct ids and an acyclic edge list
    over them, [topologicalSort] succeeds with an order [sorted], and each node
    gets the layer [sorted.length - index - 1] of its position [index] in
    [sorted]. Distinct nodes get distinct layers, so every layer counts
    exactly one node. [calculateLayout] then returns the nodes in their input
    order, each with x equal to 0 (as a rational number: the centering formula
    [-(1 * nodeWidth + 0 * horizontalGap) / 2 + 0 * (nodeWidth + horizontalGap)
    + nodeWidth / 2]) and y equal to [layer * verticalGap + nodeHeight / 2]. *)
Theorem calculateLayout_one_node_per_layer {N} `{Identified N} `{Positioned N}
    (nodes : list N) (edges : list Edge) (options : LayoutOptions) :
  nodes <> [] -> NoDup (map id nodes) ->
  (forall e, In e edges -> In (from e) (map id nodes) /\ In (to e) (map id nodes)) ->
  acyclic edges ->
  exists sorted (layer : string -> nat) (x0 : Q),
    topologicalSort nodes edges = Some sorted /\
    (forall n, In n nodes -> layer (id n) < length sorted /\
       nth_error sorted (length sorted - S (layer (id n))) = Some (id n)) /\
    (forall a b, In a nodes -> In b nodes -> layer (id a) = layer (id b) -> a = b) /\
    (forall n, In n nodes -> nget (layer (id n)) (count_layers (assign_layers sorted)) = Some 1) /\
    (x0 == 0)%Q /\
    calculateLayout nodes edges options =
      Some (map (fun n => set_xy n x0
        (inject_Z (Z.of_nat (layer (id n))) * with_default (opt_verticalGap options) 100
         + with_default (opt_nodeHeight options) 60 / 2)%Q) nodes).
Proof.
  intros Hne Hnd Hover Hacy.
  destruct (topologicalSort_spec nodes edges Hnd Hover Hacy) as (sorted & Ht & Hnds & Hin & _).
  set (L := assign_layers sorted).
  assert (HL : L = map (fun p => (snd p, length sorted - fst p - 1))
                     (combine (seq 0 (length sorted)) sorted))
    by exact (assign_layers_eq sorted Hnds).
  assert (HLfst : map fst L = sorted) by (rewrite HL, map_map; exact (combine_seq_snd sorted 0)).
  assert (HLsnd : map snd L = map (fun i => length sorted - i - 1) (seq 0 (length sorted))).
  { transitivity (map (fun i => length sorted - i - 1) (map fst (combine (seq 0 (length sorted)) sorted))).
    - rewrite HL, !map_map. reflexivity.
    - rewrite combine_seq_fst. reflexivity. }
  assert (Hfst : NoDup (map fst L)) by (rewrite HLfst; exact Hnds).
  assert (Hsnd : NoDup (map snd L)).
  { rewrite HLsnd. apply NoDup_map_NoDup_ForallPairs; [|apply seq_NoDup].
    intros a b Ha Hb E. apply in_seq in Ha, Hb. lia. }
  assert (Hlay : forall nd, In nd nodes -> exists i, sget (id nd) L = Some (length sorted - i - 1) /\
            i < length sorted /\ nth_error sorted i = Some (id nd)).
  { intros nd Hn. assert (Hk : In (id nd) (map fst L)) by (rewrite HLfst; apply Hin, in_map, Hn).
    apply sget_keys in Hk. destruct (sget (id nd) L) as [v|] eqn:Ev; [|congruence].
    apply sget_In in Ev as Hv. rewrite HL in Hv. apply in_map_iff in Hv as ([i k] & Ep & Hp).
    cbn [fst snd] in Ep. injection Ep as -> <-.
    apply In_combine_seq in Hp as [Hr Hnth]. rewrite Nat.sub_0_r in Hnth.
    exists i. split; [reflexivity|split; [lia|exact Hnth]]. }
  set (layer := fun k => match sget k L with Some l => l | None => 0%nat end).
  assert (Hpos : forall n, In n nodes -> layer (id n) < length sorted /\
            nth_error sorted (length sorted - S (layer (id n))) = Some (id n)).
  { intros nd Hn. destruct (Hlay nd Hn) as (i & E & Hi & Hnth). unfold layer; rewrite E.
    split; [lia|]. replace (length sorted - S (length sorted - i - 1)) with i by lia. exact Hnth. }
  assert (Hcount : count_layers L = map (fun p => (snd p, 1)) L).
  { unfold count_layers. rewrite count_fold; [reflexivity|exact Hsnd|intros; reflexivity]. }
  assert (Hc : forall l, In l (map snd L) -> nget l (count_layers L) = Some 1).
  { intros l Hl. rewrite Hcount. exact (nget_ones L l Hl). }
  exists sorted, layer,
    (- (inject_Z (Z.of_nat 1) * with_default (opt_nodeWidth options) 120
        + (inject_Z (Z.of_nat 1) - 1) * with_default (opt_horizontalGap options) 150) / 2
     + inject_Z (Z.of_nat 0) * (with_default (opt_nodeWidth options) 120
                                + with_default (opt_horizontalGap options) 150)
     + with_default (opt_nodeWidth options) 120 / 2)%Q.
  repeat match goal with |- _ /\ _ => split end.
  - exact Ht.
  - exact Hpos.
  - intros a b Ha Hb E. apply (NoDup_map_inj id nodes a b Hnd Ha Hb).
    destruct (Hpos a Ha) as [_ Ea], (Hpos b Hb) as [_ Eb]. rewrite E in Ea. congruence.
  - intros nd Hn. apply Hc. destruct (Hlay nd Hn) as (i & E & _).
    unfold layer; rewrite E. apply in_map_iff. exists (id nd, length sorted - i - 1).
    split; [reflexivity|apply sget_In; exact E].
  - apply layer_x_zero.
  - destruct nodes as [|n0 ns]; [congruence|].
    unfold calculateLayout. rewrite Ht. cbv beta iota zeta. change (assign_layers sorted) with L.
    rewrite (nodemap_init (n0 :: ns) [] Hnd (fun _ _ => eq_refl)), app_nil_l.
    destruct (place_fold (with_default (opt_nodeWidth options) 120)
                (with_default (opt_nodeHeight options) 60)
                (with_default (opt_horizontalGap options) 150)
                (with_default (opt_verticalGap options) 100)
                (count_layers L) (n0 :: ns) Hnd L Hfst Hsnd
                ltac:(rewrite HLfst; intros x; apply Hin) Hc [] (fun n => n)
                (fun _ _ => eq_refl) (fun _ _ _ => eq_refl)) as [lp' E].
    cbv beta in E.
    match type of E with
    | _ = ?R => match goal with
                | |- context [fold_left ?F ?L0 ?A] =>
                    replace (fold_left F L0 A) with R by first [exact E|symmetry; exact E]
                end
    end.
    cbv beta iota. unfold JSMap.values. rewrite map_map.
    f_equal. apply map_ext_in. intros nd Hn. destruct (Hlay nd Hn) as (i & E1 & _).
    cbn [snd]. unfold layer. rewrite E1. reflexivity.
Qed.

Lemma calculateLayout_one_node_per_layer_witness :
  exists sorted (layer : string -> nat) (x0 : Q),
    topologicalSort [node "A"; node "B"] [mkEdge "B" "A"] = Some sorted /\
    (forall n, In n [node "A"; node "B"] -> layer (id n) < length sorted /\
       nth_error sorted (length sorted - S (layer (id n))) = Some (id n)) /\
    (forall a b, In a [node "A"; node "B"] -> In b [node "A"; node "B"] ->
       layer (id a) = layer (id b) -> a = b) /\
    (forall n, In n [node "A"; node "B"] ->
       nget (layer (id n)) (count_layers (assign_layers sorted)) = Some 1) /\
    (x0 == 0)%Q /\
    calculateLayout [node "A"; node "B"] [mkEdge "B" "A"] no_options =
      Some (map (fun n => set_xy n x0
        (inject_Z (Z.of_nat (layer (id n))) * with_default (opt_verticalGap no_options) 100
         + with_default (opt_nodeHeight no_options) 60 / 2)%Q) [node "A"; node "B"]).
Proof.
  apply (calculateLayout_one_node_per_layer [node "A"; node "B"] [mkEdge "B" "A"] no_options).
  - discriminate.
  - vm_compute. repeat (constructor; [simpl; intuition discriminate|]). constructor.
  - intros e He. repeat destruct He as [<-|He]; [vm_compute; tauto|destruct He].
  - apply (acyclic_ranked _ (fun s => if str_eqb s "B" then 1 else 0)).
    intros e He. repeat destruct He as [<-|He]; [simpl; lia|destruct He].
Defined.

(** ** findShortestPath *)

Lemma get_list_init k u g :
  get_list u (if shas k g then g else sset k [] g) = get_list u g.
Proof.
  destruct (shas k g) eqn:E; [reflexivity|]. rewrite get_list_sset.
  destruct (str_eqb_spec u k) as [->|]; [|reflexivity].
  unfold shas, JSMap.has, get_list, sget in *.
  destruct (JSMap.get str_eqb k g); [discriminate|reflexivity].
Qed.

Lemma sp_add_edge_nbrs g e u w :
  In w (get_list u (sp_add_edge g e)) <->
  In w (get_list u g) \/ (from e = u /\ to e = w) \/ (from e = w /\ to e = u).
Proof.
  unfold sp_add_edge.
  set (g1 := if shas (from e) g then g else sset (from e) [] g).
  set (g2 := if shas (to e) g1 then g1 else sset (to e) [] g1).
  assert (E2 : forall x, get_list x g2 = get_list x g)
    by (intros x; unfold g2, g1; rewrite !get_list_init; reflexivity).
  rewrite !get_list_sset, !E2.
  destruct (str_eqb_spec u (to e)) as [Eu|Eu];
    [destruct (str_eqb_spec (to e) (from e)) as [Etf|Etf]
    |destruct (str_eqb_spec u (from e)) as [Ef|Ef]];
    rewrite ?E2, ?in_app_iff; cbn [In].
  - rewrite <- Etf, <- Eu. intuition congruence.
  - rewrite <- Eu in *. intuition congruence.
  - rewrite <- Ef in *. intuition congruence.
  - intuition congruence.
Qed.


Lemma sp_graph_fold_nbrs es g u w :
  In w (get_list u (fold_left sp_add_edge es g)) <->
  In w (get_list u g) \/
  exists e, In e es /\ ((from e = u /\ to e = w) \/ (from e = w /\ to e = u)).
Proof.
  revert g; induction es as [|e es IH]; intros g; simpl.
  - split; [auto|intros [Hw|(e & [] & _)]; exact Hw].
  - rewrite IH, sp_add_edge_nbrs. split.
    + intros [[Hw|He]|(e' & He' & Hx)]; [auto|right; exists e; auto|right; exists e'; auto].
    + intros [Hw|(e' & [<-|He'] & Hx)]; [auto|left; right; exact Hx|right; exists e'; auto].
Qed.

Lemma sp_graph_nbrs edges u w :
  In w (get_list u (sp_graph edges)) <-> adjacent edges u w.
Proof.
  unfold sp_graph, adjacent. rewrite sp_graph_fold_nbrs. unfold get_list; simpl.
  split; [intros [[]|H]; exact H|intros H; right; exact H].
Qed.

Lemma adjacent_universe edges s u w : adjacent edges u w -> In w (sp_universe s edges).
Proof.
  intros (e & He & Hx). right. apply in_flat_map. exists e. split; [exact He|].
  destruct Hx as [[_ <-]|[<- _]]; simpl; auto.
Qed.

Lemma sp_universe_length s edges : length (sp_universe s edges) = S (2 * length edges).
Proof. unfold sp_universe; simpl; induction edges as [|e es IH]; simpl; lia. Qed.

Lemma upath_length edges s v q : upath edges s v q -> 1 <= length q.
Proof. intros Hq; destruct Hq; [simpl; lia|rewrite length_app; simpl; lia]. Qed.

Lemma upath_one edges s v q : upath edges s v q -> length q = 1 -> v = s.
Proof.
  intros Hq; destruct Hq as [|m t p Hp _]; [reflexivity|].
  apply upath_length in Hp. rewrite length_app; simpl; lia.
Qed.

Lemma upath_last edges s v q : upath edges s v q -> last q "" = v.
Proof. intros Hq; destruct Hq; [reflexivity|apply last_last]. Qed.

Lemma upath_closed edges s (D : list string) :
  In s D -> (forall u w, In u D -> adjacent edges u w -> In w D) ->
  forall v q, upath edges s v q -> In v D.
Proof.
  intros Hs Hcl v q Hq; induction Hq as [|m t p Hp IH Hadj]; [exact Hs|exact (Hcl m t IH Hadj)].
Qed.

Lemma sp_visit_fold path ns queue visited :
  exists N, fold_left (sp_visit path) ns (queue, visited) =
     (queue ++ map (fun nb => path ++ [nb]) N, visited ++ N) /\
   (forall x, In x N -> In x ns /\ ~ In x visited) /\
   (forall x, In x ns -> In x visited \/ In x N) /\
   (NoDup visited -> NoDup (visited ++ N)).
Proof.
  revert queue visited; induction ns as [|nb ns IH]; intros queue visited; cbn [fold_left].
  - exists []. rewrite !app_nil_r. split; [reflexivity|]. split; [intros x []|].
    split; [intros x []|auto].
  - change (sp_visit path (queue, visited) nb) with
      (if negb (JSSet.has nb visited)
       then (queue ++ [path ++ [nb]], JSSet.add nb visited) else (queue, visited)).
    destruct (JSSet.has nb visited) eqn:Eh; cbn [negb].
    + destruct (IH queue visited) as (N & E & H1 & H2 & H3). exists N.
      split; [exact E|]. split; [intros x Hx; destruct (H1 x Hx); split; [right|]; auto|].
      split; [|exact H3]. intros x [<-|Hx]; [left; apply JSSet_has_In; exact Eh|exact (H2 x Hx)].
    + assert (Hn : ~ In nb visited) by (rewrite <- JSSet_has_In; congruence).
      rewrite (JSSet_add_new _ _ Hn).
      destruct (IH (queue ++ [path ++ [nb]]) (visited ++ [nb])) as (N & E & H1 & H2 & H3).
      exists (nb :: N). rewrite E, <- !app_assoc. split; [reflexivity|]. split.
      * intros x [<-|Hx]; [split; [left; reflexivity|exact Hn]|].
        destruct (H1 x Hx) as [Hx1 Hx2]. rewrite in_app_iff in Hx2.
        split; [right; exact Hx1|intros Hv; apply Hx2; left; exact Hv].
      * split.
        -- intros x [<-|Hx]; [right; left; reflexivity|].
           destruct (H2 x Hx) as [Hv|Hv]; [apply in_app_or in Hv as [Hv|[<-|[]]]|].
           ++ left; exact Hv.
           ++ right; left; reflexivity.
           ++ right; right; exact Hv.
        -- intros Hnd. replace (visited ++ nb :: N) with ((visited ++ [nb]) ++ N)
             by (rewrite <- app_assoc; reflexivity).
           apply H3.
           apply NoDup_app; [exact Hnd|constructor; [intros []|constructor]|].
           intros x Hx [<-|[]]; exact (Hn Hx).
Qed.

Lemma sp_inv_head edges s t k path queue visited done :
  sp_inv edges s t k (path :: queue) visited done ->
  exists k', sp_inv edges s t k' (path :: queue) visited done /\ length path = k' /\
    exists q1 q2, queue = q1 ++ q2 /\ (forall p, In p q1 -> length p = k') /\
                  (forall p, In p q2 -> length p = S k').
Proof.
  intros Hinv.
  pose proof Hinv as ((q1 & q2 & Eq & Hq1 & Hq2) & Hup & Hopt & Hvis & Hcl & Hlow & Ht & Hs).
  destruct q1 as [|p1 q1].
  - (* the queue holds only paths of [k + 1] nodes: the next layer starts *)
    simpl in Eq. subst q2. exists (S k).
    split; [|split; [apply Hq2; left; reflexivity|]].
    + unfold sp_inv. repeat match goal with |- _ /\ _ => split end; try assumption.
      * exists (path :: queue), []. rewrite app_nil_r.
        split; [reflexivity|split; [exact Hq2|intros p []]].
      * intros v q Hv Hq.
        assert (Hk : k < length q) by exact (Hlow v q Hv Hq).
        destruct (Nat.eq_dec (length q) (S k)) as [Eq'|]; [|lia]. exfalso.
        revert Hv Eq' Hk. destruct Hq as [|m v p Hp Hadj]; intros Hv Eq' Hk.
        -- exact (Hv Hs).
        -- rewrite length_app in Eq'; simpl in Eq'.
           destruct (in_dec string_dec m visited) as [Hm|Hm].
           ++ apply Hvis in Hm as [Hm|Hm].
              ** exact (Hv (Hcl m v Hm Hadj)).
              ** apply in_map_iff in Hm as (p'' & Ep & Hp'').
                 rewrite <- Ep in Hp.
                 pose proof (Hopt p'' p Hp'' Hp) as Hle.
                 rewrite (Hq2 p'' Hp'') in Hle. lia.
           ++ pose proof (Hlow m p Hm Hp). lia.
    + exists queue, []. rewrite app_nil_r.
      split; [reflexivity|split; [intros p Hp; apply Hq2; right; exact Hp|intros p []]].
  - simpl in Eq. injection Eq as <- ->. exists k.
    split; [exact Hinv|split; [apply Hq1; left; reflexivity|]].
    exists q1, q2. split; [reflexivity|split; [intros p Hp; apply Hq1; right; exact Hp|exact Hq2]].
Qed.

Lemma sp_inv_step edges s t k path queue q1 q2 visited done N :
  sp_inv edges s t k (path :: queue) visited done -> length path = k ->
  queue = q1 ++ q2 -> (forall p, In p q1 -> length p = k) ->
  (forall p, In p q2 -> length p = S k) ->
  last path "" <> t ->
  (forall x, In x N -> adjacent edges (last path "") x /\ ~ In x visited) ->
  (forall x, adjacent edges (last path "") x -> In x visited \/ In x N) ->
  sp_inv edges s t k (queue ++ map (fun nb => path ++ [nb]) N) (visited ++ N)
    (last path "" :: done).
Proof.
  intros (_ & Hup & Hopt & Hvis & Hcl & Hlow & Ht & Hs) Hlen Eq Hq1 Hq2 Hne HN1 HN2.
  assert (Hlast : forall nb, last (path ++ [nb]) "" = nb) by (intros; apply last_last).
  assert (Hnew : forall p, In p (map (fun nb => path ++ [nb]) N) -> exists nb, p = path ++ [nb] /\ In nb N)
    by (intros p Hp; apply in_map_iff in Hp as (nb & <- & Hnb); exists nb; auto).
  assert (Hmap : map (fun p => last p "") (map (fun nb => path ++ [nb]) N) = N).
  { rewrite map_map. transitivity (map (fun x => x) N); [apply map_ext; exact Hlast|apply map_id]. }
  unfold sp_inv. repeat match goal with |- _ /\ _ => split end.
  - exists q1, (q2 ++ map (fun nb => path ++ [nb]) N).
    split; [rewrite Eq, app_assoc; reflexivity|split; [exact Hq1|]].
    intros p Hp. apply in_app_or in Hp as [Hp|Hp]; [exact (Hq2 p Hp)|].
    destruct (Hnew p Hp) as (nb & -> & _). rewrite length_app, Hlen; simpl; lia.
  - intros p Hp. apply in_app_or in Hp as [Hp|Hp]; [exact (Hup p (or_intror Hp))|].
    destruct (Hnew p Hp) as (nb & -> & Hnb). rewrite Hlast.
    apply (up_snoc _ _ (last path "")); [exact (Hup path (or_introl eq_refl))|exact (proj1 (HN1 nb Hnb))].
  - intros p q Hp Hq. apply in_app_or in Hp as [Hp|Hp]; [exact (Hopt p q (or_intror Hp) Hq)|].
    destruct (Hnew p Hp) as (nb & -> & Hnb). rewrite Hlast in Hq.
    pose proof (Hlow nb q (proj2 (HN1 nb Hnb)) Hq). rewrite length_app, Hlen; simpl; lia.
  - intros x. rewrite in_app_iff, Hvis, map_app, in_app_iff, Hmap. cbn [map In]. tauto.
  - intros u w [<-|Hu] Hadj; apply in_app_iff.
    + destruct (HN2 w Hadj); auto.
    + left; exact (Hcl u w Hu Hadj).
  - intros v q Hv Hq. apply (Hlow v q); [intros Hv'; apply Hv, in_app_iff; left; exact Hv'|exact Hq].
  - intros [E|Ht']; [exact (Hne E)|exact (Ht Ht')].
  - apply in_app_iff; left; exact Hs.
Qed.

Lemma sp_loop_spec edges s t : forall fuel k queue visited done,
  sp_inv edges s t k queue visited done ->
  NoDup visited -> incl visited (sp_universe s edges) ->
  length queue + (length (sp_universe s edges) - length visited) < fuel ->
  exists r, sp_loop (sp_graph edges) t fuel queue visited = Some r /\
    (forall p, r = Some p -> upath edges s t p /\
       forall q, upath edges s t q -> length p <= length q) /\
    (r = None -> forall q, ~ upath edges s t q).
Proof.
  induction fuel as [|fuel IH]; intros k queue visited done Hinv Hnd Hincl Hfuel; [lia|].
  destruct queue as [|path queue].
  - exists None. split; [reflexivity|]. split; [discriminate|]. intros _ q Hq.
    destruct Hinv as (_ & _ & _ & Hvis & Hcl & _ & Ht & Hs).
    apply Ht. apply (upath_closed edges s done) with (v := t) (q := q); [| |exact Hq].
    + apply Hvis in Hs as [Hs|[]]; exact Hs.
    + intros u w Hu Hadj. pose proof (Hcl u w Hu Hadj) as Hw.
      apply Hvis in Hw as [Hw|[]]. exact Hw.
  - destruct (sp_inv_head _ _ _ _ _ _ _ _ Hinv) as (k' & Hinv' & Hlen & q1 & q2 & Eq & Hq1 & Hq2).
    cbn [sp_loop].
    destruct (str_eqb_spec (last path "") t) as [Et|Hne].
    + exists (Some path). split; [reflexivity|]. split; [|discriminate].
      intros p [= <-]. destruct Hinv' as (_ & Hup & Hopt & _).
      rewrite <- Et. split; [exact (Hup path (or_introl eq_refl))|].
      intros q Hq. exact (Hopt path q (or_introl eq_refl) Hq).
    + destruct (sp_visit_fold path (get_list (last path "") (sp_graph edges)) queue visited)
        as (N & E & HN1 & HN2 & HN3).
      rewrite E.
      assert (HN1' : forall x, In x N -> adjacent edges (last path "") x /\ ~ In x visited).
      { intros x Hx. destruct (HN1 x Hx) as [Ha Hv]. split; [apply sp_graph_nbrs; exact Ha|exact Hv]. }
      assert (HN2' : forall x, adjacent edges (last path "") x -> In x visited \/ In x N).
      { intros x Ha. apply HN2, sp_graph_nbrs; exact Ha. }
      pose proof (sp_inv_step _ _ _ _ _ _ _ _ _ _ _ Hinv' Hlen Eq Hq1 Hq2 Hne HN1' HN2') as Hstep.
      assert (Hincl' : incl (visited ++ N) (sp_universe s edges)).
      { intros x Hx. apply in_app_or in Hx as [Hx|Hx]; [exact (Hincl x Hx)|].
        exact (adjacent_universe edges s _ _ (proj1 (HN1' x Hx))). }
      assert (Hnd' := HN3 Hnd).
      pose proof (NoDup_incl_length Hnd' Hincl') as Hle.
      rewrite length_app in Hle.
      apply (IH k' _ _ _ Hstep Hnd' Hincl').
      rewrite !length_app, length_map. cbn [length] in Hfuel. lia.
Qed.

(** C6: for every [startId], [endId] and edge list, [findShortestPath] (which
    always terminates) returns [[startId]] when [startId = endId]. Otherwise
    it returns a path: a path from [startId] to [endId] along edges taken in
    either direction, with no fewer nodes (so no more edges) than any other
    such path. It returns [null] exactly when no such path exists. On the
    chain [A -> B -> C] it returns [[A; B; C]] from [A] to [C] and [null]
    from [A] to the disconnected [D]. *)
Theorem findShortestPath_shortest :
  (forall (startId endId : string) (edges : list Edge),
    (startId = endId -> findShortestPath startId endId edges = Some (Some [startId])) /\
    exists r, findShortestPath startId endId edges = Some r /\
      (forall p, r = Some p -> upath edges startId endId p /\
         forall q, upath edges startId endId q -> length p <= length q) /\
      (r = None <-> forall q, ~ upath edges startId endId q)) /\
  findShortestPath "A" "C" [mkEdge "A" "B"; mkEdge "B" "C"] = Some (Some ["A"; "B"; "C"]) /\
  findShortestPath "A" "D" [mkEdge "A" "B"; mkEdge "B" "C"] = Some None.
Proof.
  split; [|split; vm_compute; reflexivity].
  intros s t edges.
  split; [intros ->; unfold findShortestPath; rewrite str_eqb_refl; reflexivity|].
  destruct (str_eqb_spec s t) as [<-|Hne].
  - exists (Some [s]). unfold findShortestPath. rewrite str_eqb_refl.
    split; [reflexivity|split].
    + intros p [= <-]. split; [apply up_start|]. intros q Hq. exact (upath_length _ _ _ _ Hq).
    + split; [discriminate|]. intros Hno. exfalso. exact (Hno [s] (up_start edges s)).
  - assert (Hinit : sp_inv edges s t 1 [[s]] [s] []).
    { unfold sp_inv. repeat match goal with |- _ /\ _ => split end.
      - exists [[s]], []. split; [reflexivity|].
        split; [intros p [<-|[]]; reflexivity|intros p []].
      - intros p [<-|[]]. apply up_start.
      - intros p q [<-|[]] Hq. exact (upath_length _ _ _ _ Hq).
      - intros x; simpl; tauto.
      - intros u w [].
      - intros v q Hv Hq. pose proof (upath_length _ _ _ _ Hq).
        destruct (Nat.eq_dec (length q) 1) as [E|]; [|lia].
        exfalso; apply Hv. left. symmetry. exact (upath_one _ _ _ _ Hq E).
      - intros [].
      - left; reflexivity. }
    assert (Hnd : NoDup [s]) by (constructor; [intros []|constructor]).
    assert (Hincl : incl [s] (sp_universe s edges)) by (intros x [<-|[]]; left; reflexivity).
    assert (Hfuel : length [[s]] + (length (sp_universe s edges) - length [s]) < 2 * length edges + 2)
      by (rewrite sp_universe_length; simpl; lia).
    destruct (sp_loop_spec edges s t _ _ _ _ _ Hinit Hnd Hincl Hfuel) as (r & Er & Hsome & Hnone).
    exists r. unfold findShortestPath. rewrite (str_eqb_neq _ _ Hne).
    split; [exact Er|split; [exact Hsome|split; [exact Hnone|]]].
    intros Hno. destruct r as [p|]; [|reflexivity].
    exfalso. exact (Hno p (proj1 (Hsome p eq_refl))).
Qed.

Lemma sget_in_keys {V} (k : string) (m : JSMap.t (K := string) (V := V)) v :
  sget k m = Some v -> In k (map fst m).
Proof.
  unfold sget; induction m as [|[k0 v0] m IH]; simpl; [discriminate|].
  destruct (str_eqb_spec k k0) as [->|_]; [left; reflexivity|intros H; right; exact (IH H)].
Qed.

Lemma filter_length_impl {A} (f g : A -> bool) l :
  (forall x, In x l -> f x = true -> g x = true) -> length (filter f l) <= length (filter g l).
Proof.
  induction l as [|a l IH]; intros H; simpl; [lia|].
  assert (IH' := IH (fun x Hx => H x (or_intror Hx))).
  destruct (f a) eqn:Ef; [rewrite (H a (or_introl eq_refl) Ef); simpl; lia|].
  destruct (g a); simpl; lia.
Qed.

Lemma filter_length_impl_lt {A} (f g : A -> bool) l a :
  (forall x, In x l -> f x = true -> g x = true) -> In a l -> f a = false -> g a = true ->
  length (filter f l) < length (filter g l).
Proof.
  induction l as [|b l IH]; intros H Ha Hf Hg; [contradiction|]. simpl.
  assert (Hle := filter_length_impl f g l (fun x Hx => H x (or_intror Hx))).
  destruct Ha as [->|Ha].
  - rewrite Hf, Hg; simpl; lia.
  - assert (IH' := IH (fun x Hx => H x (or_intror Hx)) Ha Hf Hg).
    destruct (f b) eqn:Efb; [rewrite (H b (or_introl eq_refl) Efb); simpl; lia|].
    destruct (g b); simpl; lia.
Qed.

Lemma nodup_length_le {A} (dec : forall x y : A, {x = y} + {x <> y}) l :
  length (nodup dec l) <= length l.
Proof. induction l as [|a l IH]; simpl; [lia|]. destruct (in_dec dec a l); simpl; lia. Qed.

Lemma unvisited_mono objs s s' : incl s s' -> unvisited objs s' <= unvisited objs s.
Proof.
  intros Hi. unfold unvisited. apply filter_length_impl.
  intros x _ Hx. apply negb_true_iff in Hx. apply negb_true_iff.
  destruct (JSSet.has x s) eqn:E; [|reflexivity].
  apply JSSet_has_In in E. apply Hi in E. apply JSSet_has_In in E; congruence.
Qed.

Lemma unvisited_add objs s h c :
  sget h objs = Some (OCommit c) -> ~ In h s -> unvisited objs (s ++ [h]) < unvisited objs s.
Proof.
  intros Ho Hn. unfold unvisited. apply (filter_length_impl_lt _ _ _ h).
  - intros x _ Hx. apply negb_true_iff in Hx. apply negb_true_iff.
    destruct (JSSet.has x s) eqn:E; [|reflexivity].
    apply JSSet_has_In in E. rewrite <- Hx. symmetry. apply JSSet_has_In, in_or_app; left; exact E.
  - unfold commit_keys. apply nodup_In, filter_In. split; [exact (sget_in_keys _ _ _ Ho)|].
    unfold is_commit_at; rewrite Ho; reflexivity.
  - apply negb_false_iff, JSSet_has_In, in_or_app; right; left; reflexivity.
  - apply negb_true_iff. destruct (JSSet.has h s) eqn:E; [apply JSSet_has_In in E; contradiction|reflexivity].
Qed.

Lemma unvisited_bound objs s : unvisited objs s <= length objs.
Proof.
  unfold unvisited, commit_keys.
  eapply Nat.le_trans; [apply filter_length_le|].
  eapply Nat.le_trans; [apply nodup_length_le|].
  eapply Nat.le_trans; [apply filter_length_le|]. rewrite length_map; lia.
Qed.

Lemma traverse_total objs f : forall h s, unvisited objs s < f ->
  exists s', traverse objs f h s = Some s'.
Proof.
  induction f as [|f IH]; intros h s Hf; [lia|]. simpl.
  destruct (negb (str_truthy h) || JSSet.has h s) eqn:Eb; [eexists; reflexivity|].
  apply orb_false_iff in Eb as [_ Ehas].
  unfold JSSet.add; rewrite Ehas.
  assert (Hn : ~ In h s) by (intros Hin; apply JSSet_has_In in Hin; congruence).
  destruct (sget h objs) as [[b|t|c0]|] eqn:Ho; try (eexists; reflexivity).
  assert (Hlt := unvisited_add objs s h c0 Ho Hn).
  assert (Hfold : forall ps a, incl (s ++ [h]) a ->
            exists b, fold_parents (traverse objs f) ps a = Some b).
  { induction ps as [|p ps IHps]; intros a Ha; [rewrite fold_parents_nil; eexists; reflexivity|].
    rewrite fold_parents_cons.
    assert (Hu := unvisited_mono objs _ _ Ha).
    destruct (IH p a ltac:(lia)) as [a1 E1]. rewrite E1.
    apply IHps. destruct (traverse_complete objs f p a a1 E1) as (Hi & _).
    exact (incl_tran Ha Hi). }
  apply Hfold, incl_refl.
Qed.

Lemma traverse_store_total r h s : exists s', traverse (objects r) (store_fuel r) h s = Some s'.
Proof.
  apply traverse_total. assert (H := unvisited_bound (objects r) s). unfold store_fuel; lia.
Qed.

Lemma history_dfs_traverse objs f : forall h v,
  history_dfs objs f h (v, flat_map (commit_at objs) v) =
  match traverse objs f h v with
  | Some v' => Some (v', flat_map (commit_at objs) v')
  | None => None
  end.
Proof.
  induction f as [|f IH]; intros h v; [reflexivity|]. cbn [history_dfs traverse].
  destruct (negb (str_truthy h) || JSSet.has h v) eqn:Eb; [reflexivity|].
  apply orb_false_iff in Eb as [_ Ehas].
  unfold JSSet.add; rewrite Ehas.
  assert (Hfm : forall cs, commit_at objs h = cs ->
            flat_map (commit_at objs) (v ++ [h]) = flat_map (commit_at objs) v ++ cs).
  { intros cs Hc. rewrite flat_map_app; simpl; rewrite Hc, app_nil_r; reflexivity. }
  assert (Hfold : forall ps a,
            fold_parents (history_dfs objs f) ps (a, flat_map (commit_at objs) a) =
            match fold_parents (traverse objs f) ps a with
            | Some v' => Some (v', flat_map (commit_at objs) v')
            | None => None
            end).
  { induction ps as [|p ps IHps]; intros a; [rewrite !fold_parents_nil; reflexivity|].
    rewrite !fold_parents_cons, IH.
    destruct (traverse objs f p a) as [a1|]; [apply IHps|reflexivity]. }
  destruct (sget h objs) as [[b|t|c0]|] eqn:Ho;
    try (rewrite (Hfm []) by (unfold commit_at; rewrite Ho; reflexivity);
         rewrite app_nil_r; reflexivity).
  rewrite <- (Hfm [c0]) by (unfold commit_at; rewrite Ho; reflexivity).
  apply Hfold.
Qed.

Lemma getCommitHistory_traverse r start :
  getCommitHistory r start =
  match js_or start (sget (HEAD r) (refs r)) with
  | Some h =>
      if str_truthy h then
        match traverse (objects r) (store_fuel r) h [] with
        | Some anc => flat_map (commit_at (objects r)) anc
        | None => []
        end
      else []
  | None => []
  end.
Proof.
  unfold getCommitHistory.
  destruct (js_or start (sget (HEAD r) (refs r))) as [h|]; [|reflexivity].
  destruct (str_truthy h); [|reflexivity].
  pose proof (history_dfs_traverse (objects r) (store_fuel r) h []) as E.
  cbn [flat_map] in E. rewrite E.
  destruct (traverse (objects r) (store_fuel r) h []); reflexivity.
Qed.

Lemma traverse_nodup objs f : forall h s s',
  traverse objs f h s = Some s' -> NoDup s -> NoDup s'.
Proof.
  induction f as [|f IH]; intros h s s' Hd Hs; [discriminate|]. simpl in Hd.
  destruct (negb (str_truthy h) || JSSet.has h s) eqn:Eb; [injection Hd as <-; exact Hs|].
  apply orb_false_iff in Eb as [_ Ehas].
  unfold JSSet.add in Hd; rewrite Ehas in Hd.
  assert (Hs1 : NoDup (s ++ [h])).
  { apply NoDup_app; [exact Hs|constructor; [intros []|constructor]|].
    intros x Hx [<-|[]]. apply JSSet_has_In in Hx; congruence. }
  destruct (sget h objs) as [[b|t|c0]|];
    try (injection Hd as <-; exact Hs1).
  exact (fold_parents_ind (traverse objs f) (fun a b => NoDup a -> NoDup b)
           (fun _ H => H) (fun a b c H1 H2 H => H2 (H1 H)) _
           (fun p a b _ E Ha => IH p a b E Ha) _ _ Hd Hs1).
Qed.

Lemma flat_map_commit_at_nodup r l :
  keyed_store r -> NoDup l -> NoDup (flat_map (commit_at (objects r)) l).
Proof.
  intros Hk. induction l as [|a l IH]; intros Hl; [constructor|].
  inversion Hl as [|a' l' Ha Hl' E]; subst. simpl.
  unfold commit_at at 1. destruct (sget a (objects r)) as [[b|t|c]|] eqn:Ho;
    try exact (IH Hl').
  simpl. constructor; [|exact (IH Hl')].
  intros Hin. apply in_flat_map in Hin as (y & Hy & Hc).
  unfold commit_at in Hc. destruct (sget y (objects r)) as [[b|t|c']|] eqn:Hoy; try contradiction.
  destruct Hc as [<-|[]].
  assert (E1 := Hk a _ Ho). assert (E2 := Hk y _ Hoy). simpl in E1, E2.
  apply Ha; congruence.
Qed.

Lemma storeObject_lookup r o h :
  getObject (fst (storeObject r o)) h = if str_eqb h (obj_hash o) then Some o else getObject r h.
Proof. unfold getObject, storeObject; simpl. apply sget_sset. Qed.

Lemma repo_built_invariant r :
  repo_built r -> keyed_store r /\ (HEAD r = "main" \/ shas (HEAD r) (refs r) = true).
Proof.
  induction 1 as [|r o Hr [Hk Hh]|r tr m a n Hr [Hk Hh]|r b hs Hr [Hk Hh]|r b Hr [Hk Hh]].
  - split; [intros h o H; discriminate H|left; reflexivity].
  - split; [|exact Hh]. intros h o' H. rewrite storeObject_lookup in H.
    destruct (str_eqb_spec h (obj_hash o)) as [->|_]; [injection H as <-; reflexivity|].
    exact (Hk h o' H).
  - split.
    + intros h o' H. unfold commit in H; cbn [objects] in H.
      change (getObject (fst (storeObject r (OCommit (new_GitCommit tr
        match sget (HEAD r) (refs r) with Some p => if str_truthy p then [p] else [] | None => [] end
        a m None n)))) h = Some o') in H.
      rewrite storeObject_lookup in H.
      destruct (str_eqb_spec h (obj_hash (OCommit (new_GitCommit tr
        match sget (HEAD r) (refs r) with Some p => if str_truthy p then [p] else [] | None => [] end
        a m None n)))) as [->|_]; [injection H as <-; reflexivity|].
      exact (Hk h o' H).
    + right. unfold commit; cbn [HEAD refs storeObject fst].
      apply shas_sget. rewrite sget_sset_same. discriminate.
  - unfold createBranch.
    destruct (js_or hs (sget (HEAD r) (refs r))) as [h|]; [|split; assumption].
    destruct (str_truthy h); [|split; assumption].
    split; [exact Hk|]. cbn [HEAD refs].
    destruct Hh as [Hh|Hh]; [left; exact Hh|right].
    apply shas_sget. rewrite sget_sset. destruct (str_eqb (HEAD r) b); [discriminate|].
    apply shas_sget; exact Hh.
  - unfold checkout. destruct (shas b (refs r)) eqn:E; [|split; assumption].
    split; [exact Hk|right; exact E].
Qed.

Lemma traverse_prefix objs f : forall h s s',
  traverse objs f h s = Some s' -> exists t, s' = s ++ t.
Proof.
  induction f as [|f IH]; intros h s s' Hd; [discriminate|]. simpl in Hd.
  destruct (negb (str_truthy h) || JSSet.has h s) eqn:Eb;
    [injection Hd as <-; exists []; rewrite app_nil_r; reflexivity|].
  apply orb_false_iff in Eb as [_ Ehas].
  unfold JSSet.add in Hd; rewrite Ehas in Hd.
  destruct (sget h objs) as [[b|t|c0]|];
    try (injection Hd as <-; exists [h]; reflexivity).
  destruct (fold_parents_ind (traverse objs f) (fun a b => exists t, b = a ++ t))
    with (4 := Hd) as [t Ht].
  - intros a; exists []; rewrite app_nil_r; reflexivity.
  - intros a b c [t1 ->] [t2 ->]; exists (t1 ++ t2); rewrite app_assoc; reflexivity.
  - intros p a b _ E; exact (IH p a b E).
  - exists (h :: t). rewrite Ht, <- app_assoc; reflexivity.
Qed.

Lemma sample_repo_built : repo_built sample_repo.
Proof.
  unfold sample_repo, createSampleRepository, store; cbv zeta.
  repeat lazymatch goal with
  | |- repo_built (fst (commit _ _ _ _ _)) => apply rb_commit
  | |- repo_built (fst (storeObject _ _)) => apply rb_store
  | |- repo_built (createBranch _ _ _) => apply rb_branch
  | |- repo_built (snd (checkout _ _)) => apply rb_checkout
  | |- repo_built new_GitRepository => apply rb_init
  end.
Qed.

Lemma traverse_first objs f h s s' :
  str_truthy h = true -> ~ In h s -> traverse objs f h s = Some s' -> exists t, s' = s ++ h :: t.
Proof.
  intros Ht Hn Hd. destruct f as [|f]; [discriminate|]. simpl in Hd.
  assert (Ehas : JSSet.has h s = false)
    by (destruct (JSSet.has h s) eqn:E; [apply JSSet_has_In in E; contradiction|reflexivity]).
  rewrite Ht, Ehas in Hd. cbn [negb orb] in Hd.
  unfold JSSet.add in Hd; rewrite Ehas in Hd.
  destruct (sget h objs) as [[b|t|c0]|];
    try (injection Hd as <-; exists []; reflexivity).
  destruct (fold_parents_ind (traverse objs f) (fun a b => exists t, b = a ++ t))
    with (4 := Hd) as [t Hu].
  - intros a; exists []; rewrite app_nil_r; reflexivity.
  - intros a b c [t1 ->] [t2 ->]; exists (t1 ++ t2); rewrite app_assoc; reflexivity.
  - intros p a b _ E; exact (traverse_prefix _ _ _ _ _ E).
  - exists t. rewrite Hu, <- app_assoc; reflexivity.
Qed.

Lemma pos_lt x l : In x l -> pos x l < length l.
Proof.
  induction l as [|y l IH]; simpl; [intros []|].
  destruct (str_eqb_spec x y); [lia|]. intros [->|Hx]; [congruence|specialize (IH Hx); lia].
Qed.

Lemma pos_app_in x l t : In x l -> pos x (l ++ t) = pos x l.
Proof.
  induction l as [|y l IH]; simpl; [intros []|].
  destruct (str_eqb_spec x y); [reflexivity|]. intros [->|Hx]; [congruence|rewrite IH; auto].
Qed.

Lemma pos_snoc_new x l : ~ In x l -> pos x (l ++ [x]) = length l.
Proof.
  induction l as [|y l IH]; simpl; intros Hn; [rewrite str_eqb_refl; reflexivity|].
  rewrite str_eqb_neq by (intros ->; apply Hn; left; reflexivity).
  rewrite IH; [reflexivity|intros Hx; apply Hn; right; exact Hx].
Qed.

Lemma finished_ok_snoc graph vd n :
  finished_ok graph vd -> ~ In n vd -> (forall w, In w (get_list n graph) -> In w vd) ->
  finished_ok graph (vd ++ [n]).
Proof.
  intros Hok Hn Hw x Hx w Hxw. apply in_app_or in Hx as [Hx|[<-|[]]].
  - destruct (Hok x Hx w Hxw) as [Hwin Hlt].
    split; [apply in_or_app; left; exact Hwin|]. rewrite !pos_app_in by assumption; exact Hlt.
  - assert (Hwin := Hw w Hxw). split; [apply in_or_app; left; exact Hwin|].
    rewrite pos_app_in, pos_snoc_new by assumption. apply pos_lt; exact Hwin.
Qed.

Lemma finished_ok_path graph G vd :
  finished_ok graph vd ->
  (forall e, In e G -> In (to e) (get_list (from e) graph)) ->
  forall a b, edge_path G a b -> In a vd -> In b vd /\ pos b vd < pos a vd.
Proof.
  intros Hok Hg a b Hp. induction Hp as [e He|a b c H1 IH1 H2 IH2]; intros Ha.
  - exact (Hok _ Ha _ (Hg e He)).
  - destruct (IH1 Ha) as [Hb Hab]. destruct (IH2 Hb) as [Hc Hbc]. split; [exact Hc|lia].
Qed.

Section CycleDfs.
Variable graph : JSMap.t (K := string) (V := list string).
Variable G : list Edge.
Variable U : list string.
Hypothesis Hadj : forall u w, In w (get_list u graph) -> In w U /\ edge_path G u w.

Lemma cycle_dfs_spec : forall f n vg vd,
  NoDup vg -> incl vg U -> In n U -> ~ In n vg -> ~ In n vd -> length U <= f + length vg ->
  (forall x, In x vg -> edge_path G x n) -> finished_ok graph vd -> NoDup vd ->
  (forall x, In x vg -> ~ In x vd) ->
  exists b vg' vd', cycle_dfs graph f n vg vd = Some (b, vg', vd') /\
    (b = true -> exists y, edge_path G y y) /\
    (b = false -> vg' = vg /\ exists t, vd' = vd ++ t /\ In n vd' /\ finished_ok graph vd' /\
                  NoDup vd' /\ (forall y, In y t -> ~ In y vg)).
Proof.
  induction f as [|f IHf]; intros n vg vd Hnd Hvg Hn Hnvg Hnvd Hf Hpath Hok Hndd Hdis.
  all: assert (Hlen : length (n :: vg) <= length U)
         by (apply NoDup_incl_length; [constructor; assumption|];
             intros x [<-|Hx]; [exact Hn|apply Hvg; exact Hx]).
  { simpl in Hlen; lia. }
  cbn [cycle_dfs]. rewrite (JSSet_add_new n vg Hnvg).
  match goal with
  | |- exists b vg' vd', ?L (get_list n graph) (vg ++ [n]) vd = Some (b, vg', vd') /\ _ =>
    assert (Hloop : forall ns vdc t, incl ns (get_list n graph) -> vdc = vd ++ t ->
      (forall y, In y t -> ~ In y (vg ++ [n])) -> finished_ok graph vdc -> NoDup vdc ->
      (forall w, In w (get_list n graph) -> In w ns \/ In w vdc) ->
      exists b vg' vd', L ns (vg ++ [n]) vdc = Some (b, vg', vd') /\
        (b = true -> exists y, edge_path G y y) /\
        (b = false -> vg' = vg /\ exists t, vd' = vd ++ t /\ In n vd' /\ finished_ok graph vd' /\
                      NoDup vd' /\ (forall y, In y t -> ~ In y vg)))
  end.
  { induction ns as [|w ns IHns]; intros vdc t Hns Hvdc Ht Hokc Hndc Hcov; cbv beta iota.
    - assert (Hnc : ~ In n vdc).
      { rewrite Hvdc; intros Hi; apply in_app_or in Hi as [Hi|Hi]; [exact (Hnvd Hi)|].
        apply (Ht n Hi), in_or_app; right; left; reflexivity. }
      rewrite JSSet_delete_app by exact Hnvg. rewrite JSSet_add_new by exact Hnc.
      exists false, vg, (vdc ++ [n]). split; [reflexivity|split; [discriminate|intros _]].
      split; [reflexivity|]. exists (t ++ [n]).
      split; [rewrite Hvdc, app_assoc; reflexivity|].
      split; [apply in_or_app; right; left; reflexivity|].
      split; [apply finished_ok_snoc; [exact Hokc|exact Hnc|]|].
      { intros w Hw. destruct (Hcov w Hw) as [[]|Hi]; exact Hi. }
      split; [apply NoDup_snoc; assumption|].
      intros y Hy; apply in_app_or in Hy as [Hy|[<-|[]]]; [|exact Hnvg].
      intros Hi; apply (Ht y Hy), in_or_app; left; exact Hi.
    - assert (Hwn : In w (get_list n graph)) by (apply Hns; left; reflexivity).
      destruct (Hadj n w Hwn) as [HwU Hnw].
      assert (Hns' : incl ns (get_list n graph)) by (intros x Hx; apply Hns; right; exact Hx).
      destruct (JSSet.has w (vg ++ [n])) eqn:Ew.
      + exists true, (vg ++ [n]), vdc. split; [reflexivity|split; [|discriminate]].
        intros _. apply JSSet_has_In, in_app_or in Ew as [Ew|[<-|[]]].
        * exists w; exact (ep_trans G w n w (Hpath w Ew) Hnw).
        * exists n; exact Hnw.
      + assert (Hwvg : ~ In w (vg ++ [n])) by (intros Hi; apply JSSet_has_In in Hi; congruence).
        destruct (negb (JSSet.has w vdc)) eqn:Ev.
        * apply negb_true_iff in Ev.
          assert (Hwvd : ~ In w vdc) by (intros Hi; apply JSSet_has_In in Hi; congruence).
          destruct (IHf w (vg ++ [n]) vdc) as (b1 & vg1 & vd1 & E1 & Ht1 & Hf1).
          -- apply NoDup_snoc; assumption.
          -- intros x Hx; apply in_app_or in Hx as [Hx|[<-|[]]]; [apply Hvg; exact Hx|exact Hn].
          -- exact HwU.
          -- exact Hwvg.
          -- exact Hwvd.
          -- rewrite length_app; simpl; lia.
          -- intros x Hx; apply in_app_or in Hx as [Hx|[<-|[]]].
             ++ exact (ep_trans G x n w (Hpath x Hx) Hnw).
             ++ exact Hnw.
          -- exact Hokc.
          -- exact Hndc.
          -- intros x Hx Hi. rewrite Hvdc in Hi. apply in_app_or in Hi as [Hi|Hi].
             ++ apply in_app_or in Hx as [Hx|[<-|[]]]; [exact (Hdis x Hx Hi)|exact (Hnvd Hi)].
             ++ exact (Ht x Hi Hx).
          -- rewrite E1. destruct b1.
             ++ exists true, vg1, vd1. split; [reflexivity|split; [exact Ht1|discriminate]].
             ++ destruct (Hf1 eq_refl) as (-> & t1 & -> & Hw1 & Hok1 & Hnd1 & Ht1').
                apply (IHns (vdc ++ t1) (t ++ t1) Hns').
                ** rewrite Hvdc, app_assoc; reflexivity.
                ** intros y Hy; apply in_app_or in Hy as [Hy|Hy]; [exact (Ht y Hy)|exact (Ht1' y Hy)].
                ** exact Hok1.
                ** exact Hnd1.
                ** intros x Hx. destruct (Hcov x Hx) as [[<-|Hx']|Hx'].
                   --- right; exact Hw1.
                   --- left; exact Hx'.
                   --- right; apply in_or_app; left; exact Hx'.
        * apply negb_false_iff, JSSet_has_In in Ev.
          apply (IHns vdc t Hns' Hvdc Ht Hokc Hndc).
          intros x Hx. destruct (Hcov x Hx) as [[<-|Hx']|Hx']; auto. }
  apply (Hloop (get_list n graph) vd []).
  - apply incl_refl.
  - rewrite app_nil_r; reflexivity.
  - intros y [].
  - exact Hok.
  - exact Hndd.
  - intros w Hw; left; exact Hw.
Qed.

End CycleDfs.

Lemma sget_sset_some {V} (k k' : string) (v : V) g :
  sget k (sset k' v g) <> None <-> k = k' \/ sget k g <> None.
Proof.
  rewrite sget_sset. destruct (str_eqb_spec k k') as [->|Hn].
  - split; [intros _; left; reflexivity|discriminate].
  - split; [intros H; right; exact H|intros [E|H]; [contradiction|exact H]].
Qed.

Lemma cycle_graph_init_keys {N} `{Identified N} (nodes : list N) :
  forall (g : JSMap.t (K := string) (V := list string)) k,
  sget k (fold_left (fun g n => sset (id n) (@nil string) g) nodes g) <> None <->
  In k (map id nodes) \/ sget k g <> None.
Proof.
  induction nodes as [|n nodes IH]; intros g k; simpl.
  - intuition.
  - rewrite IH, sget_sset_some. intuition congruence.
Qed.

Lemma cycle_edge_step_keys g e k : sget k (cycle_edge_step g e) <> None <-> sget k g <> None.
Proof.
  unfold cycle_edge_step. destruct (shas (from e) g) eqn:E; [|reflexivity].
  rewrite sget_sset_some. apply shas_sget in E. intuition congruence.
Qed.

Lemma cycle_edge_step_mono g e u w : In w (get_list u g) -> In w (get_list u (cycle_edge_step g e)).
Proof.
  unfold cycle_edge_step. destruct (shas (from e) g); [|auto].
  rewrite get_list_sset. destruct (str_eqb_spec u (from e)) as [->|_]; [|auto].
  intros Hw; apply in_or_app; left; exact Hw.
Qed.

Lemma cycle_edges_fold_keys es : forall g k,
  sget k (fold_left cycle_edge_step es g) <> None <-> sget k g <> None.
Proof.
  induction es as [|e es IH]; intros g k; simpl; [reflexivity|].
  rewrite IH; apply cycle_edge_step_keys.
Qed.

Lemma cycle_edges_fold_mono es : forall g u w,
  In w (get_list u g) -> In w (get_list u (fold_left cycle_edge_step es g)).
Proof.
  induction es as [|e es IH]; intros g u w Hw; simpl; [exact Hw|].
  apply IH, cycle_edge_step_mono, Hw.
Qed.

Lemma cycle_edges_fold_complete es : forall g e,
  In e es -> sget (from e) g <> None ->
  In (to e) (get_list (from e) (fold_left cycle_edge_step es g)).
Proof.
  induction es as [|e0 es IH]; intros g e He Hk; [contradiction|]. simpl.
  destruct He as [<-|He].
  - apply cycle_edges_fold_mono. unfold cycle_edge_step.
    assert (E : shas (from e0) g = true) by (apply shas_sget; exact Hk).
    rewrite E, get_list_sset, str_eqb_refl. apply in_or_app; right; left; reflexivity.
  - apply IH; [exact He|]. apply cycle_edge_step_keys; exact Hk.
Qed.

Lemma cycle_graph_keys {N} `{Identified N} (nodes : list N) edges k :
  sget k (cycle_graph nodes edges) <> None <-> In k (map id nodes).
Proof.
  unfold cycle_graph. fold cycle_edge_step. rewrite cycle_edges_fold_keys, cycle_graph_init_keys.
  unfold sget; simpl. intuition.
Qed.

Lemma cycle_graph_complete {N} `{Identified N} (nodes : list N) edges e :
  In e (kept_edges nodes edges) -> In (to e) (get_list (from e) (cycle_graph nodes edges)).
Proof.
  unfold kept_edges; intros He. apply filter_In in He as [He Hk].
  apply JSSet_has_In in Hk.
  unfold cycle_graph. fold cycle_edge_step. apply cycle_edges_fold_complete; [exact He|].
  apply cycle_graph_init_keys; left; exact Hk.
Qed.

Lemma cycle_graph_kept {N} `{Identified N} (nodes : list N) edges u w :
  In w (get_list u (cycle_graph nodes edges)) ->
  In w (map id nodes ++ map to edges) /\ edge_path (kept_edges nodes edges) u w.
Proof.
  intros Hw. destruct (cycle_graph_adj _ _ _ _ Hw) as (e & He & Hu & Hwe).
  assert (Hk : In u (map id nodes)).
  { apply (cycle_graph_keys nodes edges). unfold get_list in Hw.
    destruct (sget u (cycle_graph nodes edges)); [discriminate|contradiction]. }
  split; [apply in_or_app; right; rewrite <- Hwe; apply in_map; exact He|].
  rewrite <- Hu, <- Hwe. apply ep_edge. unfold kept_edges. apply filter_In.
  split; [exact He|]. apply JSSet_has_In. rewrite Hu; exact Hk.
Qed.

Lemma kept_path_source {N} `{Identified N} (nodes : list N) edges a b :
  edge_path (kept_edges nodes edges) a b -> In a (map id nodes).
Proof.
  induction 1 as [e He|a b c H1 IH1 _ _]; [|exact IH1].
  unfold kept_edges in He. apply filter_In in He as [_ Hk]. apply JSSet_has_In; exact Hk.
Qed.

Lemma shas_sset_existing {V} (k k' : string) (v : V) g :
  shas k' g = true -> shas k (sset k' v g) = shas k g.
Proof.
  intros Hk. unfold shas, JSMap.has. fold (@sget V). rewrite sget_sset.
  destruct (str_eqb_spec k k') as [->|_]; [|reflexivity].
  apply shas_sget in Hk. destruct (sget k' g); [reflexivity|contradiction (Hk eq_refl)].
Qed.

Lemma topo_add_edge_keys gd e k :
  shas k (fst (topo_add_edge gd e)) = shas k (fst gd).
Proof.
  destruct gd as [g d]. unfold topo_add_edge.
  destruct (shas (from e) g) eqn:Ef; [|reflexivity].
  destruct (shas (to e) g) eqn:Et; [|reflexivity]. cbn [andb fst].
  apply shas_sset_existing. exact Ef.
Qed.

Lemma topo_fold_filter (ids : list string) (es : list Edge) : forall gd,
  (forall k, shas k (fst gd) = JSSet.has k ids) ->
  fold_left topo_add_edge es gd =
  fold_left topo_add_edge
    (filter (fun e => JSSet.has (from e) ids && JSSet.has (to e) ids) es) gd.
Proof.
  induction es as [|e es IH]; intros gd Hk; [reflexivity|]. cbn [fold_left filter].
  destruct (JSSet.has (from e) ids && JSSet.has (to e) ids) eqn:Ee.
  - cbn [fold_left]. apply IH. intros k; rewrite topo_add_edge_keys; apply Hk.
  - replace (topo_add_edge gd e) with gd.
    + apply IH, Hk.
    + destruct gd as [g d]. unfold topo_add_edge. cbn [fst] in Hk. rewrite !Hk, Ee. reflexivity.
Qed.

Lemma topo_graph_kept {N} `{Identified N} (nodes : list N) (edges : list Edge) :
  topo_graph nodes edges = topo_graph nodes (topo_edges nodes edges).
Proof.
  unfold topo_graph, topo_edges. apply topo_fold_filter.
  intros k. pose proof (topo_init_fold nodes [] []) as Hi.
  change (fold_left _ nodes _) with (topo_init nodes) in Hi.
  destruct Hi as (Ig & _). unfold shas, JSMap.has. fold (@sget (list string)).
  rewrite Ig. destruct (JSSet.has k (map id nodes)); reflexivity.
Qed.

Lemma topologicalSort_kept {N} `{Identified N} (nodes : list N) (edges : list Edge) :
  topologicalSort nodes edges = topologicalSort nodes (topo_edges nodes edges).
Proof. unfold topologicalSort. rewrite <- topo_graph_kept. reflexivity. Qed.

Lemma topo_edges_over {N} `{Identified N} (nodes : list N) (edges : list Edge) e :
  In e (topo_edges nodes edges) -> In (from e) (map id nodes) /\ In (to e) (map id nodes).
Proof.
  unfold topo_edges; intros He. apply filter_In in He as [_ Hb].
  apply andb_true_iff in Hb as [Hf Ht]. split; apply JSSet_has_In; assumption.
Qed.

Lemma pos_app_notin x l t : ~ In x l -> pos x (l ++ t) = length l + pos x t.
Proof.
  induction l as [|y l IH]; simpl; intros Hn; [reflexivity|].
  rewrite str_eqb_neq by (intros ->; apply Hn; left; reflexivity).
  rewrite IH; [reflexivity|intros Hx; apply Hn; right; exact Hx].
Qed.

Lemma before_pos x y l : NoDup l -> before x y l -> pos x l < pos y l /\ In x l /\ In y l.
Proof.
  intros Hnd (l1 & l2 & -> & H1 & H2).
  assert (Hy1 : ~ In y l1).
  { intros Hy. destruct (in_split y l2 H2) as (a & b & ->).
    rewrite app_assoc in Hnd. apply NoDup_remove_2 in Hnd. apply Hnd.
    apply in_or_app; left; apply in_or_app; left; exact Hy. }
  rewrite pos_app_in by exact H1. rewrite pos_app_notin by exact Hy1.
  pose proof (pos_lt x l1 H1).
  split; [lia|split; apply in_or_app; [left|right]; assumption].
Qed.

Lemma back_chain_build_P edges (V : list string) (P : string -> Prop) :
  (forall v, In v V -> P v -> exists w, In w V /\ P w /\ edge_path edges w v) ->
  forall n v, In v V -> P v ->
  exists t, length t = n /\ incl (v :: t) V /\ Forall P (v :: t) /\ back_chain edges (v :: t).
Proof.
  intros Hstep. induction n as [|n IH]; intros v Hv HP.
  - exists []. split; [reflexivity|split; [intros x [<-|[]]; exact Hv|split; [repeat constructor; exact HP|exact I]]].
  - destruct (Hstep v Hv HP) as (w & Hw & HPw & Hp).
    destruct (IH w Hw HPw) as (t & Ht & Hi & HF & Hc).
    exists (w :: t). split; [simpl; congruence|split; [|split; [constructor; [exact HP|exact HF]|split; [exact Hp|exact Hc]]]].
    intros x [<-|Hx]; [exact Hv|exact (Hi x Hx)].
Qed.

Lemma cycle_of_predecessors_P edges (V : list string) (P : string -> Prop) v :
  (forall v, In v V -> P v -> exists w, In w V /\ P w /\ edge_path edges w v) ->
  In v V -> P v -> exists x, P x /\ edge_path edges x x.
Proof.
  intros Hstep Hv HP.
  destruct (back_chain_build_P edges V P Hstep (length V) v Hv HP) as (t & Ht & Hi & HF & Hc).
  assert (Hn : ~ NoDup (v :: t)).
  { intros Hnd. pose proof (NoDup_incl_length Hnd Hi) as Hl. simpl in Hl. lia. }
  destruct (not_NoDup (fun x y : string => match string_dec x y with
                                           | left h => or_introl h | right h => or_intror h end) Hn)
    as (a & l1 & l2 & l3 & E).
  rewrite E in Hc, HF. apply back_chain_app_r in Hc.
  exists a. split.
  - rewrite Forall_forall in HF. apply HF, in_or_app; right; left; reflexivity.
  - exact (back_chain_path edges a l3 l2 a Hc).
Qed.

(** ** The object store and getCommitHistory *)

(** [storeObject] returns the object's fingerprint; afterwards [getObject]
    finds the object under that fingerprint and every other fingerprint
    resolves as before; refs and HEAD are untouched. *)
Theorem storeObject_getObject (r : GitRepository) (o : GitObject) :
  snd (storeObject r o) = obj_hash o /\
  getObject (fst (storeObject r o)) (obj_hash o) = Some o /\
  (forall h, h <> obj_hash o -> getObject (fst (storeObject r o)) h = getObject r h) /\
  refs (fst (storeObject r o)) = refs r /\ HEAD (fst (storeObject r o)) = HEAD r.
Proof.
  split; [reflexivity|split; [|split; [|split; reflexivity]]].
  - rewrite storeObject_lookup, str_eqb_refl; reflexivity.
  - intros h Hn. rewrite storeObject_lookup, str_eqb_neq by exact Hn; reflexivity.
Qed.

(** In every repository built from [new GitRepository()] by [storeObject],
    [commit], [createBranch] and [checkout], each stored object sits under
    its own fingerprint, and HEAD is ["main"] or the name of an existing
    ref. *)
Theorem repo_built_keyed_head (r : GitRepository) :
  repo_built r -> keyed_store r /\ (HEAD r = "main" \/ shas (HEAD r) (refs r) = true).
Proof. exact (repo_built_invariant r). Qed.

Lemma repo_built_keyed_head_witness :
  keyed_store sample_repo /\
  (HEAD sample_repo = "main" \/ shas (HEAD sample_repo) (refs sample_repo) = true).
Proof. apply (repo_built_keyed_head sample_repo). exact sample_repo_built. Defined.

(** When the start of [getCommitHistory] (the argument, or the current ref's
    target when it is omitted or empty) is a non-empty fingerprint [h], the
    history holds exactly the commits stored at [h] and at its ancestors
    reached through commits: the traversal always finishes and misses no
    ancestor. *)
Theorem getCommitHistory_reachable (r : GitRepository) (start : option string) (h : string) :
  js_or start (sget (HEAD r) (refs r)) = Some h -> str_truthy h = true ->
  forall c, In c (getCommitHistory r start) <->
    exists x, hash_ancestor (objects r) h x /\ getObject r x = Some (OCommit c).
Proof.
  intros Eh Ht c. rewrite getCommitHistory_traverse, Eh, Ht.
  destruct (traverse_store_total r h []) as [anc Ea]. rewrite Ea.
  assert (Hanc := traverse_ancestors _ _ _ _ Ea).
  rewrite in_flat_map. split.
  - intros (x & Hx & Hc). exists x; split; [apply Hanc; exact Hx|].
    unfold commit_at in Hc; unfold getObject.
    destruct (sget x (objects r)) as [[b|t|c']|]; try contradiction.
    destruct Hc as [<-|[]]; reflexivity.
  - intros (x & Hx & Hc). exists x; split; [apply Hanc; exact Hx|].
    unfold commit_at; unfold getObject in Hc; rewrite Hc; left; reflexivity.
Qed.

Lemma getCommitHistory_reachable_witness :
  In sample_commit2 (getCommitHistory sample_repo None) <->
    exists x, hash_ancestor (objects sample_repo) "0000000000000000000000000000000020055e1a" x /\
              getObject sample_repo x = Some (OCommit sample_commit2).
Proof.
  apply (getCommitHistory_reachable sample_repo None "0000000000000000000000000000000020055e1a");
    vm_compute; reflexivity.
Defined.

(** When every stored object sits under its own fingerprint,
    [getCommitHistory] lists no commit twice, whatever the start. *)
Theorem getCommitHistory_nodup (r : GitRepository) (start : option string) :
  keyed_store r -> NoDup (getCommitHistory r start).
Proof.
  intros Hk. rewrite getCommitHistory_traverse.
  destruct (js_or start (sget (HEAD r) (refs r))) as [h|]; [|constructor].
  destruct (str_truthy h); [|constructor].
  destruct (traverse (objects r) (store_fuel r) h []) as [anc|] eqn:Ea; [|constructor].
  apply flat_map_commit_at_nodup; [exact Hk|].
  exact (traverse_nodup _ _ _ _ _ Ea (NoDup_nil _)).
Qed.

Lemma getCommitHistory_nodup_witness : NoDup (getCommitHistory sample_repo None).
Proof.
  apply (getCommitHistory_nodup sample_repo None).
  exact (proj1 (repo_built_invariant sample_repo sample_repo_built)).
Defined.

(** When the start resolves to a non-empty fingerprint that holds a commit,
    [getCommitHistory] lists that commit first. *)
Theorem getCommitHistory_head (r : GitRepository) (start : option string) (h : string)
    (c : GitCommit) :
  js_or start (sget (HEAD r) (refs r)) = Some h -> str_truthy h = true ->
  getObject r h = Some (OCommit c) ->
  exists rest, getCommitHistory r start = c :: rest.
Proof.
  intros Eh Ht Ho. rewrite getCommitHistory_traverse, Eh, Ht.
  destruct (traverse_store_total r h []) as [anc Ea]. rewrite Ea.
  destruct (traverse_first _ _ h [] anc Ht (fun H => H) Ea) as [t ->].
  simpl. unfold commit_at at 1. unfold getObject in Ho. rewrite Ho. eexists; reflexivity.
Qed.

Lemma getCommitHistory_head_witness :
  exists rest, getCommitHistory sample_repo None =
    match getObject sample_repo "0000000000000000000000000000000020055e1a" with
    | Some (OCommit c) => c | _ => new_GitCommit "" [] "" "" None "" end :: rest.
Proof.
  apply (getCommitHistory_head sample_repo None "0000000000000000000000000000000020055e1a");
    vm_compute; reflexivity.
Defined.

(** ** detectCycle *)

(** [detectCycle(nodes, edges)] always finishes, and it returns [true]
    exactly when there is a cycle along the edges whose source is the id of
    a node (the only edges it puts into its adjacency lists); edges from
    other ids are ignored and targets that are not nodes are allowed. *)
Theorem detectCycle_iff_cycle {N} `{Identified N} (nodes : list N) (edges : list Edge) :
  exists b, detectCycle nodes edges = Some b /\
    (b = true <-> exists x, edge_path (kept_edges nodes edges) x x).
Proof.
  set (G := kept_edges nodes edges).
  set (U := map id nodes ++ map to edges).
  assert (Hadj : forall u w, In w (get_list u (cycle_graph nodes edges)) ->
                             In w U /\ edge_path G u w) by (apply cycle_graph_kept).
  assert (Hf : length U <= cycle_fuel nodes edges + length (@nil string))
    by (unfold U, cycle_fuel; rewrite length_app, !length_map; simpl; lia).
  unfold detectCycle.
  match goal with
  | |- exists b, ?F nodes [] [] = Some b /\ _ =>
      assert (Hgen : forall ns vd, incl ns nodes -> NoDup vd ->
                finished_ok (cycle_graph nodes edges) vd ->
                exists b, F ns [] vd = Some b /\ (b = true -> exists y, edge_path G y y) /\
                  (b = false -> exists vdf, incl vd vdf /\
                                 finished_ok (cycle_graph nodes edges) vdf /\
                                 forall n, In n ns -> In (id n) vdf))
  end.
  { induction ns as [|n ns IH]; intros vd Hincl Hnd Hok; cbv beta iota.
    - exists false. split; [reflexivity|split; [discriminate|]].
      intros _; exists vd; split; [apply incl_refl|split; [exact Hok|intros n []]].
    - assert (Hrest : incl ns nodes) by (intros x Hx; apply Hincl; right; exact Hx).
      destruct (negb (JSSet.has (id n) vd)) eqn:Ev.
      + apply negb_true_iff in Ev.
        destruct (cycle_dfs_spec _ G U Hadj (cycle_fuel nodes edges) (id n) [] vd)
          as (b1 & vg1 & vd1 & E1 & Ht1 & Hf1).
        * constructor.
        * intros x [].
        * apply in_or_app; left; apply in_map, Hincl; left; reflexivity.
        * intros [].
        * intros Hi; apply JSSet_has_In in Hi; congruence.
        * exact Hf.
        * intros x [].
        * exact Hok.
        * exact Hnd.
        * intros x [].
        * rewrite E1. destruct b1.
          -- exists true. split; [reflexivity|split; [exact Ht1|discriminate]].
          -- destruct (Hf1 eq_refl) as (-> & t & -> & Hin & Hok1 & Hnd1 & _).
             destruct (IH (vd ++ t) Hrest Hnd1 Hok1) as (b & Eb & Hbt & Hbf).
             exists b. split; [exact Eb|split; [exact Hbt|]].
             intros Hb. destruct (Hbf Hb) as (vdf & Hi & Hokf & Hall).
             exists vdf. split; [intros x Hx; apply Hi, in_or_app; left; exact Hx|].
             split; [exact Hokf|].
             intros m [<-|Hm]; [apply Hi; exact Hin|exact (Hall m Hm)].
      + apply negb_false_iff, JSSet_has_In in Ev.
        destruct (IH vd Hrest Hnd Hok) as (b & Eb & Hbt & Hbf).
        exists b. split; [exact Eb|split; [exact Hbt|]].
        intros Hb. destruct (Hbf Hb) as (vdf & Hi & Hokf & Hall).
        exists vdf. split; [exact Hi|split; [exact Hokf|]].
        intros m [<-|Hm]; [apply Hi; exact Ev|exact (Hall m Hm)]. }
  destruct (Hgen nodes [] (incl_refl _) (NoDup_nil _)) as (b & Eb & Hbt & Hbf).
  { intros x []. }
  exists b. split; [exact Eb|split; [exact Hbt|]].
  intros (x & Hx). destruct b; [reflexivity|exfalso].
  destruct (Hbf eq_refl) as (vdf & _ & Hokf & Hall).
  assert (Hxin : In x vdf).
  { destruct (proj1 (in_map_iff id nodes x) (kept_path_source _ _ _ _ Hx)) as (n & <- & Hn).
    exact (Hall n Hn). }
  destruct (finished_ok_path _ G vdf Hokf (cycle_graph_complete nodes edges) x x Hx Hxin) as [_ Hlt].
  lia.
Qed.

(** ** topologicalSort on any input *)

Lemma topologicalSort_total_spec {N} `{Identified N} (nodes : list N) (edges : list Edge) :
  exists out, topologicalSort nodes edges = Some out /\ NoDup out /\
    (forall x, In x out <->
       In x (map id nodes) /\
       ~ exists y, edge_path (topo_edges nodes edges) y y /\
                   (y = x \/ edge_path (topo_edges nodes edges) y x)) /\
    (forall e, In e edges -> In (from e) (map id nodes) -> In (to e) out ->
       before (to e) (from e) out).
Proof.
  set (E := topo_edges nodes edges).
  assert (Hover : forall e, In e E -> In (from e) (map id nodes) /\ In (to e) (map id nodes))
    by (apply topo_edges_over).
  rewrite topologicalSort_kept. fold E.
  destruct (topo_graph_spec nodes E Hover) as (Hadj & Hdeg & Hkeys & Hk).
  unfold topologicalSort. destruct (topo_graph nodes E) as [g d]. cbn [fst snd] in *.
  set (V := map id nodes) in *.
  assert (Hinit : kahn_inv V E (initial_queue d) [] d).
  { unfold initial_queue. split; [|split; [|split; [|split]]]; cbn [app].
    - apply NoDup_map_filter, Hkeys.
    - intros x Hx. apply in_map_iff in Hx as ([k z] & <- & Hx).
      apply filter_In in Hx as [Hx _]. apply (in_map fst) in Hx. apply Hk; exact Hx.
    - exact Hdeg.
    - intros v Hv. split.
      + intros Hx. apply in_map_iff in Hx as ([k z] & Hkv & Hx). cbn [fst] in Hkv; subst k.
        apply filter_In in Hx as [Hx Hz]. cbn [snd] in Hz. apply Z.eqb_eq in Hz; subst z.
        pose proof (In_sget v 0%Z d Hkeys Hx) as E0. rewrite (Hdeg v Hv) in E0.
        injection E0; lia.
      + intros H0. apply (in_map fst (filter _ d) (v, 0%Z)), filter_In. split; [|reflexivity].
        apply sget_In. rewrite (Hdeg v Hv), H0. reflexivity.
    - intros e He Hin. exfalso.
      assert (Hz : pending_in E [] (to e) = 0).
      { apply in_map_iff in Hin as ([k z] & Hkv & Hx). cbn [fst] in Hkv; subst k.
        apply filter_In in Hx as [Hx Hz]. cbn [snd] in Hz. apply Z.eqb_eq in Hz; subst z.
        pose proof (In_sget (to e) 0%Z d Hkeys Hx) as E0.
        rewrite (Hdeg (to e) (proj2 (Hover e He))) in E0. injection E0; lia. }
      exact (pending_zero E [] (to e) e Hz He eq_refl). }
  destruct (kahn_loop_spec V E g Hover Hadj (S (length nodes)) _ [] d Hinit)
    as (res & d' & Hl & Hinv); [unfold V; rewrite length_map; simpl; lia|].
  rewrite Hl. cbn [option_map]. exists (rev res).
  destruct Hinv as (Hnd' & Hincl & _ & Hzero & Hbef). rewrite app_nil_r in Hnd', Hincl, Hbef.
  assert (Hback : forall a b, edge_path E a b -> In b res -> In a res /\ pos a res < pos b res).
  { intros a b Hp. induction Hp as [e He|a b c _ IH1 _ IH2]; intros Hb.
    - destruct (before_pos _ _ _ Hnd' (Hbef e He Hb)) as (Hlt & Ha & _). split; assumption.
    - destruct (IH2 Hb) as [Hbin Hbc]. destruct (IH1 Hbin) as [Hain Hab]. split; [exact Hain|lia]. }
  split; [reflexivity|split; [apply NoDup_rev; exact Hnd'|split]].
  - intros x. rewrite <- in_rev. split.
    + intros Hx. split; [exact (Hincl x Hx)|].
      intros (y & Hyy & Hyx).
      assert (Hy : In y res) by (destruct Hyx as [->|Hyx]; [exact Hx|exact (proj1 (Hback y x Hyx Hx))]).
      destruct (Hback y y Hyy Hy) as [_ Hlt]. lia.
    + intros [Hx Hnc]. destruct (in_dec string_dec x res) as [Hin|Hin]; [exact Hin|exfalso].
      apply Hnc.
      destruct (cycle_of_predecessors_P E V
                  (fun v => ~ In v res /\ (v = x \/ edge_path E v x)) x)
        as (y & [_ Hyx] & Hyy); [|exact Hx|split; [exact Hin|left; reflexivity]|].
      * intros v Hv [Hnv Hvx].
        assert (Hp : pending_in E res v <> 0)
          by (intros H0; apply Hnv; rewrite <- (app_nil_r res); apply (Hzero v Hv); exact H0).
        destruct (pending_pos E res v Hp) as (e & He & Hte & Hfe).
        exists (from e). split; [exact (proj1 (Hover e He))|split; [split; [exact Hfe|]|]].
        -- right. destruct Hvx as [->|Hvx].
           ++ rewrite <- Hte. apply ep_edge; exact He.
           ++ apply (ep_trans E _ v); [rewrite <- Hte; apply ep_edge; exact He|exact Hvx].
        -- rewrite <- Hte. apply ep_edge; exact He.
      * exists y. split; [exact Hyy|exact Hyx].
  - intros e He Hf Ht. apply before_rev. apply Hbef; [|rewrite in_rev; exact Ht].
    unfold E, topo_edges. apply filter_In. split; [exact He|].
    apply andb_true_iff; split; apply JSSet_has_In; [exact Hf|].
    apply Hincl. rewrite in_rev; exact Ht.
Qed.

(** For any nodes and edges, [topologicalSort] finishes and returns distinct
    node ids; an id is returned exactly when no cycle of the counted edges
    (those between two node ids) reaches it, so ids on or below a cycle are
    left out silently; and when the target of a counted edge is returned,
    it comes before the edge's source. *)
Theorem topologicalSort_drops_cycles {N} `{Identified N} (nodes : list N) (edges : list Edge) :
  exists out, topologicalSort nodes edges = Some out /\ NoDup out /\
    (forall x, In x out <->
       In x (map id nodes) /\
       ~ exists y, edge_path (topo_edges nodes edges) y y /\
                   (y = x \/ edge_path (topo_edges nodes edges) y x)) /\
    (forall e, In e edges -> In (from e) (map id nodes) -> In (to e) out ->
       before (to e) (from e) out).
Proof. exact (topologicalSort_total_spec nodes edges). Qed.

Lemma JSSet_add_In x c s : In x (JSSet.add c s) <-> x = c \/ In x s.
Proof.
  unfold JSSet.add. destruct (JSSet.has c s) eqn:E.
  - apply JSSet_has_In in E. split; [intros H; right; exact H|intros [->|H]; assumption].
  - rewrite in_app_iff; simpl. intuition.
Qed.

Lemma JSSet_add_NoDup c s : NoDup s -> NoDup (JSSet.add c s).
Proof.
  intros Hs. unfold JSSet.add. destruct (JSSet.has c s) eqn:E; [exact Hs|].
  apply NoDup_snoc; [exact Hs|]. intros Hi; apply JSSet_has_In in Hi; congruence.
Qed.


Lemma count_unvisited_sources edges visited c : ~ In c visited ->
  length (filter (fun e => negb (JSSet.has (from e) (visited ++ [c]))) edges) +
  length (filter (fun e => str_eqb (from e) c) edges) =
  length (filter (fun e => negb (JSSet.has (from e) visited)) edges).
Proof.
  intros Hc. induction edges as [|e es IH]; simpl; [reflexivity|].
  rewrite JSSet_has_app. cbn [JSSet.has existsb]. rewrite orb_false_r.
  destruct (str_eqb_spec (from e) c) as [->|Hn].
  - assert (E : JSSet.has c visited = false)
      by (destruct (JSSet.has c visited) eqn:E; [apply JSSet_has_In in E; contradiction|reflexivity]).
    rewrite E; simpl. lia.
  - rewrite ?orb_false_r.
    destruct (JSSet.has (from e) visited); simpl; lia.
Qed.

Lemma closed_reach (edges : list Edge) (vs : list string) :
  (forall x, In x vs -> forall e, In e edges -> from e = x -> In (to e) vs) ->
  forall a b, edge_path edges a b -> In a vs -> In b vs.
Proof.
  intros Hc a b Hp. induction Hp as [e He|a b c _ IH1 _ IH2]; intros Ha.
  - exact (Hc _ Ha e He eq_refl).
  - apply IH2, IH1, Ha.
Qed.

Section GroupByBranch.
Variable edges : list Edge.
Variable head : string.

Let R y := y = head \/ edge_path edges head y.



End GroupByBranch.


Lemma sget_cons {V} (x k : string) (v : V) (m : JSMap.t (K := string) (V := V)) :
  sget x ((k, v) :: m) = if str_eqb x k then Some v else sget x m.
Proof. reflexivity. Qed.

Lemma sget_insert_index {V} n k (v : V) o x :
  sget k o = None -> sget x (insert_index n k v o) = if str_eqb x k then Some v else sget x o.
Proof.
  induction o as [|[k' v'] o IH]; intros Hk; cbn [insert_index].
  - rewrite sget_cons. reflexivity.
  - rewrite sget_cons in Hk. destruct (str_eqb_spec k k') as [_|Hkk]; [discriminate|].
    destruct (array_index k') as [n'|]; [destruct (n' <? n)%Z|].
    + rewrite !sget_cons, (IH Hk). destruct (str_eqb_spec x k') as [->|Hx]; [|reflexivity].
      rewrite str_eqb_neq by congruence. reflexivity.
    + reflexivity.
    + reflexivity.
Qed.

Lemma sget_obj_set {V} k (v : V) o x :
  sget x (obj_set k v o) =
  if str_eqb k "__proto__" then sget x o else if str_eqb x k then Some v else sget x o.
Proof.
  unfold obj_set. destruct (str_eqb k "__proto__"); [reflexivity|].
  destruct (shas k o) eqn:Eh; [apply sget_sset|].
  assert (Hk : sget k o = None).
  { destruct (sget k o) eqn:E; [|reflexivity]. exfalso.
    assert (Ht : shas k o = true) by (apply shas_sget; congruence). congruence. }
  destruct (array_index k) as [n|]; [exact (sget_insert_index n k v o x Hk)|].
  rewrite sget_app, sget_cons. destruct (str_eqb_spec x k) as [->|Hx].
  - rewrite Hk. reflexivity.
  - destruct (sget x o); reflexivity.
Qed.

(** ** groupByBranch *)



Lemma fold_parents_none_at {S} (step : string -> S -> option S) w : forall ps st,
  In w ps -> (forall s, step w s = None) -> fold_parents step ps st = None.
Proof.
  induction ps as [|p ps IH]; intros st Hw Hn; [contradiction|].
  rewrite fold_parents_cons. destruct Hw as [<-|Hw].
  - rewrite Hn. reflexivity.
  - destruct (step p st); [apply IH; assumption|reflexivity].
Qed.

Lemma edge_path_first edges a b : edge_path edges a b ->
  exists e, In e edges /\ from e = a /\ (to e = b \/ edge_path edges (to e) b).
Proof.
  induction 1 as [e He|a b c _ IH1 H2 _].
  - exists e; split; [exact He|split; [reflexivity|left; reflexivity]].
  - destruct IH1 as (e & He & Hf & [Ht|Hp]).
    + exists e; split; [exact He|split; [exact Hf|right; rewrite Ht; exact H2]].
    + exists e; split; [exact He|split; [exact Hf|right; exact (ep_trans _ _ _ _ Hp H2)]].
Qed.

Lemma reaches_cycle_step edges x :
  reaches_cycle edges x -> exists e, In e edges /\ from e = x /\ reaches_cycle edges (to e).
Proof.
  intros (y & [->|Hxy] & Hyy).
  - destruct (edge_path_first _ _ _ Hyy) as (e & He & Hf & Ht).
    exists e; split; [exact He|split; [exact Hf|]].
    exists x; split; [|exact Hyy]. destruct Ht as [Ht|Ht]; [left; symmetry; exact Ht|right; exact Ht].
  - destruct (edge_path_first _ _ _ Hxy) as (e & He & Hf & Ht).
    exists e; split; [exact He|split; [exact Hf|]].
    exists y; split; [|exact Hyy]. destruct Ht as [Ht|Ht]; [left; symmetry; exact Ht|right; exact Ht].
Qed.

Lemma reaches_cycle_back edges e : In e edges -> reaches_cycle edges (to e) ->
  reaches_cycle edges (from e).
Proof.
  intros He (y & Hy & Hyy). exists y; split; [|exact Hyy]. right.
  destruct Hy as [->|Hy]; [apply ep_edge; exact He|exact (ep_trans _ _ _ _ (ep_edge _ e He) Hy)].
Qed.

Lemma cycle_graph_adj_kept {N} `{Identified N} (nodes : list N) edges u w :
  In w (get_list u (cycle_graph nodes edges)) ->
  In u (map id nodes) /\ exists e, In e (kept_edges nodes edges) /\ from e = u /\ to e = w.
Proof.
  intros Hw. destruct (cycle_graph_adj _ _ _ _ Hw) as (e & He & Hu & Hwe).
  assert (Hk : In u (map id nodes)).
  { apply (cycle_graph_keys nodes edges). unfold get_list in Hw.
    destruct (sget u (cycle_graph nodes edges)); [discriminate|contradiction]. }
  split; [exact Hk|]. exists e. split; [|split; assumption].
  unfold kept_edges. apply filter_In. split; [exact He|]. apply JSSet_has_In. rewrite Hu; exact Hk.
Qed.

Section MetricsDfs.
Variable graph : JSMap.t (K := string) (V := list string).
Variable K : list Edge.
Variable ids : list string.
Hypothesis Hadj : forall u w, In w (get_list u graph) ->
  In u ids /\ exists e, In e K /\ from e = u /\ to e = w.
Hypothesis Hcomp : forall e, In e K -> In (to e) (get_list (from e) graph).

Lemma metrics_dfs_cycle : forall f x d m, reaches_cycle K x -> metrics_dfs graph f x d m = None.
Proof.
  induction f as [|f IH]; intros x d m Hx; [reflexivity|]. cbn [metrics_dfs].
  destruct (reaches_cycle_step K x Hx) as (e & He & Hf & Hc).
  apply (fold_parents_none_at _ (to e)); [rewrite <- Hf; apply Hcomp; exact He|].
  intros s; apply IH; exact Hc.
Qed.

Lemma metrics_dfs_spec : forall f x vg d m,
  NoDup vg -> ~ In x vg -> incl vg ids -> length ids + 1 < f + length vg ->
  (forall y, In y vg -> edge_path K y x) ->
  reaches_cycle K x \/
  exists m', metrics_dfs graph f x d m = Some m' /\ m <= m' /\
    (forall n, walk K x n -> d + n <= m') /\ (m' = m \/ exists n, walk K x n /\ m' = d + n).
Proof.
  induction f as [|f IHf]; intros x vg d m Hnd Hx Hi Hf Hp.
  { pose proof (NoDup_incl_length Hnd Hi). lia. }
  cbn [metrics_dfs].
  assert (Hloop : forall ns acc, incl ns (get_list x graph) ->
    Nat.max m d <= acc -> (acc = Nat.max m d \/ exists n, walk K x n /\ acc = d + n) ->
    reaches_cycle K x \/
    exists m', fold_parents (fun neighbor m => metrics_dfs graph f neighbor (S d) m) ns acc = Some m' /\
      acc <= m' /\ (forall w, In w ns -> forall n, walk K w n -> S d + n <= m') /\
      (m' = Nat.max m d \/ exists n, walk K x n /\ m' = d + n)).
  { induction ns as [|w ns IH]; intros acc Hns Hacc Hacc'.
    - right. exists acc. rewrite fold_parents_nil.
      split; [reflexivity|split; [lia|split; [intros w []|exact Hacc']]].
    - rewrite fold_parents_cons.
      assert (Hw : In w (get_list x graph)) by (apply Hns; left; reflexivity).
      destruct (Hadj x w Hw) as (HxI & e & He & Hfe & Hte).
      assert (Hxw : edge_path K x w) by (rewrite <- Hfe, <- Hte; apply ep_edge; exact He).
      destruct (in_dec string_dec w (x :: vg)) as [Hin|Hnin].
      { left. exists x. split; [left; reflexivity|].
        destruct Hin as [E|E]; [rewrite E at 2; exact Hxw|exact (ep_trans _ _ _ _ Hxw (Hp w E))]. }
      destruct (IHf w (x :: vg) (S d) acc) as [Hcw|(m1 & E1 & Hm1 & Hw1 & Hr1)].
      + constructor; assumption.
      + exact Hnin.
      + intros y [<-|Hy]; [exact HxI|exact (Hi y Hy)].
      + simpl; lia.
      + intros y [<-|Hy]; [exact Hxw|exact (ep_trans _ _ _ _ (Hp y Hy) Hxw)].
      + left. rewrite <- Hfe. apply reaches_cycle_back; [exact He|rewrite Hte; exact Hcw].
      + rewrite E1.
        destruct (IH m1) as [Hc|(m' & E' & Hm' & Hw' & Hr')].
        * intros y Hy; apply Hns; right; exact Hy.
        * lia.
        * destruct Hr1 as [->|(n & Hn & ->)]; [exact Hacc'|right].
          exists (S n). split; [|lia]. rewrite <- Hfe. apply walk_cons; [exact He|rewrite Hte; exact Hn].
        * left; exact Hc.
        * right. exists m'. split; [exact E'|split; [lia|split; [|exact Hr']]].
          intros w' [<-|Hw'']; [intros n Hn; specialize (Hw1 n Hn); lia|exact (Hw' w' Hw'')]. }
  destruct (Hloop (get_list x graph) (Nat.max m d) (incl_refl _) (le_n _) (or_introl eq_refl))
    as [Hc|(m' & E' & Hm' & Hw' & Hr')]; [left; exact Hc|right].
  exists m'. split; [exact E'|split; [lia|split]].
  - intros n Hn. inversion Hn as [x0 Ex|e n' He Hn' Ex En]; [lia|].
    specialize (Hw' (to e)). rewrite <- Ex in Hw'.
    specialize (Hw' (Hcomp e He) n' Hn'). lia.
  - destruct Hr' as [E|E]; [|right; exact E].
    destruct (Nat.max_spec m d) as [[Hlt Em]|[Hle Em]]; rewrite Em in E.
    + right. exists 0. split; [apply walk_nil|lia].
    + left; exact E.
Qed.

End MetricsDfs.

Lemma degrees_init {N} `{Identified N} (nodes : list N) : forall io v,
  sget v (fst (fold_left (fun '(i, o) n => (sset (id n) 0 i, sset (id n) 0 o)) nodes io)) =
    (if JSSet.has v (map id nodes) then Some 0 else sget v (fst io)) /\
  sget v (snd (fold_left (fun '(i, o) n => (sset (id n) 0 i, sset (id n) 0 o)) nodes io)) =
    (if JSSet.has v (map id nodes) then Some 0 else sget v (snd io)).
Proof.
  induction nodes as [|n ns IH]; intros [i o] v; [split; reflexivity|].
  cbn [fold_left map]. destruct (IH (sset (id n) 0 i, sset (id n) 0 o) v) as [E1 E2].
  rewrite E1, E2, JSSet_has_cons. cbn [fst snd]. rewrite !sget_sset.
  destruct (JSSet.has v (map id ns)), (str_eqb v (id n)); split; reflexivity.
Qed.

Lemma degrees_edges (es : list Edge) : forall io v ki ko,
  sget v (fst io) = Some ki -> sget v (snd io) = Some ko ->
  let io' := fold_left (fun '(i, o) e =>
      let o := sset (from e) (match sget (from e) o with Some k => k | None => 0 end + 1) o in
      let i := sset (to e) (match sget (to e) i with Some k => k | None => 0 end + 1) i in
      (i, o)) es io in
  sget v (fst io') = Some (ki + length (filter (fun e => str_eqb (to e) v) es)) /\
  sget v (snd io') = Some (ko + length (filter (fun e => str_eqb (from e) v) es)).
Proof.
  induction es as [|e es IH]; intros [i o] v ki ko Hi Ho; cbn [fst snd] in Hi, Ho; cbn [fold_left filter length].
  - rewrite !Nat.add_0_r; split; assumption.
  - cbv beta iota zeta in IH |- *.
    lazymatch goal with |- context [fold_left _ es (?i', ?o')] =>
      assert (Hi' : sget v i' = Some (ki + if str_eqb (to e) v then 1 else 0));
      [|assert (Ho' : sget v o' = Some (ko + if str_eqb (from e) v then 1 else 0));
        [|destruct (IH (i', o') v _ _ Hi' Ho') as [A B]]]
    end.
    + rewrite sget_sset. destruct (str_eqb_spec v (to e)) as [Ev|Ev].
      * subst v. rewrite Hi, str_eqb_refl. reflexivity.
      * rewrite str_eqb_neq by congruence. rewrite Nat.add_0_r. exact Hi.
    + rewrite sget_sset. destruct (str_eqb_spec v (from e)) as [Ev|Ev].
      * subst v. rewrite Ho, str_eqb_refl. reflexivity.
      * rewrite str_eqb_neq by congruence. rewrite Nat.add_0_r. exact Ho.
    + split; [rewrite A|rewrite B].
      * destruct (str_eqb (to e) v); cbn [length]; f_equal; lia.
      * destruct (str_eqb (from e) v); cbn [length]; f_equal; lia.
Qed.

Lemma degrees_node {N} `{Identified N} (nodes : list N) edges n : In n nodes ->
  sget (id n) (fst (degrees nodes edges)) = Some (length (filter (fun e => str_eqb (to e) (id n)) edges)) /\
  sget (id n) (snd (degrees nodes edges)) = Some (length (filter (fun e => str_eqb (from e) (id n)) edges)).
Proof.
  intros Hn. unfold degrees.
  destruct (degrees_init nodes ([], []) (id n)) as [A B].
  assert (Hh : JSSet.has (id n) (map id nodes) = true) by (apply JSSet_has_In, in_map, Hn).
  rewrite Hh in A, B.
  exact (degrees_edges edges _ (id n) 0 0 A B).
Qed.

Lemma filter_length_zero {A} (p : A -> bool) l :
  Nat.eqb (length (filter p l)) 0 = forallb (fun x => negb (p x)) l.
Proof. induction l as [|x l IH]; [reflexivity|]. simpl. destruct (p x); simpl; [reflexivity|exact IH]. Qed.

Lemma degree_zero_in {N} `{Identified N} (nodes : list N) edges n : In n nodes ->
  degree_zero (fst (degrees nodes edges)) n = forallb (fun e => negb (str_eqb (to e) (id n))) edges /\
  degree_zero (snd (degrees nodes edges)) n = forallb (fun e => negb (str_eqb (from e) (id n))) edges.
Proof.
  intros Hn. destruct (degrees_node nodes edges n Hn) as [A B]. unfold degree_zero.
  rewrite A, B.
  split; apply filter_length_zero.
Qed.

Lemma forallb_no_target (edges : list Edge) v :
  forallb (fun e => negb (str_eqb (to e) v)) edges = true <-> forall e, In e edges -> to e <> v.
Proof.
  rewrite forallb_forall. split.
  - intros H e He Ht. specialize (H e He). rewrite Ht, str_eqb_refl in H. discriminate.
  - intros H e He. specialize (H e He). rewrite str_eqb_neq by exact H. reflexivity.
Qed.

Lemma forallb_no_source (edges : list Edge) v :
  forallb (fun e => negb (str_eqb (from e) v)) edges = true <-> forall e, In e edges -> from e <> v.
Proof.
  rewrite forallb_forall. split.
  - intros H e He Ht. specialize (H e He). rewrite Ht, str_eqb_refl in H. discriminate.
  - intros H e He. specialize (H e He). rewrite str_eqb_neq by exact H. reflexivity.
Qed.

Lemma filter_ext_in_len {A} (f g : A -> bool) l :
  (forall x, In x l -> f x = g x) -> filter f l = filter g l.
Proof. intros H; apply filter_ext_in; exact H. Qed.

Lemma metrics_roots_fold {N} `{Identified N} (nodes : list N) edges : forall rs acc,
  incl rs (map id nodes) ->
  (exists r, In r rs /\ reaches_cycle (kept_edges nodes edges) r) \/
  exists m', fold_parents (fun rid m => metrics_dfs (cycle_graph nodes edges) (metrics_fuel nodes) rid 0 m) rs acc = Some m' /\
    acc <= m' /\ (forall r, In r rs -> forall n, walk (kept_edges nodes edges) r n -> n <= m') /\
    (m' = acc \/ exists r, In r rs /\ walk (kept_edges nodes edges) r m').
Proof.
  induction rs as [|r rs IH]; intros acc Hrs.
  - right. exists acc. rewrite fold_parents_nil. split; [reflexivity|split; [lia|split; [intros r []|left; reflexivity]]].
  - rewrite fold_parents_cons.
    destruct (metrics_dfs_spec (cycle_graph nodes edges) (kept_edges nodes edges) (map id nodes)
                (cycle_graph_adj_kept nodes edges) (cycle_graph_complete nodes edges)
                (metrics_fuel nodes) r [] 0 acc) as [Hc|(m1 & E1 & Hm1 & Hw1 & Hr1)].
    + constructor.
    + intros [].
    + intros y [].
    + unfold metrics_fuel. rewrite length_map. simpl. lia.
    + intros y [].
    + left. exists r. split; [left; reflexivity|exact Hc].
    + rewrite E1. destruct (IH m1) as [(r' & Hr' & Hc)|(m' & E' & Hm' & Hw' & Hr')].
      * intros y Hy; apply Hrs; right; exact Hy.
      * left. exists r'. split; [right; exact Hr'|exact Hc].
      * right. exists m'. split; [exact E'|split; [lia|split]].
        -- intros r0 [<-|Hr0] n Hn; [specialize (Hw1 n Hn); lia|exact (Hw' r0 Hr0 n Hn)].
        -- destruct Hr' as [->|(r0 & Hr0 & Hw0)]; [|right; exists r0; split; [right|]; assumption].
           destruct Hr1 as [->|(n & Hn & ->)]; [left; reflexivity|right].
           exists r. split; [left; reflexivity|exact Hn].
Qed.

Lemma metrics_roots_in {N} `{Identified N} (nodes : list N) edges inD outD r :
  degrees nodes edges = (inD, outD) ->
  In r (map id (filter (degree_zero inD) nodes)) <->
  exists n, In n nodes /\ id n = r /\ forall e, In e edges -> to e <> r.
Proof.
  intros Ed. rewrite in_map_iff. split.
  - intros (n & <- & Hn). apply filter_In in Hn as [Hn Hz].
    destruct (degree_zero_in nodes edges n Hn) as [A _]. rewrite Ed in A. cbn [fst] in A.
    rewrite A, forallb_no_target in Hz. exists n. split; [exact Hn|split; [reflexivity|exact Hz]].
  - intros (n & Hn & <- & Hz). exists n. split; [reflexivity|]. apply filter_In. split; [exact Hn|].
    destruct (degree_zero_in nodes edges n Hn) as [A _]. rewrite Ed in A. cbn [fst] in A.
    rewrite A, forallb_no_target. exact Hz.
Qed.

(** calculateGraphMetrics: the call fails (its recursion never ends) exactly when a cycle
    of the node graph is reachable from a root, that is from a node that no edge points to. *)
Theorem calculateGraphMetrics_none_iff {N} `{Identified N} (nodes : list N) (edges : list Edge) :
  calculateGraphMetrics nodes edges = None <->
  exists r, In r nodes /\ (forall e, In e edges -> to e <> id r) /\
    reaches_cycle (kept_edges nodes edges) (id r).
Proof.
  unfold calculateGraphMetrics. destruct (degrees nodes edges) as [inD outD] eqn:Ed. cbv zeta.
  split.
  - intros Hnone.
    destruct (metrics_roots_fold nodes edges (map id (filter (degree_zero inD) nodes)) 0)
      as [(r & Hr & Hc)|(m' & E' & _)].
    + intros r Hr. apply in_map_iff in Hr as (n & <- & Hn). apply in_map, (proj1 (filter_In _ _ _) Hn).
    + apply (metrics_roots_in nodes edges inD outD r Ed) in Hr as (n & Hn & <- & Hz).
      exists n. split; [exact Hn|split; [exact Hz|exact Hc]].
    + rewrite E' in Hnone. discriminate.
  - intros (r & Hr & Hz & Hc).
    rewrite (fold_parents_none_at _ (id r)); [reflexivity| |].
    + apply (metrics_roots_in nodes edges inD outD (id r) Ed). exists r. split; [exact Hr|split; [reflexivity|exact Hz]].
    + intros s. apply (metrics_dfs_cycle (cycle_graph nodes edges) (kept_edges nodes edges)
        (cycle_graph_complete nodes edges)). exact Hc.
Qed.

(** calculateGraphMetrics: a result counts the nodes and the edges as given, counts as roots the
    nodes that no edge points to and as leaves the nodes that no edge leaves. *)
Theorem calculateGraphMetrics_counts {N} `{Identified N} (nodes : list N) (edges : list Edge) gm :
  calculateGraphMetrics nodes edges = Some gm ->
  nodeCount gm = length nodes /\ edgeCount gm = length edges /\
  rootCount gm = length (filter (fun n => forallb (fun e => negb (str_eqb (to e) (id n))) edges) nodes) /\
  leafCount gm = length (filter (fun n => forallb (fun e => negb (str_eqb (from e) (id n))) edges) nodes).
Proof.
  unfold calculateGraphMetrics. destruct (degrees nodes edges) as [inD outD] eqn:Ed. cbv zeta.
  destruct (fold_parents _ _ _); [|discriminate]. intros E. injection E as <-. cbn.
  split; [reflexivity|split; [reflexivity|split]]; f_equal; apply filter_ext_in; intros v Hv;
    destruct (degree_zero_in nodes edges v Hv) as [A B]; rewrite Ed in A, B; assumption.
Qed.

(** calculateGraphMetrics: when it returns, maxDepth is the number of edges of a longest walk
    that starts at a root and follows edges leaving nodes (0 when there is none). *)
Theorem calculateGraphMetrics_maxDepth {N} `{Identified N} (nodes : list N) (edges : list Edge) gm :
  calculateGraphMetrics nodes edges = Some gm ->
  (forall r, In r nodes -> (forall e, In e edges -> to e <> id r) ->
     forall n, walk (kept_edges nodes edges) (id r) n -> n <= maxDepth gm) /\
  (maxDepth gm = 0 \/ exists r, In r nodes /\ (forall e, In e edges -> to e <> id r) /\
     walk (kept_edges nodes edges) (id r) (maxDepth gm)).
Proof.
  unfold calculateGraphMetrics. destruct (degrees nodes edges) as [inD outD] eqn:Ed. cbv zeta.
  destruct (metrics_roots_fold nodes edges (map id (filter (degree_zero inD) nodes)) 0)
    as [(r & Hr & Hc)|(m' & E' & _ & Hw & Hm)].
  - intros r Hr. apply in_map_iff in Hr as (n & <- & Hn). apply in_map, (proj1 (filter_In _ _ _) Hn).
  - rewrite (fold_parents_none_at _ r); [discriminate|exact Hr|].
    intros s. apply (metrics_dfs_cycle (cycle_graph nodes edges) (kept_edges nodes edges)
      (cycle_graph_complete nodes edges)). exact Hc.
  - rewrite E'. intros E. injection E as <-. cbn [maxDepth]. split.
    + intros r Hr Hz n Hn. apply (Hw (id r)); [|exact Hn].
      apply (metrics_roots_in nodes edges inD outD (id r) Ed). exists r. split; [exact Hr|split; [reflexivity|exact Hz]].
    + destruct Hm as [->|(r & Hr & Hwr)]; [left; reflexivity|right].
      apply (metrics_roots_in nodes edges inD outD r Ed) in Hr as (n & Hn & <- & Hz).
      exists n. split; [exact Hn|split; [exact Hz|exact Hwr]].
Qed.

Lemma calculateGraphMetrics_counts_witness :
  calculateGraphMetrics [node "c2"; node "c1"; node "c0"] [mkEdge "c2" "c1"; mkEdge "c1" "c0"] =
    Some (mkGraphMetrics 3 2 1 1 2 (2 # 3) (2 # 3)) /\
  nodeCount (mkGraphMetrics 3 2 1 1 2 (2 # 3) (2 # 3)) = length [node "c2"; node "c1"; node "c0"] /\
  edgeCount (mkGraphMetrics 3 2 1 1 2 (2 # 3) (2 # 3)) = length [mkEdge "c2" "c1"; mkEdge "c1" "c0"] /\
  rootCount (mkGraphMetrics 3 2 1 1 2 (2 # 3) (2 # 3)) =
    length (filter (fun n => forallb (fun e => negb (str_eqb (to e) (id n))) [mkEdge "c2" "c1"; mkEdge "c1" "c0"])
      [node "c2"; node "c1"; node "c0"]) /\
  leafCount (mkGraphMetrics 3 2 1 1 2 (2 # 3) (2 # 3)) =
    length (filter (fun n => forallb (fun e => negb (str_eqb (from e) (id n))) [mkEdge "c2" "c1"; mkEdge "c1" "c0"])
      [node "c2"; node "c1"; node "c0"]).
Proof.
  assert (E : calculateGraphMetrics [node "c2"; node "c1"; node "c0"] [mkEdge "c2" "c1"; mkEdge "c1" "c0"] =
    Some (mkGraphMetrics 3 2 1 1 2 (2 # 3) (2 # 3))) by (vm_compute; reflexivity).
  split; [exact E|exact (calculateGraphMetrics_counts _ _ _ E)].
Defined.

Lemma calculateGraphMetrics_maxDepth_witness :
  calculateGraphMetrics [node "c2"; node "c1"; node "c0"] [mkEdge "c2" "c1"; mkEdge "c1" "c0"] =
    Some (mkGraphMetrics 3 2 1 1 2 (2 # 3) (2 # 3)) /\
  (forall r, In r [node "c2"; node "c1"; node "c0"] ->
     (forall e, In e [mkEdge "c2" "c1"; mkEdge "c1" "c0"] -> to e <> id r) ->
     forall n, walk (kept_edges [node "c2"; node "c1"; node "c0"] [mkEdge "c2" "c1"; mkEdge "c1" "c0"]) (id r) n ->
     n <= maxDepth (mkGraphMetrics 3 2 1 1 2 (2 # 3) (2 # 3))) /\
  (maxDepth (mkGraphMetrics 3 2 1 1 2 (2 # 3) (2 # 3)) = 0 \/
   exists r, In r [node "c2"; node "c1"; node "c0"] /\
     (forall e, In e [mkEdge "c2" "c1"; mkEdge "c1" "c0"] -> to e <> id r) /\
     walk (kept_edges [node "c2"; node "c1"; node "c0"] [mkEdge "c2" "c1"; mkEdge "c1" "c0"]) (id r)
       (maxDepth (mkGraphMetrics 3 2 1 1 2 (2 # 3) (2 # 3)))).
Proof.
  assert (E : calculateGraphMetrics [node "c2"; node "c1"; node "c0"] [mkEdge "c2" "c1"; mkEdge "c1" "c0"] =
    Some (mkGraphMetrics 3 2 1 1 2 (2 # 3) (2 # 3))) by (vm_compute; reflexivity).
  split; [exact E|exact (calculateGraphMetrics_maxDepth _ _ _ E)].
Defined.

Lemma run_dfs_push_eq edges c vs : forall stack,
  run_dfs_push edges c vs stack =
  stack ++ map to (filter (fun e => str_eqb (from e) c && negb (JSSet.has (to e) vs)) edges).
Proof.
  unfold run_dfs_push. induction edges as [|e es IH]; intros stack; simpl; [rewrite app_nil_r; reflexivity|].
  destruct (str_eqb (from e) c && negb (JSSet.has (to e) vs)); rewrite IH; [rewrite <- app_assoc|]; reflexivity.
Qed.

Lemma filter_and_length_le {A} (p q : A -> bool) l :
  length (filter (fun x => p x && q x) l) <= length (filter p l).
Proof.
  induction l as [|x l IH]; simpl; [lia|]. destruct (p x); simpl; [destruct (q x); simpl|]; lia.
Qed.

Section RunDFS.
Variable edges : list Edge.
Variable start : string.

Let R y := y = start \/ edge_path edges start y.

Let discovered (l : list string) := forall l1 c l2, l = l1 ++ c :: l2 -> l1 <> [] ->
  exists e, In e edges /\ In (from e) l1 /\ to e = c.

Lemma R_step' c e : R c -> In e edges -> from e = c -> R (to e).
Proof.
  intros [->|Hc] He Hf; right.
  - rewrite <- Hf; apply ep_edge; exact He.
  - apply (ep_trans _ _ c); [exact Hc|rewrite <- Hf; apply ep_edge; exact He].
Qed.

Lemma discovered_snoc l c : discovered l -> (l = [] \/ exists e, In e edges /\ In (from e) l /\ to e = c) ->
  discovered (l ++ [c]).
Proof.
  intros Hd Hc l1 c' l2 E Hne.
  destruct l2 as [|c2 l2] using rev_ind.
  - apply app_inj_tail in E as [<- <-].
    destruct Hc as [->|Hc]; [congruence|exact Hc].
  - rewrite app_comm_cons, app_assoc in E. apply app_inj_tail in E as [E _].
    exact (Hd l1 c' l2 E Hne).
Qed.

Lemma run_dfs_loop_spec : forall f stack visited,
  length stack + length (filter (fun e => negb (JSSet.has (from e) visited)) edges) < f ->
  (forall x, In x visited -> forall e, In e edges -> from e = x ->
     In (to e) visited \/ In (to e) stack) ->
  (forall y, In y stack -> R y) -> (forall y, In y visited -> R y) ->
  (visited = [] -> In start stack) -> (forall v, hd_error visited = Some v -> v = start) ->
  (forall y, In y stack -> In y visited \/ (visited = [] /\ y = start) \/
     exists e, In e edges /\ In (from e) visited /\ to e = y) ->
  NoDup visited -> discovered visited ->
  exists vis, run_dfs_loop edges f stack visited visited = Some vis /\
    hd_error vis = Some start /\ NoDup vis /\ (forall x, In x vis <-> R x) /\ discovered vis.
Proof.
  induction f as [|f IH]; intros stack visited Hf Hcl Hrs Hrv Hv0 Hhd Hsrc Hnd Hdis; [lia|].
  destruct stack as [|s0 st0].
  - exists visited. split; [reflexivity|].
    destruct visited as [|v0 vs0]; [destruct (Hv0 eq_refl)|].
    assert (Hv : v0 = start) by (apply Hhd; reflexivity). subst v0.
    split; [reflexivity|split; [exact Hnd|split; [|exact Hdis]]].
    intros x. split; [exact (Hrv x)|].
    intros [->|Hx]; [left; reflexivity|].
    apply (closed_reach edges (start :: vs0)) with (a := start); [|exact Hx|left; reflexivity].
    intros y Hy e He Hfe. destruct (Hcl y Hy e He Hfe) as [H|[]]; exact H.
  - cbn [run_dfs_loop].
    assert (Es : s0 :: st0 = removelast (s0 :: st0) ++ [last (s0 :: st0) ""])
      by (apply app_removelast_last; discriminate).
    revert Es. generalize (last (s0 :: st0) "") as c. generalize (removelast (s0 :: st0)) as st.
    intros st c Es. rewrite Es in Hf, Hcl, Hrs, Hsrc, Hv0.
    rewrite length_app in Hf; cbn [length] in Hf.
    assert (HRc : R c) by (apply Hrs, in_or_app; right; left; reflexivity).
    destruct (JSSet.has c visited) eqn:Ec.
    + apply JSSet_has_In in Ec. apply IH; try assumption.
      * lia.
      * intros x Hx e He Hfe. destruct (Hcl x Hx e He Hfe) as [H|H]; [left; exact H|].
        apply in_app_or in H as [H|[<-|[]]]; [right; exact H|left; exact Ec].
      * intros y Hy; apply Hrs, in_or_app; left; exact Hy.
      * intros ->. destruct Ec.
      * intros y Hy; apply Hsrc, in_or_app; left; exact Hy.
    + assert (Hcn : ~ In c visited) by (intros Hi; apply JSSet_has_In in Hi; congruence).
      rewrite (JSSet_add_new c visited Hcn), run_dfs_push_eq.
      pose proof (count_unvisited_sources edges visited c Hcn) as Hcount.
      pose proof (filter_and_length_le (fun e => str_eqb (from e) c)
                    (fun e => negb (JSSet.has (to e) (visited ++ [c]))) edges) as Hle.
      assert (Hc : (visited = [] /\ c = start) \/
                   exists e, In e edges /\ In (from e) visited /\ to e = c).
      { destruct (Hsrc c (in_or_app st [c] c (or_intror (or_introl eq_refl)))) as [H|H];
          [contradiction|exact H]. }
      apply IH.
      * rewrite length_app, length_map. lia.
      * intros x Hx e He Hfe. apply in_app_or in Hx as [Hx|[<-|[]]].
        -- destruct (Hcl x Hx e He Hfe) as [H|H];
             [left; apply in_or_app; left; exact H|].
           apply in_app_or in H as [H|[<-|[]]].
           ++ right; apply in_or_app; left; exact H.
           ++ left; apply in_or_app; right; left; reflexivity.
        -- destruct (JSSet.has (to e) (visited ++ [c])) eqn:Et;
             [left; apply JSSet_has_In; exact Et|].
           right; apply in_or_app; right. apply in_map, filter_In.
           split; [exact He|rewrite Hfe, str_eqb_refl, Et; reflexivity].
      * intros y Hy. apply in_app_or in Hy as [Hy|Hy]; [apply Hrs, in_or_app; left; exact Hy|].
        apply in_map_iff in Hy as (e & <- & He). apply filter_In in He as [He Hfe].
        apply andb_prop in Hfe as [Hfe _].
        destruct (str_eqb_spec (from e) c) as [Hfe'|]; [|discriminate].
        exact (R_step' c e HRc He Hfe').
      * intros y Hy. apply in_app_or in Hy as [Hy|[<-|[]]]; [exact (Hrv y Hy)|exact HRc].
      * intros E. destruct visited; discriminate.
      * intros v Hv. destruct visited as [|v0 vs0].
        -- injection Hv as <-. destruct Hc as [[_ H]|(e & _ & [] & _)]; exact H.
        -- apply Hhd. exact Hv.
      * intros y Hy. apply in_app_or in Hy as [Hy|Hy].
        -- destruct (Hsrc y (in_or_app st [c] y (or_introl Hy))) as [H|[[E ->]|(e & He & Hfe & Hte)]].
           ++ left; apply in_or_app; left; exact H.
           ++ left; apply in_or_app; right; left.
              destruct Hc as [[_ H]|(e & _ & Hfe & _)]; [exact H|rewrite E in Hfe; destruct Hfe].
           ++ right; right. exists e. split; [exact He|split; [apply in_or_app; left; exact Hfe|exact Hte]].
        -- right; right.
           apply in_map_iff in Hy as (e & <- & He). apply filter_In in He as [He Hfe].
           apply andb_prop in Hfe as [Hfe _].
           destruct (str_eqb_spec (from e) c) as [Hfe'|]; [|discriminate].
           exists e. split; [exact He|split; [apply in_or_app; right; left; symmetry; exact Hfe'|reflexivity]].
      * apply NoDup_snoc; assumption.
      * apply discovered_snoc; [exact Hdis|].
        destruct Hc as [[E _]|H]; [left; exact E|right; exact H].
Qed.

End RunDFS.

(** runDFS: for a non-empty start commit the traversal always finishes. It reports, without
    repeats and starting with the start commit, exactly the ids reachable from it along edges
    (from source to target), each one after the first being the target of an edge whose source
    was reported earlier; visitedCount is the number of ids reported. *)
Theorem runDFS_traversal (startNode : string) (edges : list Edge) (Hs : startNode <> "") :
  exists visited,
    runDFS startNode edges =
      Some (VisDFS "Depth-First Search (DFS)" "Traverses the commit graph in depth-first order"
                   "Time: O(V + E), Space: O(V)" visited (length visited)) /\
    hd_error visited = Some startNode /\ NoDup visited /\
    (forall x, In x visited <-> x = startNode \/ edge_path edges startNode x) /\
    (forall l1 c l2, visited = l1 ++ c :: l2 -> l1 <> [] ->
       exists e, In e edges /\ In (from e) l1 /\ to e = c).
Proof.
  unfold runDFS. assert (Ht : str_truthy startNode = true).
  { unfold str_truthy. destruct (str_eqb_spec startNode empty_str) as [E|E]; [contradiction|reflexivity]. }
  rewrite Ht. cbn [negb].
  destruct (run_dfs_loop_spec edges startNode (run_dfs_fuel edges) [startNode] [])
    as (vis & E & Hhd & Hnd & Hin & Hdis).
  - unfold run_dfs_fuel. cbn [length].
    pose proof (filter_length_le (fun e => negb (JSSet.has (from e) [])) edges). lia.
  - intros x [].
  - intros y [<-|[]]; left; reflexivity.
  - intros y [].
  - intros _; left; reflexivity.
  - intros v Hv; discriminate.
  - intros y [<-|[]]. right; left; split; reflexivity.
  - constructor.
  - intros l1 c l2 E. destruct l1; discriminate.
  - rewrite E. exists vis. split; [reflexivity|split; [exact Hhd|split; [exact Hnd|split; [exact Hin|exact Hdis]]]].
Qed.

Lemma runDFS_traversal_witness :
  "c2" <> "" /\
  exists visited,
    runDFS "c2" [mkEdge "c2" "c1"; mkEdge "c1" "c0"; mkEdge "c3" "c1"] =
      Some (VisDFS "Depth-First Search (DFS)" "Traverses the commit graph in depth-first order"
                   "Time: O(V + E), Space: O(V)" visited (length visited)) /\
    hd_error visited = Some "c2" /\ NoDup visited /\
    (forall x, In x visited <-> x = "c2" \/ edge_path [mkEdge "c2" "c1"; mkEdge "c1" "c0"; mkEdge "c3" "c1"] "c2" x) /\
    (forall l1 c l2, visited = l1 ++ c :: l2 -> l1 <> [] ->
       exists e, In e [mkEdge "c2" "c1"; mkEdge "c1" "c0"; mkEdge "c3" "c1"] /\ In (from e) l1 /\ to e = c).
Proof.
  split; [discriminate|]. apply runDFS_traversal. discriminate.
Defined.

Lemma sset_length {V} k (v : V) (m : JSMap.t (K := string) (V := V)) :
  length (sset k v m) = length m + (if shas k m then 0 else 1).
Proof.
  unfold sset, shas, JSMap.has. induction m as [|[k' v'] m IH]; [reflexivity|].
  cbn [JSMap.set JSMap.get]. destruct (str_eqb k k'); cbn [length]; [lia|]. rewrite IH. lia.
Qed.

Lemma count_type_sset t k o objs :
  count_type t (sset k o objs) + has_type t (sget k objs) =
  count_type t objs + has_type t (Some o).
Proof.
  unfold count_type, sset, sget, JSMap.values.
  induction objs as [|[k' o'] objs IH]; cbn [JSMap.set JSMap.get map filter length snd].
  - cbn [has_type]. destruct (str_eqb (obj_type o) t); reflexivity.
  - destruct (str_eqb k k'); cbn [map filter snd].
    + cbn [has_type]. destruct (str_eqb (obj_type o) t), (str_eqb (obj_type o') t); cbn [length]; lia.
    + destruct (str_eqb (obj_type o') t); cbn [length]; lia.
Qed.

(** storeObject and getStats: storing an object adds one to totalObjects when its hash was
    not stored yet and leaves it otherwise. The count of each type gains the new object's
    type and loses the type of the object it replaces, if any. branches and currentBranch
    do not change. *)
Theorem storeObject_getStats (r : GitRepository) (o : GitObject) :
  let s := getStats r in
  let s' := getStats (fst (storeObject r o)) in
  totalObjects s' = totalObjects s + (if shas (obj_hash o) (objects r) then 0 else 1) /\
  totalCommits s' + has_type "commit" (getObject r (obj_hash o)) = totalCommits s + has_type "commit" (Some o) /\
  totalTrees s' + has_type "tree" (getObject r (obj_hash o)) = totalTrees s + has_type "tree" (Some o) /\
  totalBlobs s' + has_type "blob" (getObject r (obj_hash o)) = totalBlobs s + has_type "blob" (Some o) /\
  branches s' = branches s /\ currentBranch s' = currentBranch s.
Proof.
  cbv zeta. unfold getStats, storeObject, getObject. cbn [fst objects refs HEAD totalObjects totalCommits totalTrees totalBlobs branches currentBranch].
  rewrite sset_length. split; [reflexivity|].
  split; [apply count_type_sset|split; [apply count_type_sset|split; [apply count_type_sset|split; reflexivity]]].
Qed.

(** commit and getStats: when the new commit's hash is not stored yet, commit adds one to
    totalObjects and to totalCommits and leaves totalTrees and totalBlobs. branches grows by
    one exactly when the current branch had no ref yet, and currentBranch does not change. *)
Theorem commit_getStats (r : GitRepository) (treeHash message author now : string) :
  getObject r (commit_hash (snd (commit r treeHash message author now))) = None ->
  let s := getStats r in
  let s' := getStats (fst (commit r treeHash message author now)) in
  totalObjects s' = S (totalObjects s) /\ totalCommits s' = S (totalCommits s) /\
  totalTrees s' = totalTrees s /\ totalBlobs s' = totalBlobs s /\
  branches s' = branches s + (if shas (HEAD r) (refs r) then 0 else 1) /\
  currentBranch s' = currentBranch s.
Proof.
  unfold commit. cbv zeta. cbn [fst snd].
  set (c := new_GitCommit treeHash _ author message None now). intros Hn.
  unfold getStats, storeObject, getObject in *. cbn [fst objects refs HEAD obj_hash
    totalObjects totalCommits totalTrees totalBlobs branches currentBranch] in *.
  assert (Hs : shas (commit_hash c) (objects r) = false) by (unfold shas, JSMap.has; unfold sget in Hn; rewrite Hn; reflexivity).
  pose proof (count_type_sset "commit" (commit_hash c) (OCommit c) (objects r)) as A.
  pose proof (count_type_sset "tree" (commit_hash c) (OCommit c) (objects r)) as B.
  pose proof (count_type_sset "blob" (commit_hash c) (OCommit c) (objects r)) as C.
  rewrite Hn in A, B, C. cbn [has_type obj_type] in A, B, C. simpl str_eqb in A, B, C.
  cbv iota in A, B, C. rewrite !sset_length, Hs. repeat split; lia.
Qed.

Lemma commit_getStats_witness :
  getObject new_GitRepository (commit_hash (snd (commit new_GitRepository "t" "m" "a" "now"))) = None /\
  totalObjects (getStats (fst (commit new_GitRepository "t" "m" "a" "now"))) = S (totalObjects (getStats new_GitRepository)) /\
  totalCommits (getStats (fst (commit new_GitRepository "t" "m" "a" "now"))) = S (totalCommits (getStats new_GitRepository)) /\
  totalTrees (getStats (fst (commit new_GitRepository "t" "m" "a" "now"))) = totalTrees (getStats new_GitRepository) /\
  totalBlobs (getStats (fst (commit new_GitRepository "t" "m" "a" "now"))) = totalBlobs (getStats new_GitRepository) /\
  branches (getStats (fst (commit new_GitRepository "t" "m" "a" "now"))) =
    branches (getStats new_GitRepository) + (if shas (HEAD new_GitRepository) (refs new_GitRepository) then 0 else 1) /\
  currentBranch (getStats (fst (commit new_GitRepository "t" "m" "a" "now"))) = currentBranch (getStats new_GitRepository).
Proof.
  assert (H : getObject new_GitRepository (commit_hash (snd (commit new_GitRepository "t" "m" "a" "now"))) = None)
    by reflexivity.
  split; [exact H|exact (commit_getStats new_GitRepository "t" "m" "a" "now" H)].
Defined.

Lemma in_sset_pair {V} (k : string) (v : V) m b w :
  In (b, w) (sset k v m) -> (b = k /\ w = v) \/ In (b, w) m.
Proof.
  unfold sset. induction m as [|[k' v'] m IH]; cbn [JSMap.set].
  - intros [E|[]]; injection E as -> ->; left; split; reflexivity.
  - destruct (str_eqb_spec k k') as [->|Hn].
    + intros [E|H]; [injection E as -> ->; left; split; reflexivity|right; right; exact H].
    + intros [E|H]; [right; left; exact E|].
      destruct (IH H) as [H'|H']; [left; exact H'|right; right; exact H'].
Qed.

Lemma repo_built_refs r : repo_built r ->
  NoDup (map fst (refs r)) /\ forall b h, In (b, h) (refs r) -> str_truthy h = true.
Proof.
  induction 1 as [|r o Hr [Hn Ht]|r tr m a n Hr [Hn Ht]|r b hs Hr [Hn Ht]|r b Hr [Hn Ht]].
  - split; [constructor|intros b h []].
  - split; [exact Hn|exact Ht].
  - unfold commit; cbn [fst refs storeObject HEAD]. split; [apply NoDup_keys_sset; exact Hn|].
    intros b h Hbh. destruct (in_sset_pair _ _ _ _ _ Hbh) as [[_ ->]|H]; [|exact (Ht b h H)].
    unfold new_GitCommit; cbn [commit_hash]. apply GitHash_generate_truthy.
  - unfold createBranch. destruct (js_or hs (sget (HEAD r) (refs r))) as [h0|]; [|split; assumption].
    destruct (str_truthy h0) eqn:E; [|split; assumption]. cbn [refs].
    split; [apply NoDup_keys_sset; exact Hn|].
    intros b' h Hbh. destruct (in_sset_pair _ _ _ _ _ Hbh) as [[_ ->]|H]; [exact E|exact (Ht b' h H)].
  - unfold checkout. destruct (shas b (refs r)); split; assumption.
Qed.

Lemma fold_add_spec {A} (f : A -> string) (l : list A) : forall acc,
  NoDup acc ->
  NoDup (fold_left (fun s c => JSSet.add (f c) s) l acc) /\
  forall x, In x (fold_left (fun s c => JSSet.add (f c) s) l acc) <-> In x acc \/ In x (map f l).
Proof.
  induction l as [|a l IH]; intros acc Hacc; cbn [fold_left map].
  - split; [exact Hacc|intros x; simpl; tauto].
  - destruct (IH (JSSet.add (f a) acc) (JSSet_add_NoDup _ _ Hacc)) as [H1 H2].
    split; [exact H1|intros x; rewrite H2, JSSet_add_In; simpl; intuition (subst; auto)].
Qed.

Lemma all_commits_spec r : forall (rl : JSMap.t (K := string) (V := string)) acc,
  NoDup acc ->
  let all := fold_left (fun acc bh =>
                 fold_left (fun s c => JSSet.add (commit_hash c) s)
                           (getCommitHistory r (Some (snd bh))) acc) rl acc in
  NoDup all /\ forall x, In x all <-> In x acc \/
    exists bh, In bh rl /\ In x (map commit_hash (getCommitHistory r (Some (snd bh)))).
Proof.
  induction rl as [|bh rl IH]; intros acc Hacc; cbv zeta; cbn [fold_left].
  - split; [exact Hacc|intros x; split; [intros H; left; exact H|intros [H|(? & [] & _)]; exact H]].
  - destruct (fold_add_spec commit_hash (getCommitHistory r (Some (snd bh))) acc Hacc) as [N1 I1].
    destruct (IH _ N1) as [N2 I2]. split; [exact N2|].
    intros x. rewrite I2, I1. split.
    + intros [[H|H]|(bh' & Hb & H)]; [left; exact H|right; exists bh; split; [left; reflexivity|exact H]|].
      right; exists bh'; split; [right; exact Hb|exact H].
    + intros [H|(bh' & [<-|Hb] & H)]; [left; left; exact H|left; right; exact H|].
      right; exists bh'; split; assumption.
Qed.

Lemma history_hashes r h : keyed_store r -> str_truthy h = true ->
  forall x, In x (map commit_hash (getCommitHistory r (Some h))) <->
    hash_ancestor (objects r) h x /\ is_commit_at (objects r) x = true.
Proof.
  intros Hk Ht x. rewrite getCommitHistory_traverse.
  assert (Ej : js_or (Some h) (sget (HEAD r) (refs r)) = Some h)
    by (unfold js_or, opt_truthy; rewrite Ht; reflexivity).
  rewrite Ej, Ht. destruct (traverse_store_total r h []) as [anc Ea]. rewrite Ea.
  rewrite <- (traverse_ancestors _ _ _ _ Ea x). rewrite in_map_iff. split.
  - intros (c & <- & Hc). apply in_flat_map in Hc as (y & Hy & Hc).
    unfold commit_at in Hc. destruct (sget y (objects r)) as [[b|t|c']|] eqn:Ey; try contradiction.
    destruct Hc as [<-|[]].
    assert (Hy' : commit_hash c' = y) by exact (Hk y (OCommit c') Ey).
    rewrite Hy'. split; [exact Hy|unfold is_commit_at; rewrite Ey; reflexivity].
  - intros [Hx Hc]. unfold is_commit_at in Hc.
    destruct (sget x (objects r)) as [[b|t|c]|] eqn:Ex; try discriminate.
    exists c. split; [exact (Hk x (OCommit c) Ex)|].
    apply in_flat_map. exists x. split; [exact Hx|unfold commit_at; rewrite Ex; left; reflexivity].
Qed.

Lemma graph_build_spec r : forall hs n0 e0,
  (forall h, In h hs -> is_commit_at (objects r) h = true) ->
  fold_left
    (fun acc hash =>
       match acc with
       | None => None
       | Some (nodes, edges) =>
           match getObject r hash with
           | Some (OCommit c) =>
               Some (nodes ++ [mkCommitNode (commit_hash c) (substring 0 7 (commit_hash c))
                                  (commit_message c) (commit_author c)
                                  (commit_timestamp c) (commit_parents c)],
                     edges ++ map (fun p => mkEdge (commit_hash c) p) (commit_parents c))
           | Some _ => None
           | None => Some (nodes, edges)
           end
       end) hs (Some (n0, e0)) =
  Some (n0 ++ map (fun c => mkCommitNode (commit_hash c) (substring 0 7 (commit_hash c))
                       (commit_message c) (commit_author c) (commit_timestamp c) (commit_parents c))
                  (flat_map (commit_at (objects r)) hs),
        e0 ++ flat_map (fun c => map (fun p => mkEdge (commit_hash c) p) (commit_parents c))
                       (flat_map (commit_at (objects r)) hs)).
Proof.
  induction hs as [|h hs IH]; intros n0 e0 Hc; cbn [fold_left flat_map].
  - rewrite !app_nil_r. reflexivity.
  - assert (Hh := Hc h (or_introl eq_refl)). unfold is_commit_at in Hh. unfold getObject.
    unfold commit_at at 1 3. destruct (sget h (objects r)) as [[b|t|c]|]; try discriminate.
    rewrite IH by (intros y Hy; apply Hc; right; exact Hy).
    cbn [app map flat_map]. rewrite <- !app_assoc. reflexivity.
Qed.

Lemma sget_not_key {V} b (m : JSMap.t (K := string) (V := V)) : ~ In b (map fst m) -> sget b m = None.
Proof.
  unfold sget. induction m as [|[k v] m IH]; intros Hb; [reflexivity|]. cbn [JSMap.get].
  destruct (str_eqb_spec b k) as [->|_]; [exfalso; apply Hb; left; reflexivity|].
  apply IH. intros H; apply Hb; right; exact H.
Qed.

Lemma branches_fold_spec (rl : JSMap.t (K := string) (V := string)) : forall acc b,
  NoDup (map fst rl) -> b <> "__proto__" ->
  sget b (fold_left (fun m bh => obj_set (fst bh) (snd bh) m) rl acc) =
  match sget b rl with Some w => Some w | None => sget b acc end.
Proof.
  induction rl as [|[k v] rl IH]; intros acc b Hn Hp; cbn [fold_left map fst snd]; [reflexivity|].
  inversion Hn as [|k' l' Hk Hn' E]; subst.
  rewrite (IH _ b Hn' Hp), sget_cons, sget_obj_set.
  destruct (str_eqb_spec b k) as [->|Hb].
  - rewrite (sget_not_key k rl Hk), (str_eqb_neq _ _ Hp). reflexivity.
  - destruct (str_eqb k "__proto__"); reflexivity.
Qed.

Lemma branches_fold_proto (rl : JSMap.t (K := string) (V := string)) : forall acc,
  sget "__proto__" (fold_left (fun m bh => obj_set (fst bh) (snd bh) m) rl acc) =
  sget "__proto__" acc.
Proof.
  induction rl as [|[k v] rl IH]; intros acc; cbn [fold_left fst snd]; [reflexivity|].
  rewrite IH, sget_obj_set. destruct (str_eqb_spec k "__proto__") as [->|Hk]; [reflexivity|].
  rewrite str_eqb_neq by congruence. reflexivity.
Qed.

Lemma commit_hashes_at r hs : keyed_store r ->
  (forall h, In h hs -> is_commit_at (objects r) h = true) ->
  map commit_hash (flat_map (commit_at (objects r)) hs) = hs.
Proof.
  intros Hk. induction hs as [|h hs IH]; intros Hc; [reflexivity|]. cbn [flat_map].
  assert (Hh := Hc h (or_introl eq_refl)). unfold is_commit_at in Hh. unfold commit_at at 1.
  destruct (sget h (objects r)) as [[b|t|c]|] eqn:Eh; try discriminate.
  cbn [app map]. rewrite IH by (intros y Hy; apply Hc; right; exact Hy).
  f_equal. exact (Hk h (OCommit c) Eh).
Qed.

(** getCommitGraph: for a repository built from new GitRepository() by storeObject, commit,
    createBranch and checkout, the snapshot always exists. Its node ids are distinct and are
    exactly the hashes of the commits reachable through parents from some ref's target; each
    node carries the data of the commit stored under its id; the edges are exactly the links
    from each node to each of its parents; branches resolves every name other than __proto__
    as refs does and has no own __proto__ entry (a plain object ignores that assignment), and
    HEAD is the repository's. *)
Theorem getCommitGraph_snapshot (r : GitRepository) (Hr : repo_built r) :
  exists g, getCommitGraph r = Some g /\
    NoDup (map cn_id (graph_nodes g)) /\
    (forall x, In x (map cn_id (graph_nodes g)) <->
       (exists b h, In (b, h) (refs r) /\ hash_ancestor (objects r) h x) /\
       is_commit_at (objects r) x = true) /\
    (forall n, In n (graph_nodes g) -> exists c, getObject r (cn_id n) = Some (OCommit c) /\
       n = mkCommitNode (commit_hash c) (substring 0 7 (commit_hash c)) (commit_message c)
             (commit_author c) (commit_timestamp c) (commit_parents c)) /\
    (forall e, In e (graph_edges g) <->
       exists n, In n (graph_nodes g) /\ from e = cn_id n /\ In (to e) (cn_parents n)) /\
    (forall b, b <> "__proto__" -> sget b (graph_branches g) = sget b (refs r)) /\
    sget "__proto__" (graph_branches g) = None /\
    graph_HEAD g = HEAD r.
Proof.
  destruct (repo_built_invariant r Hr) as [Hk _]. destruct (repo_built_refs r Hr) as [Hn Ht].
  destruct (all_commits_spec r (refs r) [] (NoDup_nil _)) as [Nall Iall].
  unfold getCommitGraph; cbv zeta in *.
  set (all := fold_left (fun acc bh =>
                 fold_left (fun s c => JSSet.add (commit_hash c) s)
                           (getCommitHistory r (Some (snd bh))) acc) (refs r) []) in *.
  assert (Iall' : forall x, In x all <->
            (exists b h, In (b, h) (refs r) /\ hash_ancestor (objects r) h x) /\
            is_commit_at (objects r) x = true).
  { intros x. rewrite Iall. split.
    - intros [[]|([b h] & Hbh & Hx)]. cbn [snd] in Hx.
      apply (history_hashes r h Hk (Ht b h Hbh)) in Hx as [Ha Hc].
      split; [exists b, h; split; assumption|exact Hc].
    - intros [(b & h & Hbh & Ha) Hc]. right. exists (b, h). split; [exact Hbh|].
      apply (history_hashes r h Hk (Ht b h Hbh)). split; assumption. }
  assert (Hcall : forall h, In h all -> is_commit_at (objects r) h = true)
    by (intros h Hh; apply Iall' in Hh; exact (proj2 Hh)).
  rewrite (graph_build_spec r all [] [] Hcall). cbn [app].
  eexists; split; [reflexivity|]. cbn [graph_nodes graph_edges graph_branches graph_HEAD].
  match goal with |- NoDup (map cn_id ?L) /\ _ =>
    assert (Eids : map cn_id L = all)
      by (rewrite map_map; exact (commit_hashes_at r all Hk Hcall)); rewrite Eids end.
  split; [exact Nall|split; [exact Iall'|split; [|split; [|split; [|split; [|reflexivity]]]]]].
  - intros n Hn'. apply in_map_iff in Hn' as (c & <- & Hc). exists c. split; [|reflexivity].
    cbn [cn_id]. apply in_flat_map in Hc as (y & _ & Hc). unfold commit_at in Hc.
    destruct (sget y (objects r)) as [[b|t|c']|] eqn:Ey; try contradiction.
    destruct Hc as [<-|[]]. unfold getObject.
    assert (E : commit_hash c' = y) by exact (Hk y (OCommit c') Ey). rewrite E. exact Ey.
  - intros e. rewrite in_flat_map. split.
    + intros (c & Hc & He). apply in_map_iff in He as (p & <- & Hp).
      exists (mkCommitNode (commit_hash c) (substring 0 7 (commit_hash c)) (commit_message c)
                (commit_author c) (commit_timestamp c) (commit_parents c)).
      split; [apply in_map_iff; exists c; split; [reflexivity|exact Hc]|split; [reflexivity|exact Hp]].
    + intros (n & Hn' & Hf & Hp). apply in_map_iff in Hn' as (c & <- & Hc).
      exists c. split; [exact Hc|]. apply in_map_iff. exists (to e). split; [|exact Hp].
      destruct e as [f t]. cbn [from to cn_id] in *. rewrite Hf. reflexivity.
  - intros b Hb. rewrite (branches_fold_spec (refs r) [] b Hn Hb). destruct (sget b (refs r)); reflexivity.
  - rewrite branches_fold_proto. reflexivity.
Qed.

Lemma getCommitGraph_snapshot_witness :
  exists g, getCommitGraph sample_repo = Some g /\
    NoDup (map cn_id (graph_nodes g)) /\
    (forall x, In x (map cn_id (graph_nodes g)) <->
       (exists b h, In (b, h) (refs sample_repo) /\ hash_ancestor (objects sample_repo) h x) /\
       is_commit_at (objects sample_repo) x = true) /\
    (forall n, In n (graph_nodes g) -> exists c, getObject sample_repo (cn_id n) = Some (OCommit c) /\
       n = mkCommitNode (commit_hash c) (substring 0 7 (commit_hash c)) (commit_message c)
             (commit_author c) (commit_timestamp c) (commit_parents c)) /\
    (forall e, In e (graph_edges g) <->
       exists n, In n (graph_nodes g) /\ from e = cn_id n /\ In (to e) (cn_parents n)) /\
    (forall b, b <> "__proto__" -> sget b (graph_branches g) = sget b (refs sample_repo)) /\
    sget "__proto__" (graph_branches g) = None /\
    graph_HEAD g = HEAD sample_repo.
Proof. exact (getCommitGraph_snapshot sample_repo sample_repo_built). Defined.

Lemma repeat_chr_add c a b : repeat_chr c (a + b) = (repeat_chr c a ++ repeat_chr c b)%string.
Proof. induction a as [|a IH]; simpl; [reflexivity|rewrite IH; reflexivity]. Qed.

Lemma string_app_assoc (a b c : string) : ((a ++ b) ++ c)%string = (a ++ (b ++ c))%string.
Proof. induction a as [|x a IH]; simpl; [reflexivity|rewrite IH; reflexivity]. Qed.

Lemma list_ascii_app (a b : string) :
  list_ascii_of_string (a ++ b) = list_ascii_of_string a ++ list_ascii_of_string b.
Proof. induction a as [|x a IH]; simpl; [reflexivity|rewrite IH; reflexivity]. Qed.

Lemma hex_digit_in k : k < 16 -> In (hex_digit k) (list_ascii_of_string "0123456789abcdef").
Proof.
  intros Hk. do 16 (destruct k as [|k]; [cbn; repeat (first [left; reflexivity|right])|]). lia.
Qed.

Lemma to_hex_aux_chars f : forall n acc,
  (0 <= n)%Z ->
  (forall c, In c (list_ascii_of_string acc) -> In c (list_ascii_of_string "0123456789abcdef")) ->
  forall c, In c (list_ascii_of_string (to_hex_aux f n acc)) ->
    In c (list_ascii_of_string "0123456789abcdef").
Proof.
  induction f as [|f IH]; intros n acc Hn Hacc c Hc; [exact (Hacc c Hc)|].
  cbn [to_hex_aux] in Hc.
  pose proof (Z.mod_pos_bound n 16 ltac:(lia)) as Hm.
  assert (Hacc' : forall c, In c (list_ascii_of_string (String (hex_digit (Z.to_nat (n mod 16))) acc)) ->
                    In c (list_ascii_of_string "0123456789abcdef")).
  { intros c' [<-|Hc']; [apply hex_digit_in; lia|exact (Hacc c' Hc')]. }
  destruct (n <? 16)%Z; [exact (Hacc' c Hc)|].
  apply (IH (n / 16)%Z _ ltac:(apply Z.div_pos; lia) Hacc' c Hc).
Qed.

Lemma hash32_abs_le s : (Z.abs (hash32 s) <= 2 ^ 31)%Z.
Proof. pose proof (hash32_from_range s 0 ltac:(lia)) as H. unfold hash32; lia. Qed.

(** GitHash.generate: a fingerprint is 32 characters '0' followed by 8 lowercase hexadecimal
    digits, which spell the absolute value of the 32-bit hash of the JSON text; that value is
    at most 2^31, so at most 2^31 + 1 fingerprints exist. *)
Theorem GitHash_generate_shape (j : json) :
  exists tail, GitHash_generate j = (repeat_chr "0" 32 ++ tail)%string /\
    String.length tail = 8 /\
    (forall c, In c (list_ascii_of_string tail) -> In c (list_ascii_of_string "0123456789abcdef")) /\
    of_hex_from 0 tail = Z.abs (hash32 (stringify j)) /\
    (Z.abs (hash32 (stringify j)) <= 2 ^ 31)%Z.
Proof.
  pose proof (of_hex_GitHash_generate j) as Hv0.
  pose proof (hash32_abs_le (stringify j)) as Hle.
  unfold GitHash_generate, slice, to_hex in *. change (40 - 0) with 40 in *.
  generalize (hash32_abs_bound (stringify j)). revert Hv0 Hle.
  generalize (Z.abs (hash32 (stringify j))) as n; intros n Hv0 Hle Hn.
  pose proof (length_to_hex_aux 64 n EmptyString 7 Hn) as Hl.
  cbn [String.length] in Hl.
  pose proof (to_hex_aux_chars 64 n EmptyString ltac:(lia) ltac:(intros c [])) as Hc.
  revert Hl Hc Hv0.
  generalize (to_hex_aux 64 n EmptyString) as h; intros h Hl Hc Hv0.
  unfold pad_start in *.
  destruct (Nat.leb_spec 40 (String.length h)); [lia|].
  assert (Hs : String.length (repeat_chr "0" (40 - String.length h) ++ h) = 40)
    by (rewrite length_append, length_repeat_chr; lia).
  assert (E : substring 0 40 (repeat_chr "0" (40 - String.length h) ++ h) =
               (repeat_chr "0" (40 - String.length h) ++ h)%string)
    by (rewrite <- Hs at 1; apply substring_full).
  rewrite E in Hv0 |- *.
  replace (40 - String.length h) with (32 + (8 - String.length h)) in Hv0 |- * by lia.
  rewrite repeat_chr_add, string_app_assoc in Hv0 |- *.
  exists (repeat_chr "0" (8 - String.length h) ++ h)%string.
  split; [reflexivity|split; [rewrite length_append, length_repeat_chr; lia|split; [|split; [|exact Hle]]]].
  - intros c. rewrite list_ascii_app. intros Hin. apply in_app_or in Hin as [Hin|Hin]; [|exact (Hc c Hin)].
    revert Hin. generalize (8 - String.length h) as k. intros k.
    induction k as [|k IHk]; intros Hin; cbn in Hin; [destruct Hin|].
    destruct Hin as [<-|Hin]; [cbn; left; reflexivity|exact (IHk Hin)].
  - rewrite of_hex_repeat_zero in Hv0. exact Hv0.
Qed.

Lemma nth_In_combine_seq {A} (l : list A) s i k :
  nth_error l i = Some k -> In (s + i, k) (combine (seq s (length l)) l).
Proof.
  revert s i; induction l as [|a l IH]; intros s i Hi; [destruct i; discriminate|].
  destruct i as [|i]; simpl in Hi |- *.
  - injection Hi as ->. left. rewrite Nat.add_0_r. reflexivity.
  - right. replace (s + S i) with (S s + i) by lia. exact (IH (S s) i Hi).
Qed.

Lemma assign_layers_keys (sorted : list string) :
  NoDup sorted -> map fst (assign_layers sorted) = sorted.
Proof. intros Hnd. rewrite (assign_layers_eq sorted Hnd), map_map. exact (combine_seq_snd sorted 0). Qed.

Lemma assign_layers_nth (sorted : list string) i k :
  NoDup sorted -> nth_error sorted i = Some k ->
  sget k (assign_layers sorted) = Some (length sorted - i - 1).
Proof.
  intros Hnd Hi. apply In_sget; [rewrite (assign_layers_keys sorted Hnd); exact Hnd|].
  rewrite (assign_layers_eq sorted Hnd). apply in_map_iff. exists (i, k).
  split; [reflexivity|]. exact (nth_In_combine_seq sorted 0 i k Hi).
Qed.

Lemma assign_layers_some (sorted : list string) k l :
  NoDup sorted -> sget k (assign_layers sorted) = Some l ->
  exists i, nth_error sorted i = Some k /\ i < length sorted /\ l = length sorted - i - 1.
Proof.
  intros Hnd Hk. apply sget_In in Hk. rewrite (assign_layers_eq sorted Hnd) in Hk.
  apply in_map_iff in Hk as ([i k'] & Ep & Hp). cbn [fst snd] in Ep. injection Ep as E1 E2. subst k' l.
  apply In_combine_seq in Hp as [Hr Hnth]. rewrite Nat.sub_0_r in Hnth.
  exists i. split; [exact Hnth|split; [lia|reflexivity]].
Qed.

Lemma assign_layers_none (sorted : list string) k :
  NoDup sorted -> ~ In k sorted -> sget k (assign_layers sorted) = None.
Proof.
  intros Hnd Hk. destruct (sget k (assign_layers sorted)) eqn:E; [|reflexivity].
  exfalso; apply Hk. rewrite <- (assign_layers_keys sorted Hnd). apply sget_keys. congruence.
Qed.

Lemma before_nth_error (x y : string) (l : list string) :
  before x y l -> exists ix iy, nth_error l ix = Some x /\ nth_error l iy = Some y /\
    ix < iy < length l.
Proof.
  intros (l1 & l2 & -> & H1 & H2).
  apply In_nth_error in H1 as [ix Hx], H2 as [j Hy].
  assert (Hix : ix < length l1) by (apply nth_error_Some; congruence).
  assert (Hj : j < length l2) by (apply nth_error_Some; congruence).
  exists ix, (length l1 + j). split; [|split].
  - rewrite nth_error_app1 by exact Hix. exact Hx.
  - rewrite nth_error_app2 by lia. replace (length l1 + j - length l1) with j by lia. exact Hy.
  - rewrite length_app. lia.
Qed.

(** calculateLayout on any edges: for a nonempty node list with distinct ids,
    it always returns the nodes in their input order. A node gets a layer
    exactly when no cycle of the counted edges reaches it; such a node gets
    x = 0 and y = layer * verticalGap + nodeHeight / 2, and no two nodes share
    a layer. A node on or below a cycle comes back unchanged, without
    coordinates. For an edge whose source is a node id and whose target has a
    layer, the source has a smaller layer. *)
Theorem calculateLayout_cycles {N} `{Identified N} `{Positioned N}
    (nodes : list N) (edges : list Edge) (options : LayoutOptions) :
  nodes <> [] -> NoDup (map id nodes) ->
  exists (layer : string -> option nat) (x0 : Q), (x0 == 0)%Q /\
    (forall n, In n nodes ->
       (exists l, layer (id n) = Some l) <->
       ~ exists y, edge_path (topo_edges nodes edges) y y /\
                   (y = id n \/ edge_path (topo_edges nodes edges) y (id n))) /\
    (forall a b l, In a nodes -> In b nodes -> layer (id a) = Some l -> layer (id b) = Some l ->
       a = b) /\
    (forall e lt, In e edges -> In (from e) (map id nodes) -> layer (to e) = Some lt ->
       exists lf, layer (from e) = Some lf /\ lf < lt) /\
    calculateLayout nodes edges options =
      Some (map (fun n => match layer (id n) with
                          | Some l => set_xy n x0
                              (inject_Z (Z.of_nat l) * with_default (opt_verticalGap options) 100
                               + with_default (opt_nodeHeight options) 60 / 2)%Q
                          | None => n
                          end) nodes).
Proof.
  intros Hne Hnd.
  destruct (topologicalSort_total_spec nodes edges) as (sorted & Ht & Hnds & Hiff & Hbef).
  set (L := assign_layers sorted).
  assert (HL : L = map (fun p => (snd p, length sorted - fst p - 1))
                     (combine (seq 0 (length sorted)) sorted))
    by exact (assign_layers_eq sorted Hnds).
  assert (HLfst : map fst L = sorted) by exact (assign_layers_keys sorted Hnds).
  assert (HLsnd : map snd L = map (fun i => length sorted - i - 1) (seq 0 (length sorted))).
  { transitivity (map (fun i => length sorted - i - 1) (map fst (combine (seq 0 (length sorted)) sorted))).
    - rewrite HL, !map_map. reflexivity.
    - rewrite combine_seq_fst. reflexivity. }
  assert (Hfst : NoDup (map fst L)) by (rewrite HLfst; exact Hnds).
  assert (Hsnd : NoDup (map snd L)).
  { rewrite HLsnd. apply NoDup_map_NoDup_ForallPairs; [|apply seq_NoDup].
    intros a b Ha Hb E. apply in_seq in Ha, Hb. lia. }
  assert (Hcount : count_layers L = map (fun p => (snd p, 1)) L).
  { unfold count_layers. rewrite count_fold; [reflexivity|exact Hsnd|intros; reflexivity]. }
  assert (Hc : forall l, In l (map snd L) -> nget l (count_layers L) = Some 1).
  { intros l Hl. rewrite Hcount. exact (nget_ones L l Hl). }
  exists (fun k => sget k L),
    (- (inject_Z (Z.of_nat 1) * with_default (opt_nodeWidth options) 120
        + (inject_Z (Z.of_nat 1) - 1) * with_default (opt_horizontalGap options) 150) / 2
     + inject_Z (Z.of_nat 0) * (with_default (opt_nodeWidth options) 120
                                + with_default (opt_horizontalGap options) 150)
     + with_default (opt_nodeWidth options) 120 / 2)%Q.
  split; [apply layer_x_zero|]. split; [|split; [|split]].
  - intros n Hn. split.
    + intros [l Hl]. apply assign_layers_some in Hl as (i & Hi & _); [|exact Hnds].
      apply nth_error_In, Hiff in Hi. exact (proj2 Hi).
    + intros Hno. assert (Hin : In (id n) sorted) by (apply Hiff; split; [apply in_map, Hn|exact Hno]).
      apply In_nth_error in Hin as [i Hi]. exists (length sorted - i - 1).
      exact (assign_layers_nth sorted i (id n) Hnds Hi).
  - intros a b l Ha Hb Ea Eb.
    apply assign_layers_some in Ea as (ia & Hia & Hla & ->); [|exact Hnds].
    apply assign_layers_some in Eb as (ib & Hib & Hlb & E); [|exact Hnds].
    assert (ia = ib) as <- by lia.
    apply (NoDup_map_inj id nodes a b Hnd Ha Hb). congruence.
  - intros e lt He Hfrom Elt.
    apply assign_layers_some in Elt as (it & Hit & Hlt & ->); [|exact Hnds].
    destruct (before_nth_error (to e) (from e) sorted (Hbef e He Hfrom (nth_error_In _ _ Hit)))
      as (ix & iy & Hx & Hy & Hr).
    assert (ix = it) as ->.
    { apply (proj1 (NoDup_nth_error sorted) Hnds ix it); [lia|congruence]. }
    exists (length sorted - iy - 1). split; [exact (assign_layers_nth sorted iy (from e) Hnds Hy)|lia].
  - destruct nodes as [|n0 ns]; [congruence|].
    unfold calculateLayout. rewrite Ht. cbv beta iota zeta. change (assign_layers sorted) with L.
    rewrite (nodemap_init (n0 :: ns) [] Hnd (fun _ _ => eq_refl)), app_nil_l.
    destruct (place_fold (with_default (opt_nodeWidth options) 120)
                (with_default (opt_nodeHeight options) 60)
                (with_default (opt_horizontalGap options) 150)
                (with_default (opt_verticalGap options) 100)
                (count_layers L) (n0 :: ns) Hnd L Hfst Hsnd
                ltac:(rewrite HLfst; intros x Hx; exact (proj1 (proj1 (Hiff x) Hx))) Hc [] (fun n => n)
                (fun _ _ => eq_refl) (fun _ _ _ => eq_refl)) as [lp' E].
    cbv beta in E.
    match type of E with
    | _ = ?R => match goal with
                | |- context [fold_left ?F ?L0 ?A] =>
                    replace (fold_left F L0 A) with R by first [exact E|symmetry; exact E]
                end
    end.
    cbv beta iota. unfold JSMap.values. rewrite map_map. reflexivity.
Qed.

Lemma calculateLayout_cycles_witness :
  exists (layer : string -> option nat) (x0 : Q), (x0 == 0)%Q /\
    (forall n, In n [node "A"; node "B"; node "C"; node "D"] ->
       (exists l, layer (id n) = Some l) <->
       ~ exists y, edge_path (topo_edges [node "A"; node "B"; node "C"; node "D"] [mkEdge "A" "B"; mkEdge "B" "A"; mkEdge "B" "C"; mkEdge "D" "A"]) y y /\
                   (y = id n \/ edge_path (topo_edges [node "A"; node "B"; node "C"; node "D"] [mkEdge "A" "B"; mkEdge "B" "A"; mkEdge "B" "C"; mkEdge "D" "A"]) y (id n))) /\
    (forall a b l, In a [node "A"; node "B"; node "C"; node "D"] -> In b [node "A"; node "B"; node "C"; node "D"] -> layer (id a) = Some l -> layer (id b) = Some l ->
       a = b) /\
    (forall e lt, In e [mkEdge "A" "B"; mkEdge "B" "A"; mkEdge "B" "C"; mkEdge "D" "A"] -> In (from e) (map id [node "A"; node "B"; node "C"; node "D"]) -> layer (to e) = Some lt ->
       exists lf, layer (from e) = Some lf /\ lf < lt) /\
    calculateLayout [node "A"; node "B"; node "C"; node "D"] [mkEdge "A" "B"; mkEdge "B" "A"; mkEdge "B" "C"; mkEdge "D" "A"] no_options =
      Some (map (fun n => match layer (id n) with
                          | Some l => set_xy n x0
                              (inject_Z (Z.of_nat l) * with_default (opt_verticalGap no_options) 100
                               + with_default (opt_nodeHeight no_options) 60 / 2)%Q
                          | None => n
                          end) [node "A"; node "B"; node "C"; node "D"]).
Proof.
  apply (calculateLayout_cycles [node "A"; node "B"; node "C"; node "D"] [mkEdge "A" "B"; mkEdge "B" "A"; mkEdge "B" "C"; mkEdge "D" "A"] no_options).
  - discriminate.
  - vm_compute. repeat (constructor; [simpl; intuition discriminate|]). constructor.
Defined.

Lemma findShortestPath_total (s t : string) (edges : list Edge) :
  exists r, findShortestPath s t edges = Some r /\
    (forall p, r = Some p -> upath edges s t p /\
       forall q, upath edges s t q -> length p <= length q) /\
    (r = None <-> forall q, ~ upath edges s t q).
Proof.
  destruct (str_eqb_spec s t) as [<-|Hne].
  - exists (Some [s]). unfold findShortestPath. rewrite str_eqb_refl.
    split; [reflexivity|split].
    + intros p [= <-]. split; [apply up_start|]. intros q Hq. exact (upath_length _ _ _ _ Hq).
    + split; [discriminate|]. intros Hno. exfalso. exact (Hno [s] (up_start edges s)).
  - assert (Hinit : sp_inv edges s t 1 [[s]] [s] []).
    { unfold sp_inv. repeat match goal with |- _ /\ _ => split end.
      - exists [[s]], []. split; [reflexivity|].
        split; [intros p [<-|[]]; reflexivity|intros p []].
      - intros p [<-|[]]. apply up_start.
      - intros p q [<-|[]] Hq. exact (upath_length _ _ _ _ Hq).
      - intros x; simpl; tauto.
      - intros u w [].
      - intros v q Hv Hq. pose proof (upath_length _ _ _ _ Hq).
        destruct (Nat.eq_dec (length q) 1) as [E|]; [|lia].
        exfalso; apply Hv. left. symmetry. exact (upath_one _ _ _ _ Hq E).
      - intros [].
      - left; reflexivity. }
    assert (Hnd : NoDup [s]) by (constructor; [intros []|constructor]).
    assert (Hincl : incl [s] (sp_universe s edges)) by (intros x [<-|[]]; left; reflexivity).
    assert (Hfuel : length [[s]] + (length (sp_universe s edges) - length [s]) < 2 * length edges + 2)
      by (rewrite sp_universe_length; simpl; lia).
    destruct (sp_loop_spec edges s t _ _ _ _ _ Hinit Hnd Hincl Hfuel) as (r & Er & Hsome & Hnone).
    exists r. unfold findShortestPath. rewrite (str_eqb_neq _ _ Hne).
    split; [exact Er|split; [exact Hsome|split; [exact Hnone|]]].
    intros Hno. destruct r as [p|]; [|reflexivity].
    exfalso. exact (Hno p (proj1 (Hsome p eq_refl))).
Qed.

(** AlgorithmVisualizer.runBFS always sets a result. When the start or the
    end commit is empty it is the error asking for both commits. Otherwise it
    is either a BFS result whose [path] is a path with fewest nodes from start
    to end along edges taken in either direction, with [pathLength] its
    number of edges ([path.length - 1]), or, exactly when no such path
    exists, the error saying that no path was found. *)
Theorem runBFS_result (startNode endNode : string) (edges : list Edge) :
  exists res, runBFS startNode endNode edges = Some res /\
    (((startNode = "" \/ endNode = "") /\
      res = VisError "Please select both start and end commits") \/
     (startNode <> "" /\ endNode <> "" /\
      ((exists path, res = VisBFS "Breadth-First Search (BFS)"
                              "Finds the shortest path between two commits"
                              "Time: O(V + E), Space: O(V)" path (Z.of_nat (length path) - 1)%Z /\
          upath edges startNode endNode path /\
          forall q, upath edges startNode endNode q -> length path <= length q) \/
       (res = VisError "No path found between the selected commits" /\
        forall q, ~ upath edges startNode endNode q)))).
Proof.
  unfold runBFS, str_truthy.
  destruct (str_eqb_spec startNode empty_str) as [Es|Hs].
  { eexists. split; [reflexivity|]. left. split; [left; exact Es|reflexivity]. }
  destruct (str_eqb_spec endNode empty_str) as [Ee|He].
  { eexists. split; [reflexivity|]. left. split; [right; exact Ee|reflexivity]. }
  cbn [negb orb].
  destruct (findShortestPath_total startNode endNode edges) as (r & Er & Hsome & Hnone).
  rewrite Er. destruct r as [p|].
  - eexists. split; [reflexivity|]. right. split; [exact Hs|split; [exact He|]].
    left. exists p. destruct (Hsome p eq_refl) as [Hp Hmin].
    split; [reflexivity|split; [exact Hp|exact Hmin]].
  - eexists. split; [reflexivity|]. right. split; [exact Hs|split; [exact He|]].
    right. split; [reflexivity|exact (proj1 Hnone eq_refl)].
Qed.

Lemma dec_digit_not_nul d : d < 10 -> ascii_of_nat (48 + d) <> ascii_of_nat 0.
Proof.
  intros Hd E. apply (f_equal nat_of_ascii) in E.
  rewrite !nat_ascii_embedding in E by lia. lia.
Qed.

Lemma to_dec_aux_no_nul f : forall n acc,
  (forall c, In c (list_ascii_of_string acc) -> c <> ascii_of_nat 0) ->
  forall c, In c (list_ascii_of_string (to_dec_aux f n acc)) -> c <> ascii_of_nat 0.
Proof.
  induction f as [|f IH]; intros n acc Hacc c Hc; [exact (Hacc c Hc)|].
  cbn [to_dec_aux] in Hc.
  assert (Hacc' : forall c, In c (list_ascii_of_string (String (ascii_of_nat (48 + Nat.modulo n 10)) acc)) ->
                    c <> ascii_of_nat 0).
  { intros c' [<-|Hc']; [apply dec_digit_not_nul, Nat.mod_upper_bound; lia|exact (Hacc c' Hc')]. }
  destruct (Nat.ltb n 10); [exact (Hacc' c Hc)|exact (IH _ _ Hacc' c Hc)].
Qed.

Lemma nul_split (d1 d2 c1 c2 : string) :
  (forall c, In c (list_ascii_of_string d1) -> c <> ascii_of_nat 0) ->
  (forall c, In c (list_ascii_of_string d2) -> c <> ascii_of_nat 0) ->
  (d1 ++ String (ascii_of_nat 0) c1)%string = (d2 ++ String (ascii_of_nat 0) c2)%string ->
  c1 = c2.
Proof.
  revert d2; induction d1 as [|a d1 IH]; intros [|b d2] H1 H2 E; cbn in E.
  - injection E as E; exact E.
  - injection E as Eb _. exfalso. exact (H2 b (or_introl eq_refl) (eq_sym Eb)).
  - injection E as Ea _. exfalso. exact (H1 a (or_introl eq_refl) Ea).
  - injection E as _ E. exact (IH d2 (fun c Hc => H1 c (or_intror Hc))
                                    (fun c Hc => H2 c (or_intror Hc)) E).
Qed.

(** GitBlob.toString is unambiguous: two blobs with the same text form have
    the same content, since the decimal length before the NUL separator
    never contains a NUL character. *)
Theorem GitBlob_toString_inj (b1 b2 : GitBlob) :
  GitBlob_toString b1 = GitBlob_toString b2 -> blob_content b1 = blob_content b2.
Proof.
  unfold GitBlob_toString. intros E. cbn [String.append] in E.
  repeat (injection E as E).
  refine (nul_split _ _ _ _ _ _ E); unfold to_dec; apply to_dec_aux_no_nul; intros c [].
Qed.

Lemma GitBlob_toString_inj_witness :
  GitBlob_toString (new_GitBlob "hello") = GitBlob_toString (mkBlob "hello" "0") /\
  blob_content (new_GitBlob "hello") = blob_content (mkBlob "hello" "0").
Proof.
  assert (E : GitBlob_toString (new_GitBlob "hello") = GitBlob_toString (mkBlob "hello" "0"))
    by reflexivity.
  split; [exact E|exact (GitBlob_toString_inj _ _ E)].
Defined.

(** ** findMergeBase without fingerprint collisions *)

Lemma findCommon_total rank r anc : ranked_store rank r -> forall f h,
  length (filter (fun k => Nat.leb (rank k) (rank h)) (map fst (objects r))) < f ->
  exists v, findCommon (objects r) anc f h = Some v.
Proof.
  intros Hs f. induction f as [|f IH]; intros h Hf; [lia|]. cbn [findCommon].
  destruct (negb (str_truthy h)); [eexists; reflexivity|].
  destruct (JSSet.has h anc); [eexists; reflexivity|].
  destruct (sget h (objects r)) as [o|] eqn:Eo; [|eexists; reflexivity].
  destruct (Hs h o Eo) as (c & -> & _ & Hp).
  assert (Hpar : forall p, In p (commit_parents c) -> exists v, findCommon (objects r) anc f p = Some v).
  { intros p Hin. apply IH.
    assert (Hlt : length (filter (fun k => Nat.leb (rank k) (rank p)) (map fst (objects r))) <
                  length (filter (fun k => Nat.leb (rank k) (rank h)) (map fst (objects r)))).
    { apply (filter_length_impl_lt _ _ _ h).
      - intros x _ Hx. apply Nat.leb_le in Hx. apply Nat.leb_le. pose proof (Hp p Hin). lia.
      - exact (sget_in_keys h (objects r) _ Eo).
      - apply Nat.leb_gt. exact (Hp p Hin).
      - apply Nat.leb_le. lia. }
    lia. }
  clear Hp. induction (commit_parents c) as [|p ps IHps]; [eexists; reflexivity|].
  destruct (Hpar p (or_introl eq_refl)) as [v Ev]. rewrite Ev.
  destruct v as [common|]; [destruct (str_truthy common); [eexists; reflexivity|]|];
    apply IHps; intros q Hq; exact (Hpar q (or_intror Hq)).
Qed.

Lemma findCommon_selfloop objs anc h c ps :
  str_truthy h = true -> JSSet.has h anc = false ->
  sget h objs = Some (OCommit c) -> commit_parents c = h :: ps ->
  forall f, findCommon objs anc f h = None.
Proof.
  intros Ht Ha Hc Hp f. induction f as [|f IH]; [reflexivity|]. cbn [findCommon].
  rewrite Ht, Ha, Hc, Hp. cbn [negb]. rewrite IH. reflexivity.
Qed.

(** C2 fails: in [collision_repo] the "main" commit is its own parent, and
    with a branch "f" at the unknown fingerprint "zzz", [findCommon] on
    main's tip calls itself on the same fingerprint at every level, whatever
    the fuel (the JavaScript recursion overflows the stack), so
    [findMergeBase('f', 'main')] does not return. *)
Lemma findMergeBase_collision_diverges :
  api_reachable collision_branch_repo /\
  sget "f" (refs collision_branch_repo) = Some "zzz" /\
  sget "main" (refs collision_branch_repo) = Some "000000000000000000000000000000001721bf41" /\
  traverse (objects collision_branch_repo) (store_fuel collision_branch_repo) "zzz" [] = Some ["zzz"] /\
  (forall fuel, findCommon (objects collision_branch_repo) ["zzz"] fuel
                  "000000000000000000000000000000001721bf41" = None) /\
  ~ (forall r branchA branchB, api_reachable r -> exists res, findMergeBase r branchA branchB = Some res).
Proof.
  assert (Hapi : api_reachable collision_branch_repo).
  { unfold collision_branch_repo, collision_repo. apply api_branch, api_commit, api_commit, api_init. }
  assert (Hloop : forall fuel, findCommon (objects collision_branch_repo) ["zzz"] fuel
                    "000000000000000000000000000000001721bf41" = None).
  { apply (findCommon_selfloop _ _ _
             (mkCommit "t" ["000000000000000000000000000000001721bf41"] "Bob" "acuoepn"
                "2024-01-01T00:00:01.000Z" "000000000000000000000000000000001721bf41") []);
      vm_compute; reflexivity. }
  split; [exact Hapi|split; [vm_compute; reflexivity|split; [vm_compute; reflexivity|]]].
  split; [vm_compute; reflexivity|split; [exact Hloop|]].
  intros Hall. destruct (Hall collision_branch_repo "f" "main" Hapi) as [res E].
  vm_compute in E. discriminate E.
Qed.

(** C2 as the code does it: in a repository built by [commit],
    [createBranch] and [checkout] in which no commit receives a fingerprint
    already occurring in it, [findMergeBase(branchA, branchB)] returns absent
    when either branch has no ref-table entry (or an empty one); otherwise it
    always returns, branchA's ancestor set is exactly branchA's tip and its
    ancestors reached through commits, and the result is the first
    fingerprint of the depth-first walk of branchB's ancestry (tip first,
    then parents in their declared order) lying in that set. In the sample
    repository, whose history is commit1 -> commit2 -> commit3
    (feature-branch) and commit2 -> commit4 (main), the merge base of
    'feature-branch' and 'main' is commit2. *)
Theorem findMergeBase_collision_free (r : GitRepository) (Hr : collision_free_reachable r)
    (branchA branchB : string) :
  ((sget branchA (refs r) = None \/ sget branchB (refs r) = None \/
    sget branchA (refs r) = Some empty_str \/ sget branchB (refs r) = Some empty_str) ->
   findMergeBase r branchA branchB = Some None) /\
  (forall hA hB,
     sget branchA (refs r) = Some hA -> sget branchB (refs r) = Some hB ->
     hA <> empty_str -> hB <> empty_str ->
     exists anc res, traverse (objects r) (store_fuel r) hA [] = Some anc /\
       (forall x, In x anc <-> hash_ancestor (objects r) hA x) /\
       findMergeBase r branchA branchB = Some res /\
       forall fuel, store_fuel r <= fuel ->
         res = find (fun x => JSSet.has x anc) (ancestry_preorder (objects r) fuel hB)) /\
  (exists h1 h2 h3 h4 c1 c2 c3 c4,
     getObject sample_repo h1 = Some (OCommit c1) /\ commit_parents c1 = [] /\
     getObject sample_repo h2 = Some (OCommit c2) /\ commit_parents c2 = [h1] /\
     getObject sample_repo h3 = Some (OCommit c3) /\ commit_parents c3 = [h2] /\
     getObject sample_repo h4 = Some (OCommit c4) /\ commit_parents c4 = [h2] /\
     sget "feature-branch" (refs sample_repo) = Some h3 /\
     sget "main" (refs sample_repo) = Some h4 /\
     findMergeBase sample_repo "feature-branch" "main" = Some (Some h2)).
Proof.
  split; [|split].
  - intros H. unfold findMergeBase; cbv zeta.
    destruct H as [E|[E|[E|E]]]; rewrite E.
    + reflexivity.
    + destruct (sget branchA (refs r)); reflexivity.
    + destruct (sget branchB (refs r)); reflexivity.
    + destruct (sget branchA (refs r)) as [h1|]; [|reflexivity].
      cbn -[str_truthy]. rewrite andb_false_r. reflexivity.
  - intros hA hB EA EB HA HB.
    destruct (traverse_store_total r hA []) as [anc Et].
    destruct (collision_free_ranked r Hr) as [rank Hs].
    destruct (findCommon_total rank r anc Hs (store_fuel r) hB) as [res Ef].
    { pose proof (filter_length_le (fun k => Nat.leb (rank k) (rank hB)) (map fst (objects r))) as Hle.
      rewrite length_map in Hle. unfold store_fuel. lia. }
    exists anc, res. split; [exact Et|split; [exact (traverse_ancestors _ _ _ _ Et)|split]].
    + unfold findMergeBase; cbv zeta.
      rewrite EA, EB, (str_truthy_true _ HA), (str_truthy_true _ HB). cbn [andb].
      rewrite Et. exact Ef.
    + intros fuel Hle. apply findCommon_preorder.
      exact (findCommon_mono _ _ _ _ _ _ Hle Ef).
  - exists "0000000000000000000000000000000040ebe8bd", "000000000000000000000000000000006f4d43a9",
      "000000000000000000000000000000004778dce4", "0000000000000000000000000000000020055e1a".
    do 4 eexists.
    repeat match goal with |- _ /\ _ => split end; vm_compute; reflexivity.
Qed.

Lemma collision_free_merge_repo : collision_free_reachable merge_repo.
Proof.
  unfold merge_repo. cbv zeta. apply cf_commit.
  - apply cf_checkout, cf_branch. apply cf_commit; [apply cf_init|].
    intros [[o Ho]|[(k & c & Hk & _)|[b Hb]]]; discriminate.
  - intros [[o Ho]|[(k & c & Hk & Hin)|[b Hb]]].
    + vm_compute in Ho. discriminate Ho.
    + vm_compute in Hk.
      match type of Hk with (if ?t then _ else _) = _ => destruct t end; [|discriminate Hk].
      injection Hk as <-. vm_compute in Hin. destruct Hin.
    + vm_compute in Hb.
      repeat match type of Hb with
             | (if ?t then _ else _) = _ => destruct t
             | Some _ = Some _ => injection Hb as Hb; discriminate Hb
             | None = Some _ => discriminate Hb
             end.
Qed.

Lemma findMergeBase_collision_free_witness :
  collision_free_reachable merge_repo /\
  exists anc res,
    traverse (objects merge_repo) (store_fuel merge_repo) "0000000000000000000000000000000002f6d2af" [] = Some anc /\
    (forall x, In x anc <-> hash_ancestor (objects merge_repo) "0000000000000000000000000000000002f6d2af" x) /\
    findMergeBase merge_repo "feature" "main" = Some res /\
    forall fuel, store_fuel merge_repo <= fuel ->
      res = find (fun x => JSSet.has x anc)
              (ancestry_preorder (objects merge_repo) fuel "000000000000000000000000000000001721bf41").
Proof.
  split; [exact collision_free_merge_repo|].
  apply (proj1 (proj2 (findMergeBase_collision_free merge_repo collision_free_merge_repo "feature" "main"))).
  - vm_compute; reflexivity.
  - vm_compute; reflexivity.
  - intros H; discriminate H.
  - intros H; discriminate H.
Defined.
